(** * AMR task-scheduling simulator: domain model, FIFO baseline and genetic scheduler

    A shallow embedding of [src/lib/models.ts], [src/lib/fifo-scheduler.ts],
    [generateRandomTasks] and the [GeneticAlgorithm] class (the two halves of
    [src/lib/task-generator.ts]), and of the handlers of the simulator page
    that generate tasks, run the scheduler and step through a solution.

    Conventions of the embedding:
    - a JavaScript [number] that is used arithmetically (coordinates, times,
      fitness, weights) is an IEEE-754 binary64 value: Rocq's primitive [float];
    - task ids, population sizes, generation counters and array indices are
      integers ([Z]);
    - a value returned by [Math.random()] is a rational in the interval [0,1)
      supplied by an oracle (every binary64 value is a rational);
    - a JavaScript array of tasks is a [list (option Task)], where [None] stands
      for [null], [undefined] and holes alike (all are falsy, and reading a field
      of any of them throws);
    - chromosome arrays are shared by reference between individuals, so they live
      in an explicit store of arrays and an individual holds an address;
    - an object without fields ([{ ...undefined }]) in a population is [None]. *)

From Stdlib Require Import List ZArith QArith Qround Bool Lia Permutation Floats.
Import ListNotations.

Set Implicit Arguments.
Set Warnings "-inexact-float".

(** ** models.ts *)

Module Models.

Inductive TaskType := DELIVERY | PICKUP | PICKUP_DELIVERY.

Definition TaskType_eqb (a b : TaskType) : bool :=
  match a, b with
  | DELIVERY, DELIVERY | PICKUP, PICKUP | PICKUP_DELIVERY, PICKUP_DELIVERY => true
  | _, _ => false
  end.

Lemma TaskType_eqb_eq a b : TaskType_eqb a b = true <-> a = b.
Proof. destruct a, b; simpl; split; congruence. Qed.

Record Position := { x : float; y : float }.

Record Task := {
  id : Z;
  type : TaskType;
  position : Position;
  processingTime : float
}.

(** The argument object of [new Task(...)]; [processingTime] is optional. *)
Record TaskParams := {
  p_id : Z;
  p_type : TaskType;
  p_position : Position;
  p_processingTime : option float
}.

(** Truthiness of a number: everything but [0], [-0] and [NaN]. *)
Definition truthy (v : float) : bool := negb (is_zero v || is_nan v).

(** [a || b] on an optional number. *)
Definition or_default (v : option float) (d : float) : float :=
  match v with
  | Some f => if truthy f then f else d
  | None => d
  end.

(** [Task.constructor] *)
Definition newTask (params : TaskParams) : Task :=
  {| id := p_id params;
     type := p_type params;
     position := p_position params;
     processingTime := or_default (p_processingTime params) 5 |}.

(** [Math.sqrt(Math.pow(bx - ax, 2) + Math.pow(by - ay, 2))]; squaring is one
    multiplication. *)
Definition euclid (b a : Position) : float :=
  sqrt ((x b - x a) * (x b - x a) + (y b - y a) * (y b - y a))%float.

(** [Task.distanceFrom] *)
Definition distanceFrom (t : Task) (pos : Position) : float := euclid (position t) pos.

Record StorageSlot := {
  isOccupied : bool;
  taskId : option Z;
  taskType : option TaskType
}.

Definition emptySlot : StorageSlot :=
  {| isOccupied := false; taskId := None; taskType := None |}.

Definition slotFor (t : Task) : StorageSlot :=
  {| isOccupied := true; taskId := Some (id t); taskType := Some (type t) |}.

Record AMR := {
  amr_position : Position;
  storageSlots : list StorageSlot
}.

Definition home : Position := {| x := 2; y := 2 |}.

(** [AMR.constructor] *)
Definition newAMR (pos : option Position) (slots : option (list StorageSlot)) : AMR :=
  {| amr_position := match pos with Some p => p | None => home end;
     storageSlots := match slots with
                     | Some s => s
                     | None => [emptySlot; emptySlot; emptySlot; emptySlot]
                     end |}.

Definition occupiedCount (slots : list StorageSlot) : nat :=
  length (filter isOccupied slots).

(** [AMR.canHandleTask] *)
Definition canHandleTask (a : AMR) (t : Task) : bool :=
  let occupiedSlots := occupiedCount (storageSlots a) in
  match type t with
  | DELIVERY | PICKUP => (occupiedSlots <? 4)%nat
  | PICKUP_DELIVERY => (occupiedSlots <? 3)%nat
  end.

(** The loop "find the first empty slot, occupy it, break". *)
Fixpoint occupyFirstEmpty (slots : list StorageSlot) (t : Task) : list StorageSlot :=
  match slots with
  | [] => []
  | s :: rest =>
      if negb (isOccupied s) then slotFor t :: rest
      else s :: occupyFirstEmpty rest t
  end.

(** The loop "find the first occupied slot, free it, break"; the flag is
    [pickupDone]. *)
Fixpoint freeFirstOccupied (slots : list StorageSlot) : list StorageSlot * bool :=
  match slots with
  | [] => ([], false)
  | s :: rest =>
      if isOccupied s then (emptySlot :: rest, true)
      else let (rest', done) := freeFirstOccupied rest in (s :: rest', done)
  end.

(** [AMR.executeTask]; none of its statements can throw. *)
Definition executeTask (a : AMR) (t : Task) : AMR :=
  let pos := position t in
  match type t with
  | DELIVERY =>
      {| amr_position := pos; storageSlots := occupyFirstEmpty (storageSlots a) t |}
  | PICKUP =>
      {| amr_position := pos; storageSlots := fst (freeFirstOccupied (storageSlots a)) |}
  | PICKUP_DELIVERY =>
      let (slots1, pickupDone) := freeFirstOccupied (storageSlots a) in
      {| amr_position := pos;
         storageSlots := if pickupDone then occupyFirstEmpty slots1 t else slots1 |}
  end.

(** [AMR.availableSlots] *)
Definition availableSlots (a : AMR) : nat :=
  length (filter (fun s => negb (isOccupied s)) (storageSlots a)).

(** A slot that the loop of [executeTask] for a task of kind [k] would pick. *)
Definition eligible (k : TaskType) (s : StorageSlot) : bool :=
  match k with
  | DELIVERY => negb (isOccupied s)
  | PICKUP | PICKUP_DELIVERY => isOccupied s
  end.

(** *** Facts about the two slot loops *)

Lemma occupyFirstEmpty_length slots t :
  length (occupyFirstEmpty slots t) = length slots.
Proof.
  induction slots as [|s rest IH]; simpl; trivial.
  destruct (isOccupied s); simpl; congruence.
Qed.

Lemma freeFirstOccupied_length slots :
  length (fst (freeFirstOccupied slots)) = length slots.
Proof.
  induction slots as [|s rest IH]; simpl; trivial.
  destruct (isOccupied s); simpl; trivial.
  destruct (freeFirstOccupied rest); simpl in *; congruence.
Qed.

Lemma occupyFirstEmpty_full slots t :
  (forall s, In s slots -> isOccupied s = true) -> occupyFirstEmpty slots t = slots.
Proof.
  induction slots as [|s rest IH]; simpl; intros H; trivial.
  rewrite (H s (or_introl eq_refl)); simpl.
  f_equal. apply IH. intros; apply H; now right.
Qed.

Lemma freeFirstOccupied_none slots :
  (forall s, In s slots -> isOccupied s = false) ->
  freeFirstOccupied slots = (slots, false).
Proof.
  induction slots as [|s rest IH]; simpl; intros H; trivial.
  rewrite (H s (or_introl eq_refl)).
  rewrite IH; trivial. intros; apply H; now right.
Qed.

Lemma occupiedCount_zero slots :
  occupiedCount slots = 0%nat -> forall s, In s slots -> isOccupied s = false.
Proof.
  unfold occupiedCount. induction slots as [|s0 rest IH]; simpl; intros H s Hin.
  - contradiction.
  - destruct (isOccupied s0) eqn:E; simpl in H; try discriminate.
    destruct Hin as [<-|Hin]; auto.
Qed.

(** Freeing reports what it did: either nothing was occupied and the slots are
    returned as they were, or exactly one slot, the first occupied one, is
    replaced by an empty slot. *)
Lemma freeFirstOccupied_spec slots :
  (freeFirstOccupied slots = (slots, false) /\ occupiedCount slots = 0%nat) \/
  (exists before s after,
      slots = before ++ s :: after /\ isOccupied s = true /\
      occupiedCount before = 0%nat /\
      freeFirstOccupied slots = (before ++ emptySlot :: after, true)).
Proof.
  induction slots as [|s rest IH]; simpl.
  - left; split; reflexivity.
  - destruct (isOccupied s) eqn:E.
    + right. exists [], s, rest. repeat split; trivial.
    + destruct IH as [[H1 H2]|(b & s' & a & H1 & H2 & H3 & H4)].
      * left. rewrite H1. split; trivial.
        unfold occupiedCount in *; simpl; now rewrite E.
      * right. exists (s :: b), s', a. rewrite H4. repeat split; trivial.
        -- simpl; congruence.
        -- unfold occupiedCount in *; simpl; now rewrite E.
Qed.

(** Occupying, when some slot is empty, replaces exactly the first empty one. *)
Lemma occupyFirstEmpty_spec slots t :
  (exists s, In s slots /\ isOccupied s = false) ->
  exists before s after,
    slots = before ++ s :: after /\ isOccupied s = false /\
    (forall s', In s' before -> isOccupied s' = true) /\
    occupyFirstEmpty slots t = before ++ slotFor t :: after.
Proof.
  induction slots as [|s rest IH]; simpl; intros (s0 & Hin & Hs0).
  - contradiction.
  - destruct (isOccupied s) eqn:E; simpl.
    + destruct Hin as [->|Hin]; [congruence|].
      destruct IH as (b & s' & a & H1 & H2 & H3 & H4); [now exists s0|].
      exists (s :: b), s', a. rewrite H4. repeat split; trivial.
      * simpl; congruence.
      * intros s1 [<-|H]; auto.
    + exists [], s, rest. repeat split; trivial. intros ? [].
Qed.

Lemma occupiedCount_app l1 l2 :
  occupiedCount (l1 ++ l2) = (occupiedCount l1 + occupiedCount l2)%nat.
Proof. unfold occupiedCount. now rewrite filter_app, length_app. Qed.

Lemma occupiedCount_cons s l :
  occupiedCount (s :: l) = ((if isOccupied s then 1 else 0) + occupiedCount l)%nat.
Proof. unfold occupiedCount; simpl. now destruct (isOccupied s). Qed.

(** *** The claims about [executeTask] and the [Task] constructor *)

(** C8. [executeTask] is a total function of the carrier state and the task (no
    statement of it can throw); it always moves the carrier to the task's
    position; a PICKUP_DELIVERY executed while no slot is occupied leaves the
    slots exactly as they were; and, for every kind, when no slot is eligible
    (no empty slot for DELIVERY, no occupied slot for PICKUP and
    PICKUP_DELIVERY) the slots are left exactly as they were. *)
Theorem executeTask_moves_and_tolerates_no_slot :
  forall (a : AMR) (t : Task),
    amr_position (executeTask a t) = position t /\
    (type t = PICKUP_DELIVERY -> occupiedCount (storageSlots a) = 0%nat ->
     storageSlots (executeTask a t) = storageSlots a) /\
    ((forall s, In s (storageSlots a) -> eligible (type t) s = false) ->
     storageSlots (executeTask a t) = storageSlots a).
Proof.
  intros a t. unfold executeTask. split; [|split].
  - destruct (type t); trivial. now destruct (freeFirstOccupied _).
  - intros Hk Hz. rewrite Hk.
    rewrite (freeFirstOccupied_none _ (occupiedCount_zero _ Hz)). reflexivity.
  - intros Hno. destruct (type t) eqn:Hk; simpl in *.
    + apply occupyFirstEmpty_full. intros s Hs.
      specialize (Hno s Hs). now destruct (isOccupied s).
    + now rewrite (freeFirstOccupied_none _ Hno).
    + now rewrite (freeFirstOccupied_none _ Hno).
Qed.

(** C9. The constructor stores 5 when [processingTime] is omitted and when it is
    given as 0 (or -0): the default of [params.processingTime || 5] applies to
    every falsy number, so no task built by the constructor has a zero
    processing time. *)
Theorem newTask_processingTime_default :
  (forall i k p, processingTime (newTask {| p_id := i; p_type := k; p_position := p;
                                            p_processingTime := None |}) = 5%float) /\
  (forall i k p, processingTime (newTask {| p_id := i; p_type := k; p_position := p;
                                            p_processingTime := Some 0%float |}) = 5%float) /\
  (forall i k p, processingTime (newTask {| p_id := i; p_type := k; p_position := p;
                                            p_processingTime := Some (-0)%float |}) = 5%float) /\
  (forall params, is_zero (processingTime (newTask params)) = false).
Proof.
  repeat split; try reflexivity.
  intros [i k p [v|]]; simpl; [|reflexivity].
  unfold truthy. destruct (is_zero v) eqn:Ez; simpl; [reflexivity|].
  destruct (is_nan v); simpl; [reflexivity|exact Ez].
Qed.

(** C10. A PICKUP_DELIVERY leaves the number of occupied slots unchanged:
    either some slot was occupied, then exactly one slot (the first occupied
    one) is freed and afterwards exactly one slot (the first empty one) is
    occupied for the task, or no slot was occupied and the slots are untouched.
    Whatever the task, the slot array keeps its length (4 for a carrier built
    with the default slots). *)
Theorem executeTask_pickup_delivery_preserves_occupancy :
  forall (a : AMR) (t : Task),
    length (storageSlots (executeTask a t)) = length (storageSlots a) /\
    length (storageSlots (executeTask (newAMR None None) t)) = 4%nat /\
    (type t = PICKUP_DELIVERY ->
     occupiedCount (storageSlots (executeTask a t)) = occupiedCount (storageSlots a) /\
     ((occupiedCount (storageSlots a) = 0%nat /\
       storageSlots (executeTask a t) = storageSlots a) \/
      (exists b1 s1 a1 b2 s2 a2,
          (* the pickup frees the first occupied slot *)
          storageSlots a = b1 ++ s1 :: a1 /\ isOccupied s1 = true /\
          occupiedCount b1 = 0%nat /\
          (* the delivery then occupies the first empty slot *)
          b1 ++ emptySlot :: a1 = b2 ++ s2 :: a2 /\ isOccupied s2 = false /\
          (forall s, In s b2 -> isOccupied s = true) /\
          storageSlots (executeTask a t) = b2 ++ slotFor t :: a2))).
Proof.
  intros a t.
  assert (Hlen : forall a0, length (storageSlots (executeTask a0 t)) = length (storageSlots a0)).
  { intros a0. unfold executeTask. destruct (type t); simpl.
    - apply occupyFirstEmpty_length.
    - apply freeFirstOccupied_length.
    - pose proof (freeFirstOccupied_length (storageSlots a0)) as H.
      destruct (freeFirstOccupied (storageSlots a0)) as [m [|]]; simpl in *;
        rewrite ?occupyFirstEmpty_length; exact H. }
  split; [apply Hlen|]. split; [rewrite Hlen; reflexivity|].
  intros Hk. unfold executeTask. rewrite Hk.
  destruct (freeFirstOccupied_spec (storageSlots a))
    as [[H1 H2]|(b1 & s1 & a1 & H1 & H2 & H3 & H4)].
  - rewrite H1; simpl. split; trivial. left; split; trivial.
  - rewrite H4; simpl.
    destruct (occupyFirstEmpty_spec (b1 ++ emptySlot :: a1) t)
      as (b2 & s2 & a2 & G1 & G2 & G3 & G4).
    { exists emptySlot. split; trivial. apply in_elt. }
    rewrite G4. split.
    + rewrite H1.
      assert (E : occupiedCount (b1 ++ emptySlot :: a1) = occupiedCount (b2 ++ s2 :: a2))
        by now rewrite G1.
      rewrite !occupiedCount_app, !occupiedCount_cons in *.
      rewrite G2 in E. rewrite H2. simpl in *. lia.
    + right. exists b1, s1, a1, b2, s2, a2. repeat split; trivial.
Qed.

End Models.

(** ** fifo-scheduler.ts *)

Module FIFO.
Import Models.
Local Open Scope Z_scope.

(** The update of [slotsUsed] after a task has been taken into the group. *)
Definition updateSlots (slotsUsed : Z) (task : Task) : Z :=
  match type task with
  | DELIVERY => slotsUsed + 1
  | PICKUP => Z.max 0 (slotsUsed - 1)
  | PICKUP_DELIVERY => slotsUsed
  end.

(** One pass of the inner [for] loop over [tasksCopy], from the front: the
    tasks pushed to [group], and what [tasksCopy] holds afterwards (the skipped
    tasks, in order, followed by everything from the [break] on). *)
Fixpoint scanGroup (tasksCopy : list Task) (slotsUsed : Z) : list Task * list Task :=
  match tasksCopy with
  | [] => ([], [])
  | task :: rest =>
      if TaskType_eqb (type task) PICKUP_DELIVERY && (3 <=? slotsUsed) then
        (* continue *)
        let (group, kept) := scanGroup rest slotsUsed in (group, task :: kept)
      else if 4 <=? slotsUsed then
        (* break *)
        ([], task :: rest)
      else
        let (group, kept) := scanGroup rest (updateSlots slotsUsed task) in
        (task :: group, kept)
  end.

(** The outer [while (tasksCopy.length > 0)] loop. Besides [result] it returns
    the groups in the order they were built. [None] only when the fuel is
    used up. *)
Fixpoint scheduleLoop (fuel : nat) (tasksCopy result : list Task) (groups : list (list Task))
  : option (list Task * list (list Task)) :=
  match tasksCopy with
  | [] => Some (result, groups)
  | _ :: _ =>
      match fuel with
      | O => None
      | S fuel' =>
          let (group, kept) := scanGroup tasksCopy 0 in
          let result' := result ++ group in
          match group with
          | [] => Some (result', groups ++ [group])     (* break *)
          | _ :: _ => scheduleLoop fuel' kept result' (groups ++ [group])
          end
      end
  end.

(** [FIFOScheduler.schedule], with the groups it went through. *)
Definition scheduleWithGroups (tasks : list Task) : option (list Task * list (list Task)) :=
  scheduleLoop (length tasks) tasks [] [].

Definition schedule (tasks : list Task) : option (list Task) :=
  option_map fst (scheduleWithGroups tasks).

(** The capacity rule of a group, replayed from [slotsUsed]: a
    PICKUP_DELIVERY is only taken below 3, and the occupancy stays within 4
    before and after every task. *)
Fixpoint capacityRespected (slotsUsed : Z) (group : list Task) : bool :=
  match group with
  | [] => true
  | task :: rest =>
      (if TaskType_eqb (type task) PICKUP_DELIVERY then slotsUsed <? 3 else true)
      && (slotsUsed <=? 4) && (updateSlots slotsUsed task <=? 4)
      && capacityRespected (updateSlots slotsUsed task) rest
  end.

Record Metrics := { makespan : float; idleDistance : float }.

(** The three loop variables of [calculateMetrics]. *)
Record Replay := {
  currentTime : float;
  totalIdleDistance : float;
  currentPosition : Position
}.

Definition replayStart : Replay :=
  {| currentTime := 0; totalIdleDistance := 0; currentPosition := {| x := 2; y := 2 |} |}.

(** The body of the [for (const task of solution)] loop. *)
Definition replayTask (st : Replay) (task : Task) : Replay :=
  let distance := euclid (position task) (currentPosition st) in
  let currentTime1 := (currentTime st + distance)%float in
  let totalIdle :=
    match type task with
    | DELIVERY => (totalIdleDistance st + distance)%float
    | _ => totalIdleDistance st
    end in
  {| currentTime := (currentTime1 + processingTime task)%float;
     totalIdleDistance := totalIdle;
     currentPosition := position task |}.

Definition replay (solution : list Task) : Replay := fold_left replayTask solution replayStart.

(** [FIFOScheduler.calculateMetrics] *)
Definition calculateMetrics (solution : list Task) : Metrics :=
  let st := replay solution in
  {| makespan := currentTime st; idleDistance := totalIdleDistance st |}.

(** *** The scan of one group *)

Lemma updateSlots_bounds s t : 0 <= s < 4 -> 0 <= updateSlots s t <= 4.
Proof. unfold updateSlots; destruct (type t); lia. Qed.

Lemma scanGroup_spec tasksCopy :
  forall slotsUsed, 0 <= slotsUsed <= 4 ->
    Permutation tasksCopy (fst (scanGroup tasksCopy slotsUsed) ++ snd (scanGroup tasksCopy slotsUsed)) /\
    capacityRespected slotsUsed (fst (scanGroup tasksCopy slotsUsed)) = true.
Proof.
  induction tasksCopy as [|task rest IH]; intros s Hs; simpl.
  - split; [constructor | reflexivity].
  - destruct (TaskType_eqb (type task) PICKUP_DELIVERY && (3 <=? s)) eqn:Eskip.
    + destruct (IH s Hs) as [Hp Hc].
      destruct (scanGroup rest s) as [group kept]; simpl in *. split; trivial.
      now apply Permutation_cons_app.
    + destruct (4 <=? s) eqn:Efull; simpl.
      * split; [apply Permutation_refl | reflexivity].
      * apply Z.leb_gt in Efull.
        assert (Hu : 0 <= updateSlots s task <= 4) by (apply updateSlots_bounds; lia).
        destruct (IH _ Hu) as [Hp Hc].
        destruct (scanGroup rest (updateSlots s task)) as [group kept]; simpl in *.
        split; [now constructor|].
        rewrite Hc, andb_true_r.
        apply andb_false_iff in Eskip.
        repeat (apply andb_true_iff; split); try (apply Z.leb_le; lia).
        destruct (TaskType_eqb (type task) PICKUP_DELIVERY); trivial.
        destruct Eskip as [?|E]; [discriminate|]. apply Z.leb_gt in E. now apply Z.ltb_lt.
Qed.

(** A pass that starts on a non-empty list takes at least its first task. *)
Lemma scanGroup_progress task rest :
  exists group', fst (scanGroup (task :: rest) 0) = task :: group'.
Proof.
  simpl. rewrite andb_false_r. simpl.
  destruct (scanGroup rest (updateSlots 0 task)) as [group kept]. now exists group.
Qed.

Lemma scheduleLoop_spec fuel :
  forall tasksCopy result groups,
    (length tasksCopy <= fuel)%nat ->
    result = concat groups ->
    Forall (fun g => capacityRespected 0 g = true) groups ->
    exists result' groups',
      scheduleLoop fuel tasksCopy result groups = Some (result', groups') /\
      Permutation (result ++ tasksCopy) result' /\
      result' = concat groups' /\
      Forall (fun g => capacityRespected 0 g = true) groups'.
Proof.
  induction fuel as [|fuel IH]; intros tasksCopy result groups Hlen Hres Hok.
  - destruct tasksCopy; simpl in Hlen; [|lia].
    exists result, groups. simpl. rewrite app_nil_r. auto.
  - destruct tasksCopy as [|task rest].
    + exists result, groups. simpl. rewrite app_nil_r. auto.
    + cbn [scheduleLoop].
      destruct (scanGroup_spec (task :: rest) (slotsUsed := 0)) as [Hp Hc]; [lia|].
      destruct (scanGroup_progress task rest) as (group' & Hg).
      destruct (scanGroup (task :: rest) 0) as [group kept]. simpl in Hp, Hc, Hg. subst group.
      assert (Hklen : (length kept <= fuel)%nat).
      { apply Permutation_length in Hp. simpl in Hp, Hlen. rewrite length_app in Hp. lia. }
      destruct (IH kept (result ++ task :: group') (groups ++ [task :: group'])) as (r & gs & H1 & H2 & H3 & H4);
        trivial.
      * rewrite concat_app. simpl. rewrite app_nil_r. congruence.
      * apply Forall_app; split; trivial. now constructor.
      * exists r, gs. repeat split; trivial.
        rewrite <- H2, <- app_assoc. apply Permutation_app_head. exact Hp.
Qed.

(** C3. [schedule] terminates on every task list and returns a permutation of
    it (every input task exactly once); the result is the concatenation of the
    groups the loop built, and within each group the occupancy replayed from 0
    under the update rule (DELIVERY +1, PICKUP max(0, slotsUsed-1),
    PICKUP_DELIVERY unchanged) never exceeds 4 and no PICKUP_DELIVERY is taken
    while [slotsUsed >= 3]. *)
Theorem schedule_is_feasible_permutation :
  forall tasks : list Task,
    exists result groups,
      scheduleWithGroups tasks = Some (result, groups) /\
      schedule tasks = Some result /\
      Permutation tasks result /\
      length result = length tasks /\
      result = concat groups /\
      Forall (fun g => capacityRespected 0 g = true) groups.
Proof.
  intros tasks. unfold schedule, scheduleWithGroups.
  destruct (scheduleLoop_spec (fuel := length tasks) tasks (result := []) (groups := []))
    as (r & gs & H1 & H2 & H3 & H4); auto.
  exists r, gs. rewrite H1. simpl in H2. repeat split; trivial.
  symmetry. now apply Permutation_length.
Qed.

End FIFO.

(** ** The genetic scheduler ([GeneticAlgorithm]) *)

Module GA.
Import Models.
Local Open Scope Z_scope.

(** *** JavaScript arrays of tasks *)

Definition TaskArray := list (option Task).

(** [a[i]]: [undefined] outside the array. *)
Definition js_get (a : TaskArray) (i : Z) : option Task :=
  if i <? 0 then None else nth (Z.to_nat i) a None.

(** [a[i] = v]: an index inside the array replaces the element; an index at or
    past the end extends the array (with holes up to [i]); a negative index
    only sets a property and leaves the elements and the length alone (the
    program only ever stores [undefined] under a negative index, so reading it
    back as [undefined] is exact). *)
Definition js_set (a : TaskArray) (i : Z) (v : option Task) : TaskArray :=
  if i <? 0 then a
  else
    let n := Z.to_nat i in
    if (n <? length a)%nat then firstn n a ++ v :: skipn (S n) a
    else a ++ repeat None (n - length a) ++ [v].

(** [a.slice(s, e)] *)
Definition js_slice (a : TaskArray) (s e : Z) : TaskArray :=
  let len := Z.of_nat (length a) in
  let k := if s <? 0 then Z.max (len + s) 0 else Z.min s len in
  let final := if e <? 0 then Z.max (len + e) 0 else Z.min e len in
  firstn (Z.to_nat (final - k)) (skipn (Z.to_nat k) a).

(** [for (let i = lo; i <= hi; i++) st = body i st] *)
Fixpoint forCount {S : Type} (n : nat) (i : Z) (body : Z -> S -> S) (st : S) : S :=
  match n with
  | O => st
  | Datatypes.S n' => forCount n' (i + 1) body (body i st)
  end.

Definition forFromTo {S : Type} (lo hi : Z) (body : Z -> S -> S) (st : S) : S :=
  forCount (Z.to_nat (hi - lo + 1)) lo body st.

(** *** Results, the store of chromosome arrays and the random oracle *)

Inductive Result (A : Type) :=
| Ok (a : A)
| TypeError      (* a property of [undefined] or [null] was read *)
| Diverges.      (* a loop that never exits was entered *)
Arguments TypeError {A}.
Arguments Diverges {A}.

Definition rbind {A B} (r : Result A) (k : A -> Result B) : Result B :=
  match r with
  | Ok a => k a
  | TypeError => TypeError
  | Diverges => Diverges
  end.

(** As [forCount], with a body that may fail. *)
Fixpoint forCountR {S : Type} (n : nat) (i : Z) (body : Z -> S -> Result S) (st : S) : Result S :=
  match n with
  | O => Ok st
  | Datatypes.S n' => rbind (body i st) (forCountR n' (i + 1) body)
  end.

(** The arrays allocated so far (an address is an index into [store]) and the
    number of [Math.random()] calls made so far. *)
Record World := { store : list TaskArray; draws : nat }.

Definition M (A : Type) := World -> Result (A * World).

Definition ret {A} (a : A) : M A := fun w => Ok (a, w).

Definition bind {A B} (m : M A) (k : A -> M B) : M B :=
  fun w => match m w with
           | Ok (a, w') => k a w'
           | TypeError => TypeError
           | Diverges => Diverges
           end.

Definition lift {A} (r : Result A) : M A :=
  fun w => match r with
           | Ok a => Ok (a, w)
           | TypeError => TypeError
           | Diverges => Diverges
           end.

Notation "x <- m ;; k" := (bind m (fun x => k))
  (at level 61, m at next level, right associativity).
Notation "' pat <- m ;; k" := (bind m (fun x => match x with pat => k end))
  (at level 61, pat pattern, m at next level, right associativity).

Definition readArray (r : nat) : M TaskArray := fun w => Ok (nth r (store w) [], w).

Definition writeArray (r : nat) (a : TaskArray) : M unit :=
  fun w => Ok (tt, {| store := firstn r (store w) ++ a :: skipn (S r) (store w);
                      draws := draws w |}).

Definition allocArray (a : TaskArray) : M nat :=
  fun w => Ok (length (store w), {| store := store w ++ [a]; draws := draws w |}).

Definition Qltb (a b : Q) : bool := negb (Qle_bool b a).

Record Params := {
  tasks : list Task;
  populationSize : Z;
  maxGenerations : Z;
  crossoverRate : Q;
  mutationRate : Q;
  makeSpanWeight : float;
  idleDistanceWeight : float;
  hasOnGenerationComplete : bool;   (* whether the optional callback is given *)
  hasOnComplete : bool
}.

Record Individual := {
  chromosome : nat;                 (* address of the chromosome array *)
  fitness : float;
  makespan : float;
  idleDistance : float
}.

Record Statistics := {
  averageFitness : float;
  worstFitness : float;
  standardDeviation : float
}.

Inductive Event :=
| GenerationComplete (generation : Z) (best : Individual) (stats : Statistics)
| Yield                             (* [await new Promise(setTimeout)] *)
| Complete.

Inductive Outcome := Completed | Threw | NeverReturns | OutOfFuel.

(** The fields of the class that change during [run]. *)
Record RunState := {
  population : list Individual;
  bestSolution : Individual;
  lastBestFitness : float;
  generationsWithoutImprovement : Z;
  world : World;
  trace : list Event
}.

Definition earlyStopThreshold : float := 0.001.

Definition float_of_nat (n : nat) : float := of_uint63 (Uint63.of_Z (Z.of_nat n)).

(** [calculateFitness]: the loop body is the one of
    [FIFOScheduler.calculateMetrics]; an element that is not a task makes
    [task.position] throw. *)
Fixpoint fitnessLoop (chromosome : TaskArray) (st : FIFO.Replay) : Result FIFO.Replay :=
  match chromosome with
  | [] => Ok st
  | None :: _ => TypeError
  | Some task :: rest => fitnessLoop rest (FIFO.replayTask st task)
  end.

Definition calculateFitness (chromosome : TaskArray) : Result FIFO.Metrics :=
  rbind (fitnessLoop chromosome FIFO.replayStart)
        (fun st => Ok {| FIFO.makespan := FIFO.currentTime st;
                         FIFO.idleDistance := FIFO.totalIdleDistance st |}).

(** [findBestIndividual]: a [reduce] that starts from [null]. *)
Definition findBestIndividual (pop : list Individual) : option Individual :=
  fold_left (fun best current =>
               match best with
               | None => Some current
               | Some b => if (fitness current <? fitness b)%float then Some current else Some b
               end) pop None.

(** [calculatePopulationStatistics] *)
Definition calculatePopulationStatistics (pop : list Individual) : Statistics :=
  let totalFitness := fold_left (fun sum ind => (sum + fitness ind)%float) pop 0%float in
  let average := (totalFitness / float_of_nat (length pop))%float in
  let worst0 := match pop with
                | [] => 0%float
                | first :: _ => if truthy (fitness first) then fitness first else 0%float
                end in
  let worst := fold_left (fun worst current =>
                            if (worst <? fitness current)%float then fitness current else worst)
                         pop worst0 in
  let sumSquaredDifferences :=
    fold_left (fun sum ind =>
                 (sum + (fitness ind - average) * (fitness ind - average))%float) pop 0%float in
  {| averageFitness := average;
     worstFitness := worst;
     standardDeviation := sqrt (sumSquaredDifferences / float_of_nat (length pop)) |}.

(** [Array.prototype.sort] with the comparator [(a, b) => a.fitness - b.fitness]:
    a stable sort; [y] stays before [x] only when the comparator puts it
    strictly first. *)
Fixpoint insertByFitness (x : Individual) (sorted : list Individual) : list Individual :=
  match sorted with
  | [] => [x]
  | y :: ys =>
      if (fitness y - fitness x <? 0)%float then y :: insertByFitness x ys
      else x :: y :: ys
  end.

Definition sortByFitness (pop : list Individual) : list Individual :=
  fold_right insertByFitness [] pop.

(** *** Swap and inversion on an array *)

(** [[c[i1], c[i2]] = [c[i2], c[i1]]]: both reads first, then the two writes. *)
Definition swapMutation (c : TaskArray) (index1 index2 : Z) : TaskArray :=
  let v1 := js_get c index2 in
  let v2 := js_get c index1 in
  js_set (js_set c index1 v1) index2 v2.

Definition inversionMutation (c : TaskArray) (point1 point2 : Z) : TaskArray :=
  let segment := rev (js_slice c point1 (point2 + 1)) in
  forFromTo point1 point2 (fun i c' => js_set c' i (js_get segment (i - point1))) c.

(** *** PMX crossover on arrays *)

(** The segment loop: [offspring1[i] = chromosome2[i]; offspring2[i] = chromosome1[i]]. *)
Definition copySegment (chromosome1 chromosome2 : TaskArray) (point1 point2 : Z)
  (offspring : TaskArray * TaskArray) : TaskArray * TaskArray :=
  forFromTo point1 point2
    (fun i o => (js_set (fst o) i (js_get chromosome2 i),
                 js_set (snd o) i (js_get chromosome1 i)))
    offspring.

(** [usedTasks]: a [Set<number>]. *)
Definition setHas (i : Z) (used : list Z) : bool := existsb (Z.eqb i) used.
Definition setAdd (i : Z) (used : list Z) : list Z :=
  if setHas i used then used else used ++ [i].

Definition segmentIds (offspring : TaskArray) (point1 point2 : Z) : list Z :=
  forFromTo point1 point2
    (fun i used => match js_get offspring i with
                   | Some t => setAdd (id t) used
                   | None => used
                   end) [].

(** [while (usedTasks.has(parent[j].id)) j = (j + 1) % length]. The loop
    examines [j], [j+1], ... cyclically and nothing changes while it runs, so
    once [length] positions in a row held used ids it never exits; [more] is
    the number of positions not yet examined after [j]. *)
Fixpoint probe (more : nat) (parent : TaskArray) (used : list Z) (j : Z) : Result Z :=
  match js_get parent j with
  | None => TypeError
  | Some t =>
      if setHas (id t) used then
        match more with
        | O => Diverges
        | S more' => probe more' parent used ((j + 1) mod Z.of_nat (length parent))
        end
      else Ok j
  end.

(** [fillRemainingPositions] *)
Definition fillStep (parent : TaskArray) (point1 point2 : Z) (i : Z)
  (st : TaskArray * list Z) : Result (TaskArray * list Z) :=
  let (offspring, used) := st in
  if (i <? point1) || (point2 <? i) then
    rbind (probe (length parent - 1) parent used i)
          (fun j => match js_get parent j with
                    | Some t => Ok (js_set offspring i (Some t), setAdd (id t) used)
                    | None => TypeError
                    end)
  else Ok st.

Definition fillRemainingPositions (parent offspring : TaskArray) (point1 point2 : Z)
  : Result TaskArray :=
  rbind (forCountR (length parent) 0 (fillStep parent point1 point2)
                   (offspring, segmentIds offspring point1 point2))
        (fun st => Ok (fst st)).

(** [crossover] on the two parent arrays, for given cut points. *)
Definition pmx (chromosome1 chromosome2 : TaskArray) (point1 point2 : Z)
  : Result (TaskArray * TaskArray) :=
  let blank := repeat (@None Task) (length chromosome1) in
  let (offspring1, offspring2) := copySegment chromosome1 chromosome2 point1 point2 (blank, blank) in
  rbind (fillRemainingPositions chromosome1 offspring1 point1 point2) (fun o1 =>
  rbind (fillRemainingPositions chromosome2 offspring2 point1 point2) (fun o2 =>
  Ok (o1, o2))).

(** *** The grouping of [createRandomChromosome] *)

Record Grouping := {
  taskGroups : list (list Task);
  currentGroup : list Task;
  slotsUsed : Z
}.

Definition closeGroup (g : Grouping) : Grouping :=
  {| taskGroups := taskGroups g ++ [currentGroup g]; currentGroup := []; slotsUsed := 0 |}.

Definition groupStep (g : Grouping) (task : Task) : Grouping :=
  let g1 :=
    if TaskType_eqb (type task) PICKUP_DELIVERY && (3 <=? slotsUsed g) then closeGroup g
    else if 4 <=? slotsUsed g then closeGroup g
    else g in
  {| taskGroups := taskGroups g1;
     currentGroup := currentGroup g1 ++ [task];
     slotsUsed := FIFO.updateSlots (slotsUsed g1) task |}.

Definition groupAndFlatten (shuffledTasks : list Task) : list Task :=
  let g := fold_left groupStep shuffledTasks
                     {| taskGroups := []; currentGroup := []; slotsUsed := 0 |} in
  let groups := match currentGroup g with
                | [] => taskGroups g
                | _ :: _ => taskGroups g ++ [currentGroup g]
                end in
  concat groups.

(** *** The methods of the class *)

Section Scheduler.

(** [rnd k] is the value of the [k]-th call of [Math.random()]. *)
Variable rnd : nat -> Q.
Variable p : Params.

Definition random : M Q :=
  fun w => Ok (rnd (draws w), {| store := store w; draws := S (draws w) |}).

(** [Math.floor(Math.random() * k)] *)
Definition randomIndex (k : Z) : M Z :=
  r <- random ;; ret (Qfloor (r * inject_Z k)).

(** Set by the constructor from the number of tasks. *)
Definition processingChunkSize : Z :=
  let n := Z.of_nat (length (tasks p)) in
  if 20 <? n then 3 else if 15 <? n then 4 else 5.

Definition earlyStopGenerations : Z :=
  let n := Z.of_nat (length (tasks p)) in
  if 20 <? n then 5 else if 15 <? n then 8 else 10.

(** [[...tasks].sort(() => Math.random() - 0.5)]. The comparator is not
    consistent, so the order is left to the engine; the model inserts the
    elements one by one and asks the comparator (one call of [Math.random()])
    at each comparison, which can produce every rearrangement. *)
Fixpoint insertRandomly (t : Task) (sorted : list Task) : M (list Task) :=
  match sorted with
  | [] => ret [t]
  | u :: rest =>
      r <- random ;;
      if Qltb r (1#2) then ret (t :: u :: rest)
      else (rest' <- insertRandomly t rest ;; ret (u :: rest'))
  end.

Fixpoint shuffle (l : list Task) : M (list Task) :=
  match l with
  | [] => ret []
  | t :: rest => sorted <- shuffle rest ;; insertRandomly t sorted
  end.

(** [createRandomChromosome] *)
Definition createRandomChromosome : M nat :=
  shuffledTasks <- shuffle (tasks p) ;;
  allocArray (map Some (groupAndFlatten shuffledTasks)).

Definition freshIndividual (r : nat) : Individual :=
  {| chromosome := r; fitness := 0; makespan := 0; idleDistance := 0 |}.

(** [initializePopulation]: [n] is the number of iterations left. *)
Fixpoint initializeLoop (n : nat) (pop : list Individual) : M (list Individual) :=
  match n with
  | O => ret pop
  | S n' => r <- createRandomChromosome ;; initializeLoop n' (pop ++ [freshIndividual r])
  end.

Definition initializePopulation : M (list Individual) :=
  initializeLoop (Z.to_nat (populationSize p)) [].

(** [evaluatePopulation]. A population may hold empty objects, written
    [None] ([createNewGeneration] makes them from a population that is too
    short); on such an object [individual.chromosome] is [undefined] and the
    iteration in [calculateFitness] throws. *)
Definition evaluateIndividual (w : World) (ind : Individual) : Result Individual :=
  rbind (calculateFitness (nth (chromosome ind) (store w) []))
        (fun m => Ok {| chromosome := chromosome ind;
                        makespan := FIFO.makespan m;
                        idleDistance := FIFO.idleDistance m;
                        fitness := (makeSpanWeight p * FIFO.makespan m
                                    + idleDistanceWeight p * FIFO.idleDistance m)%float |}).

Fixpoint evaluatePopulation (w : World) (pop : list (option Individual))
  : Result (list Individual) :=
  match pop with
  | [] => Ok []
  | None :: _ => TypeError           (* [calculateFitness(undefined)] *)
  | Some ind :: rest =>
      rbind (evaluateIndividual w ind) (fun ind' =>
      rbind (evaluatePopulation w rest) (fun rest' => Ok (ind' :: rest')))
  end.

(** [tournamentSelection]: [n] is the number of rounds left and [best] is
    [None] while the variable is [null] or [undefined]. An index beyond the
    population reads [undefined]: it becomes [best] as long as there is none,
    and makes [individual.fitness] throw once there is one. The result
    [{ ...best }] is an empty object, written [None], when [best] is still
    [null] or [undefined] at the end, which is what happens on an empty
    population. *)
Fixpoint tournamentLoop (n : nat) (pop : list Individual) (best : option Individual)
  : M (option Individual) :=
  match n with
  | O => ret best
  | S n' =>
      randomIndex <- randomIndex (Z.of_nat (length pop)) ;;
      match best, nth_error pop (Z.to_nat randomIndex) with
      | None, individual => tournamentLoop n' pop individual
      | Some _, None => lift TypeError
      | Some b, Some individual =>
          tournamentLoop n' pop
            (if (fitness individual <? fitness b)%float then Some individual else Some b)
      end
  end.

Definition tournamentSelection (pop : list Individual) : M (option Individual) :=
  tournamentLoop 3 pop None.

(** [crossover] *)
Definition crossover (parent1 parent2 : Individual) : M (Individual * Individual) :=
  chromosome1 <- readArray (chromosome parent1) ;;
  chromosome2 <- readArray (chromosome parent2) ;;
  let length := Z.of_nat (length chromosome1) in
  point1 <- randomIndex (length - 1) ;;
  d <- randomIndex (length - point1) ;;
  let point2 := point1 + d in
  '(offspring1, offspring2) <- lift (pmx chromosome1 chromosome2 point1 point2) ;;
  r1 <- allocArray offspring1 ;;
  r2 <- allocArray offspring2 ;;
  ret (freshIndividual r1, freshIndividual r2).

(** [mutate]: works on the array the individual points to, in place. *)
Definition mutate (individual : Individual) : M unit :=
  r <- random ;;
  if Qltb (mutationRate p) r then ret tt
  else
    c <- readArray (chromosome individual) ;;
    let length := Z.of_nat (length c) in
    r' <- random ;;
    if Qltb r' (1#2) then
      index1 <- randomIndex length ;;
      index2 <- randomIndex length ;;
      writeArray (chromosome individual) (swapMutation c index1 index2)
    else
      point1 <- randomIndex (length - 1) ;;
      d <- randomIndex (length - point1) ;;
      writeArray (chromosome individual) (inversionMutation c point1 (point1 + d)).

(** [Math.max(1, Math.floor(populationSize * 0.1))]: for an integer [n] of
    magnitude below 2^49 the binary64 product [n * 0.1] (0.1 being the
    binary64 value just above one tenth) has the same floor as [n / 10]. *)
Definition eliteCount : Z := Z.max 1 (populationSize p / 10).

(** [crossover] and [mutate] on what [tournamentSelection] returned: on an
    empty object [parent.chromosome] is [undefined], so the spread in
    [crossover] throws, and so does [chromosome.length] in [mutate] unless
    [mutate] returns before it gets there. *)
Definition crossoverParents (parent1 parent2 : option Individual)
  : M (option Individual * option Individual) :=
  match parent1, parent2 with
  | Some a, Some b =>
      '(offspring1, offspring2) <- crossover a b ;; ret (Some offspring1, Some offspring2)
  | _, _ => lift TypeError
  end.

Definition mutateOffspring (offspring : option Individual) : M unit :=
  match offspring with
  | Some individual => mutate individual
  | None => r <- random ;; if Qltb (mutationRate p) r then ret tt else lift TypeError
  end.

(** One round of the [while (newPopulation.length < populationSize)] loop
    makes two offspring and pushes one or two of them; [room] is
    [populationSize - newPopulation.length]. Without crossover the offspring
    are the spread copies [{ ...parent1 }] and [{ ...parent2 }]: new objects
    with the parents' fields, the chromosome array included. *)
Fixpoint fillLoop (room : nat) (pop : list Individual) (newPopulation : list (option Individual))
  : M (list (option Individual)) :=
  match room with
  | O => ret newPopulation
  | S room' =>
      parent1 <- tournamentSelection pop ;;
      parent2 <- tournamentSelection pop ;;
      r <- random ;;
      '(offspring1, offspring2) <-
         (if Qltb r (crossoverRate p) then crossoverParents parent1 parent2
          else ret (parent1, parent2)) ;;
      _ <- mutateOffspring offspring1 ;;
      _ <- mutateOffspring offspring2 ;;
      match room' with
      | O => ret (newPopulation ++ [offspring1])
      | S room'' => fillLoop room'' pop (newPopulation ++ [offspring1; offspring2])
      end
  end.

(** [createNewGeneration]. The elite loop pushes [{ ...sortedPopulation[i] }]
    for [i] below [eliteCount]: a copy of the [i]-th individual with the same
    chromosome array, or an empty object ([None]) when the population has no
    [i]-th individual. *)
Definition createNewGeneration (pop : list Individual) : M (list (option Individual)) :=
  let sortedPopulation := sortByFitness pop in
  fillLoop (Z.to_nat (populationSize p - eliteCount)) pop
           (map (nth_error sortedPopulation) (seq 0 (Z.to_nat eliteCount))).

(** *** [run] *)

Definition emit (e : Event) (enabled : bool) (tr : list Event) : list Event :=
  if enabled then tr ++ [e] else tr.

Definition outcomeOf {A} (r : Result A) : Outcome :=
  match r with
  | Ok _ => Completed
  | TypeError => Threw
  | Diverges => NeverReturns
  end.

(** The body of the [for] loop, up to and including the callback; the returned
    flag is the early-termination test that follows it. *)
Definition generationStep (g : Z) (st : RunState) : (RunState * bool) + Outcome :=
  match createNewGeneration (population st) (world st) with
  | Ok (newPopulation, w) =>
      match evaluatePopulation w newPopulation with
      | Ok pop =>
          match findBestIndividual pop with
          | None => inr Threw          (* [bestInGeneration.fitness] of [null] *)
          | Some bestInGeneration =>
              let stats := calculatePopulationStatistics pop in
              let improvement := (lastBestFitness st - fitness bestInGeneration)%float in
              let improved := (earlyStopThreshold <? improvement)%float in
              let last := if improved then fitness bestInGeneration else lastBestFitness st in
              let without := if improved then 0 else generationsWithoutImprovement st + 1 in
              let best := if (fitness bestInGeneration <? fitness (bestSolution st))%float
                          then bestInGeneration else bestSolution st in
              inl ({| population := pop;
                      bestSolution := best;
                      lastBestFitness := last;
                      generationsWithoutImprovement := without;
                      world := w;
                      trace := emit (GenerationComplete (g + 1) best stats)
                                    (hasOnGenerationComplete p) (trace st) |},
                   earlyStopGenerations <=? without)
          end
      | r => inr (outcomeOf r)
      end
  | r => inr (outcomeOf r)
  end.

(** The [for (let g = generation; g < endChunk; g++)] loop with its [break];
    [n] is [endChunk - g]. *)
Fixpoint chunkLoop (n : nat) (g : Z) (st : RunState) : RunState + (list Event * Outcome) :=
  match n with
  | O => inl st
  | S n' =>
      match generationStep g st with
      | inl (st', stop) => if stop then inl st' else chunkLoop n' (g + 1) st'
      | inr r => inr (trace st, r)
      end
  end.

(** The [while (generation < maxGenerations)] loop. The assignment
    [generation = maxGenerations] before the [break] is overwritten by
    [generation = endChunk] right after the [for] loop. *)
Fixpoint mainLoop (fuel : nat) (generation : Z) (st : RunState) : list Event * Outcome :=
  if generation <? maxGenerations p then
    match fuel with
    | O => (trace st, OutOfFuel)
    | S fuel' =>
        let endChunk := Z.min (generation + processingChunkSize) (maxGenerations p) in
        match chunkLoop (Z.to_nat (endChunk - generation)) generation st with
        | inl st' =>
            mainLoop fuel' endChunk
              {| population := population st';
                 bestSolution := bestSolution st';
                 lastBestFitness := lastBestFitness st';
                 generationsWithoutImprovement := generationsWithoutImprovement st';
                 world := world st';
                 trace := trace st' ++ [Yield] |}
        | inr r => r
        end
    end
  else (emit Complete (hasOnComplete p) (trace st), Completed).

Definition emptyWorld : World := {| store := []; draws := 0 |}.

(** [run], from a freshly constructed object. *)
Definition run : list Event * Outcome :=
  match initializePopulation emptyWorld with
  | Ok (pop0, w) =>
      match evaluatePopulation w (map Some pop0) with
      | Ok pop =>
          match findBestIndividual pop with
          | None => ([], Threw)        (* [initialBest.fitness] of [null] *)
          | Some initialBest =>
              let initialStats := calculatePopulationStatistics pop in
              mainLoop (Z.to_nat (maxGenerations p)) 0
                {| population := pop;
                   bestSolution := initialBest;
                   lastBestFitness := fitness initialBest;
                   generationsWithoutImprovement := 0;
                   world := w;
                   trace := emit (GenerationComplete 0 initialBest initialStats)
                                 (hasOnGenerationComplete p) [] |}
          end
      | r => ([], outcomeOf r)
      end
  | r => ([], outcomeOf r)
  end.

End Scheduler.

(** *** What the callbacks report *)

(** The generation index and best fitness of every [onGenerationComplete] call,
    in the order of the calls. *)
Definition reports (tr : list Event) : list (Z * float) :=
  flat_map (fun e => match e with
                     | GenerationComplete g best _ => [(g, fitness best)]
                     | _ => []
                     end) tr.

Definition countGenerationCalls (tr : list Event) : nat := length (reports tr).

Definition countCompleteCalls (tr : list Event) : nat :=
  length (filter (fun e => match e with Complete => true | _ => false end) tr).

(** [next] is no worse than [prev]: strictly smaller under [<], or the very
    same number. *)
Definition noWorse (next prev : float) : Prop :=
  (next <? prev)%float = true \/ next = prev.

(** Reports with increasing generation indices and a best fitness that never
    gets worse from one report to the next. *)
Inductive Monotone : list (Z * float) -> Prop :=
| Monotone_nil : Monotone []
| Monotone_one x : Monotone [x]
| Monotone_snoc l x y :
    Monotone (l ++ [x]) -> fst x < fst y -> noWorse (snd y) (snd x) ->
    Monotone (l ++ [x; y]).

(** The comparator puts [a] strictly before [b], or does not put [b] strictly
    before [a]. *)
Definition inOrder (a b : Individual) : Prop :=
  (fitness a - fitness b <? 0)%float = true \/ (fitness b - fitness a <? 0)%float = false.

Inductive AdjacentInOrder : list Individual -> Prop :=
| Adjacent_nil : AdjacentInOrder []
| Adjacent_one a : AdjacentInOrder [a]
| Adjacent_cons a b l : inOrder a b -> AdjacentInOrder (b :: l) -> AdjacentInOrder (a :: b :: l).

(** *** The evaluator *)

Lemma replay_snoc seq task :
  FIFO.replay (seq ++ [task]) = FIFO.replayTask (FIFO.replay seq) task.
Proof. unfold FIFO.replay. now rewrite fold_left_app. Qed.

Lemma fitnessLoop_tasks seq : forall st,
  fitnessLoop (map Some seq) st = Ok (fold_left FIFO.replayTask seq st).
Proof. induction seq as [|t seq IH]; intros st; simpl; auto. Qed.

(** C4. The evaluator starts at the home position (2,2) with time 0 and idle
    distance 0; each further task adds the Euclidean distance from the current
    position to the makespan, adds that distance to the idle distance exactly
    when the task is a DELIVERY, adds the processing time to the makespan, and
    moves the position to the task. [calculateFitness] of the genetic
    scheduler computes the same on an array of tasks. On
    [DELIVERY@(5,5) pt=5, PICKUP@(6,5) pt=3, DELIVERY@(7,5) pt=4] the makespan
    is [sqrt 18 + 5 + 1 + 3 + 1 + 4] and the idle distance [sqrt 18 + 1], in
    binary64 18.242640687119284 and 5.2426406871192848, within 0.0001 of
    18.2426 and 5.2426. *)
Theorem evaluator_replays_sequence :
  (FIFO.calculateMetrics [] = {| FIFO.makespan := 0; FIFO.idleDistance := 0 |} /\
   FIFO.currentPosition (FIFO.replay []) = {| x := 2; y := 2 |}) /\
  (forall (seq : list Task) (task : Task),
      let before := FIFO.calculateMetrics seq in
      let distance := euclid (position task) (FIFO.currentPosition (FIFO.replay seq)) in
      FIFO.calculateMetrics (seq ++ [task]) =
        {| FIFO.makespan := (FIFO.makespan before + distance + processingTime task)%float;
           FIFO.idleDistance := match type task with
                                | DELIVERY => (FIFO.idleDistance before + distance)%float
                                | _ => FIFO.idleDistance before
                                end |} /\
      FIFO.currentPosition (FIFO.replay (seq ++ [task])) = position task) /\
  (forall seq : list Task, calculateFitness (map Some seq) = Ok (FIFO.calculateMetrics seq)) /\
  (forall i1 i2 i3 : Z,
      let scenario :=
        [ {| id := i1; type := DELIVERY; position := {| x := 5; y := 5 |}; processingTime := 5 |};
          {| id := i2; type := PICKUP; position := {| x := 6; y := 5 |}; processingTime := 3 |};
          {| id := i3; type := DELIVERY; position := {| x := 7; y := 5 |}; processingTime := 4 |} ] in
      let m := FIFO.calculateMetrics scenario in
      euclid {| x := 5; y := 5 |} {| x := 2; y := 2 |} = sqrt 18 /\
      FIFO.makespan m = (sqrt 18 + 5 + 1 + 3 + 1 + 4)%float /\
      FIFO.idleDistance m = (sqrt 18 + 1)%float /\
      FIFO.makespan m = 18.242640687119284%float /\
      FIFO.idleDistance m = 5.2426406871192848%float /\
      (18.2425 <? FIFO.makespan m)%float = true /\ (FIFO.makespan m <? 18.2427)%float = true /\
      (5.2425 <? FIFO.idleDistance m)%float = true /\ (FIFO.idleDistance m <? 5.2427)%float = true).
Proof.
  split; [split; reflexivity|]. split; [|split].
  - intros seq task. cbv zeta. unfold FIFO.calculateMetrics.
    rewrite replay_snoc. unfold FIFO.replayTask; simpl.
    split; [|reflexivity]. now destruct (type task).
  - intros seq. unfold calculateFitness, FIFO.calculateMetrics, FIFO.replay.
    now rewrite fitnessLoop_tasks.
  - intros i1 i2 i3. cbv zeta. repeat split; vm_compute; reflexivity.
Qed.

(** *** Reasoning about the monad *)

Lemma bind_Ok {A B} (m : M A) (k : A -> M B) w b w' :
  bind m k w = Ok (b, w') ->
  exists a w1, m w = Ok (a, w1) /\ k a w1 = Ok (b, w').
Proof.
  unfold bind. destruct (m w) as [[a w1]| |]; try discriminate. eauto.
Qed.

Lemma rbind_Ok {A B} (r : Result A) (k : A -> Result B) b :
  rbind r k = Ok b -> exists a, r = Ok a /\ k a = Ok b.
Proof. destruct r; simpl; try discriminate. eauto. Qed.

Lemma ret_Ok {A} (a b : A) w w' : ret a w = Ok (b, w') -> a = b /\ w = w'.
Proof. unfold ret. intros H; inversion H; auto. Qed.

Ltac inv_bind H :=
  let a := fresh "v" in
  let w := fresh "w" in
  let H1 := fresh H in
  apply bind_Ok in H; destruct H as (a & w & H1 & H).

(** *** Elitism *)

Lemma insertByFitness_perm x l : Permutation (x :: l) (insertByFitness x l).
Proof.
  induction l as [|y l IH]; simpl; [apply Permutation_refl|].
  destruct (fitness y - fitness x <? 0)%float; [|apply Permutation_refl].
  rewrite perm_swap. now constructor.
Qed.

Lemma sortByFitness_perm l : Permutation l (sortByFitness l).
Proof.
  induction l as [|x l IH]; simpl; [constructor|].
  rewrite <- insertByFitness_perm. now constructor.
Qed.

Lemma insertByFitness_inOrder x l :
  AdjacentInOrder l -> AdjacentInOrder (insertByFitness x l).
Proof.
  induction 1 as [|a|a b l Hab Hl IH]; simpl.
  - constructor.
  - destruct (fitness a - fitness x <? 0)%float eqn:E.
    + constructor; [now left|constructor].
    + constructor; [now right|constructor].
  - destruct (fitness a - fitness x <? 0)%float eqn:E.
    + simpl in IH. destruct (fitness b - fitness x <? 0)%float eqn:E'.
      * now constructor.
      * constructor; [now left|exact IH].
    + constructor; [now right|now constructor].
Qed.

Lemma sortByFitness_inOrder l : AdjacentInOrder (sortByFitness l).
Proof.
  induction l as [|x l IH]; simpl; [constructor|now apply insertByFitness_inOrder].
Qed.

(** *** Monotone reports *)

Lemma ltb_leb (a b : float) : (a <? b)%float = true -> (a <=? b)%float = true.
Proof.
  rewrite ltb_spec, leb_spec. unfold SFltb, SFleb.
  destruct (SFcompare (Prim2SF a) (Prim2SF b)) as [[| |]|]; congruence.
Qed.

Lemma leb_refl_not_nan (a : float) : is_nan a = false -> (a <=? a)%float = true.
Proof.
  unfold is_nan. rewrite eqb_spec, leb_spec. unfold SFeqb, SFleb.
  destruct (SFcompare (Prim2SF a) (Prim2SF a)) as [[| |]|]; simpl; congruence.
Qed.

Lemma noWorse_leb next prev :
  noWorse next prev -> is_nan prev = false -> (next <=? prev)%float = true.
Proof.
  intros [H| ->] Hn; [now apply ltb_leb | now apply leb_refl_not_nan].
Qed.

(** [<] on binary64 numbers is transitive and irreflexive. *)
Lemma SFcompare_Lt_trans x y z :
  SFcompare x y = Some Lt -> SFcompare y z = Some Lt -> SFcompare x z = Some Lt.
Proof.
  destruct x as [sx|sx| |sx mx ex], y as [sy|sy| |sy my ey], z as [sz|sz| |sz mz ez];
    simpl; try discriminate; try (destruct sx, sy, sz; simpl; congruence);
    try (destruct sx, sy; simpl; congruence); try (destruct sy, sz; simpl; congruence);
    try (destruct sx, sz; simpl; congruence).
  change (Pos.compare_cont Eq mx my) with (Pos.compare mx my).
  change (Pos.compare_cont Eq my mz) with (Pos.compare my mz).
  change (Pos.compare_cont Eq mx mz) with (Pos.compare mx mz).
  destruct sx, sy, sz; simpl; try congruence;
    destruct (Z.compare_spec ex ey), (Z.compare_spec ey ez), (Z.compare_spec ex ez);
    try congruence; try lia; subst;
    destruct (Pos.compare_spec mx my), (Pos.compare_spec my mz), (Pos.compare_spec mx mz);
    simpl; try congruence; try lia.
Qed.

Lemma ltb_trans (a b c : float) :
  (a <? b)%float = true -> (b <? c)%float = true -> (a <? c)%float = true.
Proof.
  rewrite !ltb_spec. unfold SFltb.
  destruct (SFcompare (Prim2SF a) (Prim2SF b)) as [[| |]|] eqn:E1; try discriminate.
  destruct (SFcompare (Prim2SF b) (Prim2SF c)) as [[| |]|] eqn:E2; try discriminate.
  now rewrite (SFcompare_Lt_trans _ _ _ E1 E2).
Qed.

Lemma ltb_irrefl (a : float) : (a <? a)%float = false.
Proof.
  rewrite ltb_spec. unfold SFltb.
  destruct (Prim2SF a) as [s|s| |s m e]; simpl; trivial.
  - destruct s; reflexivity.
  - change (Pos.compare_cont Eq m m) with (Pos.compare m m).
    destruct s; rewrite Z.compare_refl, Pos.compare_refl; reflexivity.
Qed.

Lemma noWorse_trans c b a : noWorse c b -> noWorse b a -> noWorse c a.
Proof.
  intros [H1| ->] [H2| ->]; unfold noWorse; auto.
  left. eapply ltb_trans; eauto.
Qed.

Lemma reports_app tr1 tr2 : reports (tr1 ++ tr2) = reports tr1 ++ reports tr2.
Proof. unfold reports. apply flat_map_app. Qed.

Lemma Monotone_below l x :
  Monotone (l ++ [x]) -> forall z, In z l -> fst z < fst x.
Proof.
  remember (l ++ [x]) as m eqn:Em. intros Hm. revert l x Em.
  induction Hm as [|x0|l0 x0 y Hm IH Hlt Hw]; intros l x Em z Hz.
  - destruct l; discriminate.
  - destruct l as [|? [|? ?]]; try discriminate. contradiction.
  - change (l0 ++ [x0; y]) with (l0 ++ [x0] ++ [y]) in Em.
    rewrite app_assoc in Em. apply app_inj_tail in Em as [<- <-].
    apply in_app_or in Hz as [Hz|[Ez|[]]]; [|now subst z].
    specialize (IH l0 x0 eq_refl z Hz). lia.
Qed.

Lemma Monotone_consecutive l :
  Monotone l ->
  forall g f f', In (g, f) l -> In (g + 1, f') l -> noWorse f' f.
Proof.
  induction 1 as [|x0|l0 x0 y Hm IH Hlt Hw]; intros g f f' H1 H2.
  - contradiction.
  - destruct H1 as [E1|[]]. destruct H2 as [E2|[]].
    rewrite E1 in E2. inversion E2; lia.
  - change (l0 ++ [x0; y]) with (l0 ++ [x0] ++ [y]) in H1, H2.
    rewrite app_assoc in H1, H2.
    pose proof (Monotone_below _ _ Hm) as Hb.
    apply in_app_or in H1 as [H1|[E1|[]]]; apply in_app_or in H2 as [H2|[E2|[]]].
    + eauto.
    + subst y. simpl in Hlt, Hw.
      apply in_app_or in H1 as [H1|[E1|[]]].
      * specialize (Hb _ H1). simpl in Hb. lia.
      * subst x0. exact Hw.
    + subst y. simpl in Hlt.
      apply in_app_or in H2 as [H2|[E2|[]]].
      * specialize (Hb _ H2). simpl in Hb. lia.
      * subst x0. simpl in Hlt. lia.
    + rewrite E1 in E2. inversion E2; lia.
Qed.

(** Any two reports, not only neighbours. *)
Lemma Monotone_pairs l :
  Monotone l ->
  forall i j x y,
    (i < j)%nat -> nth_error l i = Some x -> nth_error l j = Some y ->
    fst x < fst y /\ noWorse (snd y) (snd x).
Proof.
  induction 1 as [|x0|l0 x0 y0 Hm IH Hlt Hw]; intros i j x y Hij Hi Hj.
  - destruct i; discriminate.
  - destruct j as [|[|j]]; try lia; discriminate.
  - change (l0 ++ [x0; y0]) with (l0 ++ [x0] ++ [y0]) in Hi, Hj.
    rewrite app_assoc in Hi, Hj.
    assert (Hlen : length (l0 ++ [x0]) = S (length l0)) by (rewrite length_app; simpl; lia).
    destruct (Nat.lt_ge_cases j (S (length l0))) as [Hjl|Hjl].
    + rewrite nth_error_app1 in Hi, Hj by lia. eauto.
    + rewrite nth_error_app2 in Hj by lia. rewrite Hlen in Hj.
      destruct (j - S (length l0))%nat as [|d] eqn:Ed; [|destruct d; discriminate].
      cbn [nth_error] in Hj. inversion Hj; subst y; clear Hj.
      rewrite nth_error_app1 in Hi by lia.
      destruct (Nat.eq_dec i (length l0)) as [->|Hne].
      * rewrite nth_error_app2, Nat.sub_diag in Hi by lia.
        cbn [nth_error] in Hi. inversion Hi; subst x. split; trivial.
      * assert (Hx0 : nth_error (l0 ++ [x0]) (length l0) = Some x0)
          by (rewrite nth_error_app2, Nat.sub_diag by lia; reflexivity).
        destruct (IH i (length l0) x x0) as [G1 G2]; trivial; [lia|].
        split; [lia|]. eapply noWorse_trans; eauto.
Qed.

(** *** Arrays: reads and writes inside the bounds *)

Lemma js_set_inside a i v :
  0 <= i < Z.of_nat (length a) ->
  length (js_set a i v) = length a /\
  forall k, nth_error (js_set a i v) k =
            if (k =? Z.to_nat i)%nat then Some v else nth_error a k.
Proof.
  intros Hi. unfold js_set.
  destruct (i <? 0) eqn:E; [apply Z.ltb_lt in E; lia|].
  assert (Hn : (Z.to_nat i < length a)%nat) by lia.
  destruct (Nat.ltb_spec (Z.to_nat i) (length a)); [|lia].
  set (n := Z.to_nat i) in *. split.
  - rewrite length_app, length_firstn. cbn [length]. rewrite length_skipn. lia.
  - intros k. rewrite nth_error_app, length_firstn.
    replace (Init.Nat.min n (length a)) with n by lia.
    destruct (Nat.ltb_spec k n).
    + rewrite nth_error_firstn.
      destruct (Nat.ltb_spec k n); [|lia].
      destruct (Nat.eqb_spec k n); [lia|reflexivity].
    + destruct (Nat.eqb_spec k n) as [->|Hne].
      * now rewrite Nat.sub_diag.
      * destruct (k - n)%nat as [|m] eqn:Ek; [lia|]. cbn [nth_error].
        rewrite nth_error_skipn. f_equal. lia.
Qed.

Lemma js_get_inside a i :
  0 <= i < Z.of_nat (length a) -> nth_error a (Z.to_nat i) = Some (js_get a i).
Proof.
  intros Hi. unfold js_get.
  destruct (i <? 0) eqn:E; [apply Z.ltb_lt in E; lia|].
  apply nth_error_nth'. lia.
Qed.

Lemma forCount_js_set (v : Z -> option Task) n :
  forall lo c,
    0 <= lo -> lo + Z.of_nat n <= Z.of_nat (length c) ->
    length (forCount n lo (fun i c' => js_set c' i (v i)) c) = length c /\
    forall k, nth_error (forCount n lo (fun i c' => js_set c' i (v i)) c) k =
              if (lo <=? Z.of_nat k) && (Z.of_nat k <? lo + Z.of_nat n)
              then Some (v (Z.of_nat k)) else nth_error c k.
Proof.
  induction n as [|n IH]; intros lo c Hlo Hhi; cbn [forCount].
  - split; trivial. intros k.
    destruct (Z.leb_spec lo (Z.of_nat k)); simpl; trivial.
    destruct (Z.ltb_spec (Z.of_nat k) (lo + 0)); trivial. lia.
  - destruct (@js_set_inside c lo (v lo)) as [Hl Hk]; [lia|].
    destruct (IH (lo + 1) (js_set c lo (v lo))) as [Hl' Hk']; [lia|lia|].
    split; [congruence|]. intros k. rewrite Hk', Hk.
    destruct (Z.leb_spec (lo + 1) (Z.of_nat k)), (Z.leb_spec lo (Z.of_nat k)),
      (Z.ltb_spec (Z.of_nat k) (lo + 1 + Z.of_nat n)),
      (Z.ltb_spec (Z.of_nat k) (lo + Z.of_nat (S n))),
      (Nat.eqb_spec k (Z.to_nat lo)); simpl; trivial; try lia.
    f_equal. f_equal. lia.
Qed.

Lemma swapMutation_perm c index1 index2 :
  0 <= index1 < Z.of_nat (length c) -> 0 <= index2 < Z.of_nat (length c) ->
  Permutation c (swapMutation c index1 index2).
Proof.
  intros H1 H2. unfold swapMutation.
  destruct (@js_set_inside c index1 (js_get c index2) H1) as [L1 K1].
  destruct (@js_set_inside (js_set c index1 (js_get c index2)) index2 (js_get c index1))
    as [L2 K2]; [lia|].
  apply Permutation_nth_error. split; [congruence|].
  set (n1 := Z.to_nat index1). set (n2 := Z.to_nat index2).
  exists (fun k => if (k =? n2)%nat then n1 else if (k =? n1)%nat then n2 else k).
  split.
  - intros a b.
    destruct (Nat.eqb_spec a n2), (Nat.eqb_spec a n1), (Nat.eqb_spec b n2), (Nat.eqb_spec b n1);
      lia.
  - intros k. rewrite K2, K1. fold n1 n2.
    destruct (Nat.eqb_spec k n2); [symmetry; now apply js_get_inside|].
    destruct (Nat.eqb_spec k n1); [symmetry; now apply js_get_inside|reflexivity].
Qed.

Lemma js_slice_inside c s e :
  0 <= s -> s <= e -> e <= Z.of_nat (length c) ->
  js_slice c s e = firstn (Z.to_nat (e - s)) (skipn (Z.to_nat s) c).
Proof.
  intros. unfold js_slice.
  destruct (Z.ltb_spec s 0); [lia|]. destruct (Z.ltb_spec e 0); [lia|].
  now rewrite !Z.min_l by lia.
Qed.

Lemma inversionMutation_perm c point1 point2 :
  0 <= point1 -> point1 <= point2 -> point2 < Z.of_nat (length c) ->
  Permutation c (inversionMutation c point1 point2).
Proof.
  intros H0 H1 H2. unfold inversionMutation, forFromTo.
  rewrite js_slice_inside by lia.
  set (seg := firstn (Z.to_nat (point2 + 1 - point1)) (skipn (Z.to_nat point1) c)).
  assert (Lseg : length seg = Z.to_nat (point2 + 1 - point1)).
  { unfold seg. rewrite length_firstn, length_skipn. lia. }
  destruct (@forCount_js_set (fun i => js_get (rev seg) (i - point1))
              (Z.to_nat (point2 - point1 + 1)) point1 c) as [L K]; [lia|lia|].
  apply Permutation_nth_error. split; [congruence|].
  exists (fun k => if (point1 <=? Z.of_nat k) && (Z.of_nat k <=? point2)
                   then Z.to_nat (point1 + point2 - Z.of_nat k) else k).
  split.
  - intros a b.
    destruct (Z.leb_spec point1 (Z.of_nat a)), (Z.leb_spec (Z.of_nat a) point2),
      (Z.leb_spec point1 (Z.of_nat b)), (Z.leb_spec (Z.of_nat b) point2); simpl; lia.
  - intros k. rewrite K.
    destruct (Z.leb_spec point1 (Z.of_nat k)), (Z.leb_spec (Z.of_nat k) point2),
      (Z.ltb_spec (Z.of_nat k) (point1 + Z.of_nat (Z.to_nat (point2 - point1 + 1))));
      simpl; trivial; try lia.
    rewrite <- js_get_inside by (rewrite length_rev; lia).
    rewrite nth_error_rev.
    destruct (Nat.ltb_spec (Z.to_nat (Z.of_nat k - point1)) (length seg)); [|lia].
    rewrite Lseg. unfold seg. rewrite nth_error_firstn.
    destruct (Nat.ltb_spec (Z.to_nat (point2 + 1 - point1) - S (Z.to_nat (Z.of_nat k - point1)))
                (Z.to_nat (point2 + 1 - point1))); [|lia].
    rewrite nth_error_skipn. f_equal. lia.
Qed.

(** *** The tasks held by an array *)

Definition present (a : TaskArray) : list Task :=
  flat_map (fun o => match o with Some t => [t] | None => [] end) a.

Lemma present_tasks l : present (map Some l) = l.
Proof. induction l as [|t l IH]; simpl; congruence. Qed.

Lemma present_app a b : present (a ++ b) = present a ++ present b.
Proof. apply flat_map_app. Qed.

Lemma present_length a : (length (present a) <= length a)%nat.
Proof. induction a as [|[t|] a IH]; simpl; lia. Qed.

Lemma present_In a t : In t (present a) <-> In (Some t) a.
Proof.
  unfold present. rewrite in_flat_map. split.
  - intros ([u|] & Hin & Ht); simpl in Ht; [|contradiction].
    destruct Ht as [->|[]]. exact Hin.
  - intros Hin. exists (Some t). simpl. auto.
Qed.

Lemma present_hole a i :
  nth_error a i = Some None -> (length (present a) < length a)%nat.
Proof.
  intros H. apply nth_error_split in H as (l1 & l2 & -> & _).
  rewrite present_app, !length_app. simpl.
  pose proof (present_length l1). pose proof (present_length l2). lia.
Qed.

Lemma present_fill a i t :
  0 <= i -> nth_error a (Z.to_nat i) = Some None ->
  Permutation (t :: present a) (present (js_set a i (Some t))).
Proof.
  intros Hi H.
  assert (Hlen : (Z.to_nat i < length a)%nat) by (apply nth_error_Some; congruence).
  apply nth_error_split in H as (l1 & l2 & -> & Hl1).
  unfold js_set. destruct (Z.ltb_spec i 0); [lia|].
  destruct (Nat.ltb_spec (Z.to_nat i) (length (l1 ++ None :: l2))); [|lia].
  rewrite <- Hl1.
  rewrite firstn_app, firstn_all, Nat.sub_diag, app_nil_r.
  change (S (length l1)) with (1 + length l1)%nat.
  rewrite <- skipn_skipn. rewrite skipn_app, skipn_all, Nat.sub_diag. simpl.
  rewrite !present_app. simpl. apply Permutation_middle.
Qed.

Lemma all_present a :
  (forall k, (k < length a)%nat -> exists t, nth_error a k = Some (Some t)) ->
  a = map Some (present a).
Proof.
  induction a as [|o a IH]; intros H; simpl; trivial.
  destruct (H O) as (t & Ht); [simpl; lia|]. simpl in Ht. inversion Ht; subst. simpl.
  f_equal. apply IH. intros k Hk. apply (H (S k)). simpl; lia.
Qed.

(** An array that agrees with a list of distinct tasks wherever it holds a
    task holds distinct tasks of that list. *)
Lemma present_agree (a : TaskArray) :
  forall D : list Task,
    (forall k t, nth_error a k = Some (Some t) -> nth_error D k = Some t) ->
    NoDup (map id D) ->
    NoDup (map id (present a)) /\ incl (present a) D.
Proof.
  induction a as [|o a IH]; intros D Hag Hnd; simpl.
  - split; [constructor|intros ? []].
  - destruct D as [|d D].
    + destruct o as [t|].
      * specialize (Hag O t eq_refl). discriminate.
      * destruct (IH []) as [H1 H2]; [|constructor|auto].
        intros k t Hk. specialize (Hag (S k) t Hk). now destruct k.
    + simpl in Hnd. apply NoDup_cons_iff in Hnd as [Hd Hnd].
      destruct (IH D) as [H1 H2]; trivial.
      { intros k t Hk. exact (Hag (S k) t Hk). }
      destruct o as [t|]; simpl.
      * specialize (Hag O t eq_refl). simpl in Hag. inversion Hag; subst d.
        split.
        -- constructor; trivial. intros Hin. apply Hd.
           apply in_map_iff in Hin as (u & Hu & Hin). apply in_map_iff.
           exists u. split; trivial. now apply H2.
        -- intros u [->|Hu]; [now left|right; now apply H2].
      * split; trivial. intros u Hu. right. now apply H2.
Qed.

(** *** [usedTasks] *)

Lemma setHas_In z used : setHas z used = true <-> In z used.
Proof.
  unfold setHas. rewrite existsb_exists. split.
  - intros (y & Hy & E). apply Z.eqb_eq in E. now subst.
  - intros H. exists z. split; trivial. apply Z.eqb_refl.
Qed.

Lemma setAdd_In z x used : In z (setAdd x used) <-> z = x \/ In z used.
Proof.
  unfold setAdd. destruct (setHas x used) eqn:E.
  - apply setHas_In in E. split; auto. intros [->|]; auto.
  - rewrite in_app_iff. simpl. intuition.
Qed.

Lemma segmentIds_In offspring point1 point2 z :
  In z (segmentIds offspring point1 point2) <->
  exists k t, point1 <= k <= point2 /\ js_get offspring k = Some t /\ id t = z.
Proof.
  unfold segmentIds, forFromTo.
  set (body := fun (i : Z) (used : list Z) =>
                 match js_get offspring i with
                 | Some t => setAdd (id t) used
                 | None => used
                 end).
  assert (G : forall n lo acc,
             In z (forCount n lo body acc) <->
             In z acc \/ exists k t, lo <= k < lo + Z.of_nat n /\
                                     js_get offspring k = Some t /\ id t = z).
  { induction n as [|n IH]; intros lo acc; cbn [forCount].
    - split; auto. intros [H|(k & t & Hk & _)]; [trivial|lia].
    - rewrite IH. unfold body. split.
      + intros [H|(k & t & Hk & H1 & H2)].
        * destruct (js_get offspring lo) as [t|] eqn:E; auto.
          apply setAdd_In in H as [->|H]; auto.
          right. exists lo, t. repeat split; trivial; lia.
        * right. exists k, t. repeat split; trivial; lia.
      + intros [H|(k & t & Hk & H1 & H2)].
        * left. destruct (js_get offspring lo); trivial. apply setAdd_In. auto.
        * destruct (Z.eq_dec k lo) as [->|Hne].
          -- left. rewrite H1. apply setAdd_In. auto.
          -- right. exists k, t. repeat split; trivial; lia. }
  rewrite G. split.
  - intros [[]|(k & t & Hk & H)]. exists k, t. split; [lia|trivial].
  - intros (k & t & Hk & H). right. exists k, t. split; [lia|trivial].
Qed.

(** *** The segment loop, one offspring at a time *)

Lemma copySegment_split chromosome1 chromosome2 point1 point2 o1 o2 :
  copySegment chromosome1 chromosome2 point1 point2 (o1, o2) =
  (forFromTo point1 point2 (fun i o => js_set o i (js_get chromosome2 i)) o1,
   forFromTo point1 point2 (fun i o => js_set o i (js_get chromosome1 i)) o2).
Proof.
  unfold copySegment, forFromTo.
  generalize (Z.to_nat (point2 - point1 + 1)) as n. intros n.
  revert point1 o1 o2. induction n as [|n IH]; intros lo o1 o2; cbn [forCount].
  - reflexivity.
  - apply IH.
Qed.

(** *** PMX keeps permutations *)

Lemma cyclic_next j k n :
  0 <= j < n -> 0 <= k < n -> j <> k ->
  0 <= (j + 1) mod n < n /\ (k - (j + 1) mod n) mod n = (k - j) mod n - 1.
Proof.
  intros Hj Hk Hne.
  assert (E1 : (j + 1) mod n = if j + 1 <? n then j + 1 else 0).
  { destruct (Z.ltb_spec (j + 1) n).
    - apply Z.mod_small; lia.
    - replace (j + 1) with n by lia. apply Z_mod_same_full. }
  assert (E2 : forall a, - n < a < n -> a mod n = if a <? 0 then a + n else a).
  { intros a Ha. destruct (Z.ltb_spec a 0).
    - replace a with (a + n + (-1) * n) at 1 by lia.
      rewrite Z_mod_plus_full. apply Z.mod_small; lia.
    - apply Z.mod_small; lia. }
  rewrite E1. destruct (Z.ltb_spec (j + 1) n).
  - split; [lia|]. rewrite !E2 by lia.
    destruct (Z.ltb_spec (k - (j + 1)) 0), (Z.ltb_spec (k - j) 0); lia.
  - split; [lia|]. rewrite !E2 by lia.
    destruct (Z.ltb_spec (k - 0) 0), (Z.ltb_spec (k - j) 0); lia.
Qed.

Section Pmx.

(** The task set, with pairwise distinct ids, and a parent that is one of its
    arrangements. *)
Variable T : list Task.
Hypothesis T_distinct : NoDup (map id T).
Variable P : list Task.
Hypothesis P_perm : Permutation T P.

Let n : Z := Z.of_nat (length T).

Lemma P_length : Z.of_nat (length P) = n.
Proof. unfold n. now rewrite (Permutation_length P_perm). Qed.

Lemma P_distinct : NoDup (map id P).
Proof. eapply Permutation_NoDup; [apply Permutation_map, P_perm|exact T_distinct]. Qed.

Lemma parent_get j :
  0 <= j < n -> exists t, js_get (map Some P) j = Some t /\ nth_error P (Z.to_nat j) = Some t.
Proof.
  intros Hj. pose proof P_length as HL.
  destruct (nth_error P (Z.to_nat j)) as [t|] eqn:E.
  - exists t. split; trivial.
    assert (G : nth_error (map Some P) (Z.to_nat j) = Some (Some t))
      by (rewrite nth_error_map, E; reflexivity).
    rewrite js_get_inside in G by (rewrite length_map; lia). now inversion G.
  - apply nth_error_None in E. lia.
Qed.

(** The probe finds a position whose id is unused, whenever there is one. *)
Lemma probe_finds used k :
  0 <= k < n ->
  (forall t, nth_error P (Z.to_nat k) = Some t -> setHas (id t) used = false) ->
  forall more j,
    0 <= j < n -> (k - j) mod n <= Z.of_nat more ->
    exists j' t,
      probe more (map Some P) used j = Ok j' /\ 0 <= j' < n /\
      nth_error P (Z.to_nat j') = Some t /\ js_get (map Some P) j' = Some t /\
      setHas (id t) used = false.
Proof.
  intros Hk Hfree. induction more as [|more IH]; intros j Hj Hd;
    destruct (parent_get Hj) as (t & Hg & Ht); cbn [probe]; rewrite Hg;
    destruct (setHas (id t) used) eqn:Eu; try (exists j, t; now auto).
  - exfalso. assert (j = k).
    { destruct (Z.eq_dec j k); trivial.
      destruct (cyclic_next (j := j) (k := k) (n := n)) as [_ E]; trivial.
      pose proof (Z.mod_pos_bound (k - (j + 1) mod n) n). lia. }
    subst j. rewrite (Hfree t Ht) in Eu. discriminate.
  - assert (Hne : j <> k).
    { intros ->. rewrite (Hfree t Ht) in Eu. discriminate. }
    destruct (cyclic_next (j := j) (k := k) (n := n)) as [Hr E]; trivial.
    rewrite length_map, P_length. apply IH; trivial. lia.
Qed.

Variables point1 point2 : Z.
Hypothesis points : 0 <= point1 /\ point1 <= point2 /\ point2 < n.

(** What holds of the offspring and [usedTasks] when the filling loop is
    about to look at position [i]. *)
Definition FillInv (i : Z) (st : TaskArray * list Z) : Prop :=
  let (offspring, used) := st in
  Z.of_nat (length offspring) = n /\
  (forall k, i <= Z.of_nat k < n -> Z.of_nat k < point1 \/ point2 < Z.of_nat k ->
             nth_error offspring k = Some None) /\
  (forall k, Z.of_nat k < n -> Z.of_nat k < i \/ point1 <= Z.of_nat k <= point2 ->
             exists t, nth_error offspring k = Some (Some t)) /\
  NoDup (map id (present offspring)) /\
  (forall z, In z used <-> In z (map id (present offspring))) /\
  incl (present offspring) T.

Lemma fillStep_inv i st :
  0 <= i < n -> FillInv i st ->
  exists st', fillStep (map Some P) point1 point2 i st = Ok st' /\ FillInv (i + 1) st'.
Proof.
  intros Hi. destruct st as [offspring used]. intros (Hlen & Hblank & Hfull & Hnd & Hused & Hincl).
  unfold fillStep.
  destruct ((i <? point1) || (point2 <? i)) eqn:Eout.
  - (* a position outside the segment *)
    assert (Hout : Z.of_nat (Z.to_nat i) < point1 \/ point2 < Z.of_nat (Z.to_nat i)).
    { apply orb_true_iff in Eout as [E|E]; apply Z.ltb_lt in E; lia. }
    assert (Hhole : nth_error offspring (Z.to_nat i) = Some None) by (apply Hblank; lia).
    assert (Hfew : (length (present offspring) < length P)%nat).
    { pose proof (present_hole _ _ Hhole). pose proof P_length. lia. }
    (* some id of the parent is not used yet *)
    destruct (Forall_Exists_dec (fun z => In z used) (fun z => in_dec Z.eq_dec z used) (map id P))
      as [Hall|Hex].
    { exfalso. rewrite Forall_forall in Hall.
      assert (Hle : (length (map id P) <= length (map id (present offspring)))%nat).
      { apply NoDup_incl_length; [apply P_distinct|]. intros z Hz. apply Hused. auto. }
      rewrite !length_map in Hle. lia. }
    apply Exists_exists in Hex as (z & Hz & Hnot).
    apply in_map_iff in Hz as (t0 & <- & Ht0).
    apply In_nth_error in Ht0 as (k0 & Hk0).
    assert (Hk0n : 0 <= Z.of_nat k0 < n).
    { pose proof P_length. assert (k0 < length P)%nat by (apply nth_error_Some; congruence). lia. }
    destruct (@probe_finds used (Z.of_nat k0) Hk0n) with (more := (length (map Some P) - 1)%nat) (j := i)
      as (j' & t & Hp & Hj' & Ht & Hg & Hfree); trivial.
    { rewrite Nat2Z.id. intros t' Ht'. rewrite Hk0 in Ht'. inversion Ht'; subst t'.
      destruct (setHas (id t0) used) eqn:E; trivial. apply setHas_In in E. contradiction. }
    { rewrite length_map. pose proof P_length. pose proof (Z.mod_pos_bound (Z.of_nat k0 - i) n). lia. }
    rewrite Hp. simpl. rewrite Hg.
    eexists; split; [reflexivity|].
    assert (Hnew : ~ In (id t) used).
    { intros Hin. apply setHas_In in Hin. congruence. }
    destruct (@js_set_inside offspring i (Some t)) as [L K]; [lia|].
    pose proof (@present_fill offspring i t (proj1 Hi) Hhole) as Hperm.
    unfold FillInv. split; [congruence|]. split; [|split; [|split; [|split]]].
    + intros k Hk Hko. rewrite K. destruct (Nat.eqb_spec k (Z.to_nat i)); [lia|].
      apply Hblank; trivial; lia.
    + intros k Hk Hko. rewrite K. destruct (Nat.eqb_spec k (Z.to_nat i)); [now exists t|].
      apply Hfull; trivial. destruct Hko; [left; lia|now right].
    + eapply Permutation_NoDup; [apply Permutation_map, Hperm|].
      simpl. constructor; trivial. intros Hin. apply Hnew. now apply Hused.
    + intros z. rewrite setAdd_In.
      rewrite <- (Permutation_in' eq_refl (Permutation_map id Hperm)). simpl.
      rewrite Hused. intuition.
    + intros u Hu. apply (Permutation_in _ (Permutation_sym Hperm)) in Hu.
      destruct Hu as [<-|Hu]; [|now apply Hincl].
      apply (Permutation_in _ (Permutation_sym P_perm)). eapply nth_error_In; eauto.
  - (* a position of the segment *)
    apply orb_false_iff in Eout as [E1 E2]. apply Z.ltb_ge in E1, E2.
    eexists; split; [reflexivity|].
    unfold FillInv. split; trivial. split; [|split; [|split; [|split]]]; trivial.
    + intros k Hk Hko. apply Hblank; trivial; lia.
    + intros k Hk Hko. apply Hfull; trivial.
      destruct (Z.eq_dec (Z.of_nat k) i); [right; lia|]. destruct Hko; [left; lia|now right].
Qed.

Lemma fillLoop_inv m :
  forall i st, 0 <= i -> i + Z.of_nat m = n -> FillInv i st ->
    exists st', forCountR m i (fillStep (map Some P) point1 point2) st = Ok st' /\ FillInv n st'.
Proof.
  induction m as [|m IH]; intros i st Hi Hm Hinv; cbn [forCountR].
  - exists st. split; trivial. replace n with i by lia. exact Hinv.
  - destruct (@fillStep_inv i st) as (st1 & E & Hinv1); trivial; [lia|].
    rewrite E. simpl. apply IH; trivial; lia.
Qed.

(** The offspring that received the segment of the other parent [D]. *)
Variable D : list Task.
Hypothesis D_perm : Permutation T D.

Lemma fillRemainingPositions_perm :
  let blank := repeat (@None Task) (length P) in
  let offspring := forFromTo point1 point2 (fun i o => js_set o i (js_get (map Some D) i)) blank in
  exists o, fillRemainingPositions (map Some P) offspring point1 point2 = Ok o /\
            Permutation (map Some T) o.
Proof.
  intros blank offspring.
  pose proof P_length as HP.
  assert (HD : Z.of_nat (length D) = n) by (unfold n; now rewrite (Permutation_length D_perm)).
  assert (HDd : NoDup (map id D))
    by (eapply Permutation_NoDup; [apply Permutation_map, D_perm|exact T_distinct]).
  destruct points as (Hp0 & Hp1 & Hp2).
  destruct (@forCount_js_set (fun i => js_get (map Some D) i) (Z.to_nat (point2 - point1 + 1))
              point1 blank) as [L K]; [lia| unfold blank; rewrite repeat_length; lia |].
  fold (forFromTo point1 point2 (fun i o => js_set o i (js_get (map Some D) i)) blank) in L, K.
  fold offspring in L, K.
  assert (Lb : length blank = length P) by (unfold blank; apply repeat_length).
  assert (Kseg : forall k, point1 <= Z.of_nat k <= point2 ->
                           nth_error offspring k = nth_error (map Some D) k).
  { intros k Hk. rewrite K.
    destruct (Z.leb_spec point1 (Z.of_nat k)), (Z.ltb_spec (Z.of_nat k)
      (point1 + Z.of_nat (Z.to_nat (point2 - point1 + 1)))); simpl; try lia.
    rewrite <- js_get_inside by (rewrite length_map; lia). now rewrite Nat2Z.id. }
  assert (Kout : forall k, Z.of_nat k < n -> Z.of_nat k < point1 \/ point2 < Z.of_nat k ->
                           nth_error offspring k = Some None).
  { intros k Hk Hko. rewrite K.
    destruct (Z.leb_spec point1 (Z.of_nat k)), (Z.ltb_spec (Z.of_nat k)
      (point1 + Z.of_nat (Z.to_nat (point2 - point1 + 1)))); simpl; try lia;
      apply nth_error_repeat; lia. }
  assert (Hag : forall k t, nth_error offspring k = Some (Some t) -> nth_error D k = Some t).
  { intros k t Hk.
    assert (Hkn : Z.of_nat k < n).
    { assert (k < length offspring)%nat by (apply nth_error_Some; congruence). lia. }
    destruct (Z_lt_dec (Z.of_nat k) point1) as [Hlo|Hlo];
      [rewrite Kout in Hk by (trivial; lia); discriminate|].
    destruct (Z_lt_dec point2 (Z.of_nat k)) as [Hhi|Hhi];
      [rewrite Kout in Hk by (trivial; lia); discriminate|].
    rewrite Kseg, nth_error_map in Hk by lia.
    destruct (nth_error D k); simpl in Hk; congruence. }
  destruct (@present_agree offspring D Hag HDd) as [Hnd Hincl].
  assert (Hinv : FillInv 0 (offspring, segmentIds offspring point1 point2)).
  { unfold FillInv. split; [lia|]. split; [|split; [|split; [|split]]]; trivial.
    - intros k Hk Hko. apply Kout; trivial; lia.
    - intros k Hk [Hko|Hko]; [lia|]. rewrite Kseg, nth_error_map by lia.
      destruct (nth_error D k) as [t|] eqn:E; [now exists t|].
      apply nth_error_None in E. lia.
    - intros z. rewrite segmentIds_In, in_map_iff. split.
      + intros (k & t & Hk & Hg & Hid). exists t. split; trivial.
        apply present_In. apply nth_error_In with (Z.to_nat k).
        rewrite js_get_inside by lia. now rewrite Hg.
      + intros (t & Hid & Hin). apply present_In in Hin.
        apply In_nth_error in Hin as (k & Hk).
        assert (Hkn : Z.of_nat k < n).
        { assert (k < length offspring)%nat by (apply nth_error_Some; congruence). lia. }
        exists (Z.of_nat k), t.
        assert (point1 <= Z.of_nat k <= point2).
        { destruct (Z_lt_dec (Z.of_nat k) point1) as [Hlo|Hlo];
            [rewrite Kout in Hk by (trivial; lia); discriminate|].
          destruct (Z_lt_dec point2 (Z.of_nat k)) as [Hhi|Hhi];
            [rewrite Kout in Hk by (trivial; lia); discriminate|]. lia. }
        repeat split; trivial; try lia.
        assert (G : nth_error offspring (Z.to_nat (Z.of_nat k)) = Some (js_get offspring (Z.of_nat k)))
          by (apply js_get_inside; lia).
        rewrite Nat2Z.id, Hk in G. now inversion G.
    - intros u Hu. apply (Permutation_in _ (Permutation_sym D_perm)). now apply Hincl. }
  destruct (@fillLoop_inv (length (map Some P)) 0
              (offspring, segmentIds offspring point1 point2) (Z.le_refl 0))
    as ([o used] & E & Hfin); trivial.
  { rewrite length_map. lia. }
  unfold fillRemainingPositions. rewrite E. simpl. exists o. split; trivial.
  destruct Hfin as (Hlen & _ & Hfull & Hnd' & _ & Hincl').
  rewrite (all_present o).
  - apply Permutation_map. apply Permutation_sym.
    apply NoDup_Permutation_bis; trivial.
    + eapply NoDup_map_inv; eauto.
    + assert (length (present o) = length o).
      { rewrite (all_present o) at 2; [now rewrite length_map|].
        intros k Hk. apply Hfull; lia. }
      unfold n in Hlen. lia.
  - intros k Hk. apply Hfull; lia.
Qed.

End Pmx.

(** *** Both offspring of PMX *)

Lemma pmx_perm (T P1 P2 : list Task) point1 point2 :
  NoDup (map id T) -> Permutation T P1 -> Permutation T P2 ->
  0 <= point1 -> point1 <= point2 -> point2 < Z.of_nat (length T) ->
  exists o1 o2,
    pmx (map Some P1) (map Some P2) point1 point2 = Ok (o1, o2) /\
    Permutation (map Some T) o1 /\ Permutation (map Some T) o2.
Proof.
  intros Hd H1 H2 Hp0 Hp1 Hp2. unfold pmx.
  rewrite copySegment_split, length_map.
  destruct (@fillRemainingPositions_perm T Hd P1 H1 point1 point2 (conj Hp0 (conj Hp1 Hp2)) P2 H2)
    as (o1 & E1 & Q1).
  destruct (@fillRemainingPositions_perm T Hd P2 H2 point1 point2 (conj Hp0 (conj Hp1 Hp2)) P1 H1)
    as (o2 & E2 & Q2).
  replace (length P2) with (length P1) in E2
    by (rewrite <- (Permutation_length H1); apply Permutation_length, H2).
  rewrite E1. simpl. rewrite E2. simpl. eauto.
Qed.

(** *** Random indices *)

Lemma floor_random_range (r : Q) (k : Z) :
  (0 <= r)%Q -> (r < 1)%Q -> 0 <= k ->
  0 <= Qfloor (r * inject_Z k) /\ (0 < k -> Qfloor (r * inject_Z k) < k) /\
  (k = 0 -> Qfloor (r * inject_Z k) = 0).
Proof.
  intros H0 H1 Hk. split; [|split].
  - change 0 with (Qfloor 0). apply Qfloor_resp_le.
    apply Qmult_le_0_compat; trivial.
    change 0%Q with (inject_Z 0). now rewrite <- Zle_Qle.
  - intros Hpos. rewrite Zlt_Qlt.
    eapply Qle_lt_trans; [apply Qfloor_le|].
    assert (Hk' : (0 < inject_Z k)%Q) by (change 0%Q with (inject_Z 0); now rewrite <- Zlt_Qlt).
    setoid_replace (inject_Z k) with (1 * inject_Z k)%Q at 2 by ring.
    now apply Qmult_lt_r.
  - intros ->. apply (Qfloor_comp (r * inject_Z 0) 0). ring.
Qed.

(** *** The grouping of a fresh chromosome keeps the order *)

Lemma groupStep_concat g task :
  concat (taskGroups (groupStep g task)) ++ currentGroup (groupStep g task) =
  (concat (taskGroups g) ++ currentGroup g) ++ [task].
Proof.
  unfold groupStep, closeGroup.
  destruct (TaskType_eqb (type task) PICKUP_DELIVERY && (3 <=? slotsUsed g));
    [|destruct (4 <=? slotsUsed g)]; simpl;
    rewrite ?concat_app; simpl; rewrite ?app_nil_r, <- ?app_assoc; reflexivity.
Qed.

Lemma groupAndFlatten_id shuffledTasks : groupAndFlatten shuffledTasks = shuffledTasks.
Proof.
  unfold groupAndFlatten.
  set (g0 := {| taskGroups := []; currentGroup := []; slotsUsed := 0 |}).
  assert (G : forall l g, concat (taskGroups (fold_left groupStep l g))
                          ++ currentGroup (fold_left groupStep l g) =
                          (concat (taskGroups g) ++ currentGroup g) ++ l).
  { induction l as [|t l IH]; intros g; cbn [fold_left]; [now rewrite app_nil_r|].
    rewrite IH, groupStep_concat, <- !app_assoc. reflexivity. }
  specialize (G shuffledTasks g0). simpl in G.
  destruct (fold_left groupStep shuffledTasks g0) as [groups current slots].
  simpl in *. rewrite <- G. destruct current as [|t l].
  - now rewrite app_nil_r.
  - rewrite concat_app. simpl. now rewrite app_nil_r.
Qed.

Section Facts.

Variable rnd : nat -> Q.
Variable p : Params.

(** What [run] maintains between two callbacks: the reports so far are
    monotone and, when the callback is given, the last one carries the fitness
    of the tracked best and a generation index of at most [g]. *)
Definition TraceInv (g : Z) (st : RunState) : Prop :=
  Monotone (reports (trace st)) /\
  if hasOnGenerationComplete p
  then exists l g0, reports (trace st) = l ++ [(g0, fitness (bestSolution st))] /\ g0 <= g
  else reports (trace st) = [].

Lemma TraceInv_weaken g g' st : g <= g' -> TraceInv g st -> TraceInv g' st.
Proof.
  intros Hg [H1 H2]. split; trivial.
  destruct (hasOnGenerationComplete p); trivial.
  destruct H2 as (l & g0 & E & Hle). exists l, g0. split; trivial. lia.
Qed.

Lemma generationStep_TraceInv g st st' stop :
  generationStep rnd p g st = inl (st', stop) ->
  TraceInv g st -> TraceInv (g + 1) st'.
Proof.
  unfold generationStep. intros H [Hm Hl].
  destruct (createNewGeneration rnd p (population st) (world st)) as [[newPop w]| |];
    try discriminate.
  destruct (evaluatePopulation p w newPop) as [pop| |]; try discriminate.
  destruct (findBestIndividual pop) as [b|]; try discriminate.
  inversion H; subst; clear H. unfold TraceInv, emit; simpl.
  destruct (hasOnGenerationComplete p).
  - destruct Hl as (l & g0 & E & Hle).
    rewrite reports_app, E. simpl. rewrite <- app_assoc. simpl. split.
    + apply Monotone_snoc; [now rewrite <- E | simpl; lia |].
      simpl. unfold noWorse.
      destruct (fitness b <? fitness (bestSolution st))%float eqn:Eb; auto.
    + exists (l ++ [(g0, fitness (bestSolution st))]), (g + 1).
      rewrite <- app_assoc. split; [reflexivity|lia].
  - split; trivial.
Qed.

Lemma chunkLoop_TraceInv n :
  forall g st, TraceInv g st ->
    match chunkLoop rnd p n g st with
    | inl st' => TraceInv (g + Z.of_nat n) st'
    | inr (tr, _) => Monotone (reports tr)
    end.
Proof.
  induction n as [|n IH]; intros g st Hinv; cbn [chunkLoop].
  - apply TraceInv_weaken with g; [lia|trivial].
  - destruct (generationStep rnd p g st) as [[st' stop]|r] eqn:E.
    + apply generationStep_TraceInv in E; trivial.
      destruct stop.
      * apply TraceInv_weaken with (g + 1); [lia|trivial].
      * specialize (IH (g + 1) st' E).
        destruct (chunkLoop rnd p n (g + 1) st') as [st''|[tr r]]; trivial.
        apply TraceInv_weaken with (g + 1 + Z.of_nat n); [lia|trivial].
    + apply Hinv.
Qed.

Lemma processingChunkSize_pos : 0 < processingChunkSize p.
Proof.
  unfold processingChunkSize.
  destruct (20 <? _); [lia|]. destruct (15 <? _); lia.
Qed.

Lemma mainLoop_monotone fuel :
  forall generation st, TraceInv generation st ->
    Monotone (reports (fst (mainLoop rnd p fuel generation st))).
Proof.
  induction fuel as [|fuel IH]; intros generation st Hinv; cbn [mainLoop].
  - destruct (generation <? maxGenerations p); simpl; [apply Hinv|].
    unfold emit. destruct (hasOnComplete p); [|apply Hinv].
    rewrite reports_app. simpl. rewrite app_nil_r. apply Hinv.
  - destruct (generation <? maxGenerations p) eqn:Eg; simpl.
    + apply Z.ltb_lt in Eg.
      pose proof processingChunkSize_pos as Hc.
      set (endChunk := Z.min (generation + processingChunkSize p) (maxGenerations p)).
      pose proof (chunkLoop_TraceInv (Z.to_nat (endChunk - generation)) Hinv) as Hch.
      destruct (chunkLoop rnd p (Z.to_nat (endChunk - generation)) generation st)
        as [st'|[tr r]]; [|exact Hch].
      apply IH.
      replace (generation + Z.of_nat (Z.to_nat (endChunk - generation))) with endChunk
        in Hch by (unfold endChunk; lia).
      destruct Hch as [H1 H2]. unfold TraceInv; simpl.
      rewrite reports_app. simpl. rewrite app_nil_r. split; trivial.
    + unfold emit. destruct (hasOnComplete p); [|apply Hinv].
      rewrite reports_app. simpl. rewrite app_nil_r. apply Hinv.
Qed.

Lemma run_monotone : Monotone (reports (fst (run rnd p))).
Proof.
  unfold run.
  destruct (initializePopulation rnd p emptyWorld) as [[pop0 w]| |]; try constructor.
  destruct (evaluatePopulation p w (map Some pop0)) as [pop| |]; try constructor.
  destruct (findBestIndividual pop) as [b|]; try constructor.
  apply mainLoop_monotone. unfold TraceInv, emit; simpl.
  destruct (hasOnGenerationComplete p); simpl.
  - split; [constructor|]. exists [], 0. split; [reflexivity|lia].
  - split; [constructor|reflexivity].
Qed.

(** C2. In every run the reports of the callback, taken in the order of the
    calls, have strictly increasing generation indices and a best fitness that
    never gets worse: of any two reports, the later one carries a fitness that
    is strictly smaller under [<] than the earlier one's, or the same number;
    so [later <= earlier] whenever the earlier one is a number (not NaN). This
    holds of neighbouring reports, of the reports for generations [g] and
    [g + 1], and across the generations that an early stop leaves out; it
    covers generation 0 and the runs that fail later. *)
Theorem run_best_fitness_never_regresses :
  let r := reports (fst (run rnd p)) in
  Monotone r /\
  (forall (i j : nat) (gi gj : Z) (fi fj : float),
     (i < j)%nat -> nth_error r i = Some (gi, fi) -> nth_error r j = Some (gj, fj) ->
     gi < gj /\ noWorse fj fi /\ (is_nan fi = false -> (fj <=? fi)%float = true)) /\
  (forall (g : Z) (f f' : float),
     In (g, f) r -> In (g + 1, f') r ->
     noWorse f' f /\ (is_nan f = false -> (f' <=? f)%float = true)).
Proof.
  cbv zeta. pose proof run_monotone as Hm. split; [exact Hm|]. split.
  - intros i j gi gj fi fj Hij Hi Hj.
    destruct (Monotone_pairs Hm Hij Hi Hj) as [H1 H2]. simpl in H1, H2.
    split; [exact H1|]. split; [exact H2|]. now apply noWorse_leb.
  - intros g f f' H1 H2.
    assert (H : noWorse f' f) by (eapply Monotone_consecutive; eauto).
    split; [exact H|]. now apply noWorse_leb.
Qed.

Lemma fillLoop_keeps_front bound :
  forall room pop newPopulation w res w',
    (room <= bound)%nat ->
    fillLoop rnd p room pop newPopulation w = Ok (res, w') ->
    firstn (length newPopulation) res = newPopulation /\
    length res = (length newPopulation + room)%nat.
Proof.
  induction bound as [|bound IH]; intros room pop newPopulation w res w' Hb H.
  - assert (room = O) by lia. subst. simpl in H. apply ret_Ok in H as [<- _].
    rewrite firstn_all. split; [reflexivity|lia].
  - destruct room as [|room]; simpl in H.
    + apply ret_Ok in H as [<- _]. rewrite firstn_all. split; [reflexivity|lia].
    + inv_bind H. inv_bind H. inv_bind H. inv_bind H.
      destruct v2 as [offspring1 offspring2].
      inv_bind H. inv_bind H.
      destruct room as [|room].
      * apply ret_Ok in H as [<- _].
        rewrite firstn_app, firstn_all, Nat.sub_diag, length_app. simpl.
        rewrite app_nil_r. split; [reflexivity|lia].
      * apply IH in H; [|lia]. destruct H as [G1 G2].
        rewrite length_app in G1, G2. simpl in G1, G2. split; [|lia].
        apply (f_equal (firstn (length newPopulation))) in G1.
        rewrite firstn_firstn in G1.
        replace (Init.Nat.min (length newPopulation) (length newPopulation + 2))
          with (length newPopulation) in G1 by lia.
        rewrite G1, firstn_app, firstn_all, Nat.sub_diag. simpl. now rewrite app_nil_r.
Qed.

Lemma map_nth_error_seq (A : Type) (l : list A) :
  forall k, (k <= length l)%nat -> map (nth_error l) (seq 0 k) = map Some (firstn k l).
Proof.
  induction l as [|a l IH]; intros [|k] H; simpl in *; trivial; try lia.
  rewrite <- seq_shift, map_map. simpl. f_equal. apply IH. lia.
Qed.

(** X11. In every reproduction step that returns, the number of individuals
    carried over is [max(1, floor(populationSize / 10))] (the floor, not the
    ceiling, of a tenth); they are the first individuals of the population
    sorted by the comparator [a.fitness - b.fitness] (a rearrangement of the
    population in which neighbours are in comparator order), and their copies
    (same chromosome array, same fitness, makespan and idle distance) are the
    front of the new population, ahead of everything produced by selection,
    crossover and mutation; where the population is too short the front is
    padded with empty objects. The new population has [populationSize]
    members. Nothing is said here about the contents of the arrays. *)
Theorem createNewGeneration_keeps_elite :
  forall pop w newPopulation w',
    createNewGeneration rnd p pop w = Ok (newPopulation, w') ->
    let k := Z.to_nat (eliteCount p) in
    eliteCount p = Z.max 1 (Qfloor ((1 # 10) * inject_Z (populationSize p))) /\
    firstn k newPopulation = map (nth_error (sortByFitness pop)) (seq 0 k) /\
    ((k <= length pop)%nat ->
     firstn k newPopulation = map Some (firstn k (sortByFitness pop))) /\
    Permutation pop (sortByFitness pop) /\
    AdjacentInOrder (sortByFitness pop) /\
    Z.of_nat (length newPopulation) = Z.max (populationSize p) (eliteCount p).
Proof.
  intros pop w newPopulation w' H k.
  unfold createNewGeneration in H.
  apply (fillLoop_keeps_front (bound := Z.to_nat (populationSize p - eliteCount p))) in H;
    [|lia].
  destruct H as [H1 H2].
  rewrite length_map, length_seq in H1, H2. fold k in H1, H2.
  assert (Hlen : length (sortByFitness pop) = length pop)
    by (symmetry; apply Permutation_length, sortByFitness_perm).
  split; [|split; [|split; [|split; [|split]]]].
  - unfold eliteCount. f_equal.
    rewrite Zdiv_Qdiv. apply Qfloor_comp.
    unfold Qdiv. rewrite Qmult_comm. reflexivity.
  - exact H1.
  - intros Hk. rewrite H1. apply map_nth_error_seq. lia.
  - apply sortByFitness_perm.
  - apply sortByFitness_inOrder.
  - rewrite H2. unfold k, eliteCount. lia.
Qed.

Lemma emit_app e enabled tr : emit e enabled tr = tr ++ emit e enabled [].
Proof. unfold emit. destruct enabled; simpl; [reflexivity|now rewrite app_nil_r]. Qed.

Lemma generationStep_trace g st st' stop :
  generationStep rnd p g st = inl (st', stop) -> exists rest, trace st' = trace st ++ rest.
Proof.
  unfold generationStep. intros H.
  destruct (createNewGeneration rnd p (population st) (world st)) as [[newPop w]| |];
    try discriminate.
  destruct (evaluatePopulation p w newPop) as [pop| |]; try discriminate.
  destruct (findBestIndividual pop) as [b|]; try discriminate.
  inversion H; subst; clear H. simpl. rewrite emit_app. eauto.
Qed.

Lemma chunkLoop_trace n :
  forall g st,
    match chunkLoop rnd p n g st with
    | inl st' => exists rest, trace st' = trace st ++ rest
    | inr (tr, _) => exists rest, tr = trace st ++ rest
    end.
Proof.
  induction n as [|n IH]; intros g st; cbn [chunkLoop].
  - exists []. now rewrite app_nil_r.
  - destruct (generationStep rnd p g st) as [[st' stop]|r] eqn:E.
    + apply generationStep_trace in E as (rest & E).
      destruct stop; [eauto|].
      specialize (IH (g + 1) st').
      destruct (chunkLoop rnd p n (g + 1) st') as [st''|[tr r]];
        destruct IH as (rest' & ->); rewrite E, <- app_assoc; eauto.
    + exists []. now rewrite app_nil_r.
Qed.

Lemma mainLoop_trace fuel :
  forall generation st,
    exists rest, fst (mainLoop rnd p fuel generation st) = trace st ++ rest.
Proof.
  induction fuel as [|fuel IH]; intros generation st; cbn [mainLoop];
    destruct (generation <? maxGenerations p); simpl.
  - exists []. now rewrite app_nil_r.
  - rewrite emit_app. eauto.
  - pose proof (chunkLoop_trace
                  (Z.to_nat (Z.min (generation + processingChunkSize p) (maxGenerations p)
                             - generation)) generation st) as H.
    destruct (chunkLoop rnd p _ generation st) as [st'|[tr r]].
    + destruct H as (rest & E).
      match goal with |- context [mainLoop rnd p fuel ?g ?s] =>
        destruct (IH g s) as (rest' & ->) end.
      simpl. rewrite E, <- !app_assoc. eauto.
    + exact H.
  - rewrite emit_app. eauto.
Qed.

(** *** Counting the callbacks of any run *)

Lemma countCompleteCalls_app tr1 tr2 :
  countCompleteCalls (tr1 ++ tr2) = (countCompleteCalls tr1 + countCompleteCalls tr2)%nat.
Proof. unfold countCompleteCalls. now rewrite filter_app, length_app. Qed.

Lemma countGenerationCalls_app tr1 tr2 :
  countGenerationCalls (tr1 ++ tr2) =
  (countGenerationCalls tr1 + countGenerationCalls tr2)%nat.
Proof. unfold countGenerationCalls. now rewrite reports_app, length_app. Qed.

(** At most [g + 1] generation reports so far, and no completion yet. *)
Definition CountInv (g : Z) (tr : list Event) : Prop :=
  Z.of_nat (countGenerationCalls tr) <= g + 1 /\ countCompleteCalls tr = 0%nat.

Lemma counts_emit_generation g b stats enabled tr :
  (countGenerationCalls (emit (GenerationComplete g b stats) enabled tr)
   <= S (countGenerationCalls tr))%nat /\
  countCompleteCalls (emit (GenerationComplete g b stats) enabled tr) = countCompleteCalls tr.
Proof.
  unfold emit. destruct enabled; [|split; [lia|reflexivity]].
  rewrite countGenerationCalls_app, countCompleteCalls_app.
  change (countGenerationCalls [GenerationComplete g b stats]) with 1%nat.
  change (countCompleteCalls [GenerationComplete g b stats]) with 0%nat.
  split; lia.
Qed.

Lemma counts_yield tr :
  countGenerationCalls (tr ++ [Yield]) = countGenerationCalls tr /\
  countCompleteCalls (tr ++ [Yield]) = countCompleteCalls tr.
Proof.
  rewrite countGenerationCalls_app, countCompleteCalls_app.
  change (countGenerationCalls [Yield]) with 0%nat.
  change (countCompleteCalls [Yield]) with 0%nat.
  split; lia.
Qed.

Lemma counts_emit_complete enabled tr :
  countGenerationCalls (emit Complete enabled tr) = countGenerationCalls tr.
Proof.
  unfold emit. destruct enabled; trivial.
  rewrite countGenerationCalls_app.
  change (countGenerationCalls [Complete]) with 0%nat. lia.
Qed.

Lemma generationStep_count g st st' stop :
  generationStep rnd p g st = inl (st', stop) ->
  CountInv g (trace st) -> CountInv (g + 1) (trace st').
Proof.
  unfold generationStep. intros H [Hc Hd].
  destruct (createNewGeneration rnd p (population st) (world st)) as [[newPop w]| |];
    try discriminate.
  destruct (evaluatePopulation p w newPop) as [pop| |]; try discriminate.
  destruct (findBestIndividual pop) as [b|]; try discriminate.
  inversion H; subst; clear H. unfold CountInv. cbn [trace].
  match goal with |- context [emit (GenerationComplete ?g' ?b' ?s') ?e ?t] =>
    destruct (counts_emit_generation g' b' s' e t) as [H1 H2] end.
  split; lia.
Qed.

Lemma generationStep_failure g st r : generationStep rnd p g st = inr r -> r <> Completed.
Proof.
  unfold generationStep. intros H.
  destruct (createNewGeneration rnd p (population st) (world st)) as [[newPop w]| |];
    try (inversion H; discriminate).
  destruct (evaluatePopulation p w newPop) as [pop| |]; try (inversion H; discriminate).
  destruct (findBestIndividual pop) as [b|]; inversion H; discriminate.
Qed.

Lemma chunkLoop_count n :
  forall g st, CountInv g (trace st) ->
    match chunkLoop rnd p n g st with
    | inl st' => CountInv (g + Z.of_nat n) (trace st')
    | inr (tr, r) => CountInv (g + Z.of_nat n) tr /\ r <> Completed
    end.
Proof.
  assert (W : forall g g' tr, g <= g' -> CountInv g tr -> CountInv g' tr)
    by (intros g g' tr Hg [H1 H2]; split; trivial; lia).
  induction n as [|n IH]; intros g st Hinv; cbn [chunkLoop].
  - apply W with g; [lia|trivial].
  - destruct (generationStep rnd p g st) as [[st' stop]|r] eqn:E.
    + apply generationStep_count in E; trivial. destruct stop.
      * apply W with (g + 1); [lia|trivial].
      * specialize (IH (g + 1) st' E).
        destruct (chunkLoop rnd p n (g + 1) st') as [st''|[tr r]].
        -- apply W with (g + 1 + Z.of_nat n); [lia|trivial].
        -- split; [|apply IH]. apply W with (g + 1 + Z.of_nat n); [lia|apply IH].
    + split; [apply W with g; [lia|trivial]|]. eapply generationStep_failure; eauto.
Qed.

Lemma mainLoop_count fuel :
  forall generation st,
    0 <= generation <= maxGenerations p -> CountInv generation (trace st) ->
    Z.of_nat (countGenerationCalls (fst (mainLoop rnd p fuel generation st)))
      <= maxGenerations p + 1 /\
    (snd (mainLoop rnd p fuel generation st) = Completed ->
     exists tr, fst (mainLoop rnd p fuel generation st) = emit Complete (hasOnComplete p) tr /\
                countCompleteCalls tr = 0%nat) /\
    (snd (mainLoop rnd p fuel generation st) <> Completed ->
     countCompleteCalls (fst (mainLoop rnd p fuel generation st)) = 0%nat).
Proof.
  induction fuel as [|fuel IH]; intros generation st Hg Hinv; cbn [mainLoop];
    destruct (Z.ltb_spec generation (maxGenerations p)); cbn [fst snd].
  - destruct Hinv as [Hc Hd]. split; [lia|]. split; [discriminate|trivial].
  - destruct Hinv as [Hc Hd]. rewrite counts_emit_complete.
    split; [lia|]. split; [|congruence]. intros _. exists (trace st). auto.
  - pose proof processingChunkSize_pos as Hpos.
    set (endChunk := Z.min (generation + processingChunkSize p) (maxGenerations p)).
    pose proof (chunkLoop_count (Z.to_nat (endChunk - generation)) st Hinv) as Hch.
    replace (generation + Z.of_nat (Z.to_nat (endChunk - generation))) with endChunk in Hch
      by (unfold endChunk; lia).
    destruct (chunkLoop rnd p (Z.to_nat (endChunk - generation)) generation st) as [st'|[tr r]].
    + apply IH; [unfold endChunk; lia|]. cbn [trace].
      destruct Hch as [Hc Hd]. destruct (counts_yield (trace st')) as [Y1 Y2].
      unfold CountInv. split; lia.
    + destruct Hch as [[Hc Hd] Hr]. cbn [fst snd]. split; [unfold endChunk in Hc; lia|].
      split; [intros; contradiction|trivial].
  - destruct Hinv as [Hc Hd]. rewrite counts_emit_complete.
    split; [lia|]. split; [|congruence]. intros _. exists (trace st). auto.
Qed.

Lemma run_count :
  0 <= maxGenerations p ->
  Z.of_nat (countGenerationCalls (fst (run rnd p))) <= maxGenerations p + 1 /\
  (snd (run rnd p) = Completed ->
   exists tr, fst (run rnd p) = emit Complete (hasOnComplete p) tr /\
              countCompleteCalls tr = 0%nat) /\
  (snd (run rnd p) <> Completed -> countCompleteCalls (fst (run rnd p)) = 0%nat).
Proof.
  intros Hmax.
  assert (Failed : forall r : Outcome, r <> Completed ->
             Z.of_nat (countGenerationCalls (fst (@nil Event, r))) <= maxGenerations p + 1 /\
             (snd (@nil Event, r) = Completed ->
              exists tr, fst (@nil Event, r) = emit Complete (hasOnComplete p) tr /\
                         countCompleteCalls tr = 0%nat) /\
             (snd (@nil Event, r) <> Completed ->
              countCompleteCalls (fst (@nil Event, r)) = 0%nat)).
  { intros r Hr. cbn [fst snd]. change (countGenerationCalls []) with 0%nat.
    split; [lia|]. split; [intros; contradiction|reflexivity]. }
  unfold run.
  destruct (initializePopulation rnd p emptyWorld) as [[pop0 w]| |];
    try (apply Failed; discriminate).
  destruct (evaluatePopulation p w (map Some pop0)) as [pop| |]; try (apply Failed; discriminate).
  destruct (findBestIndividual pop) as [b|]; try (apply Failed; discriminate).
  apply mainLoop_count; [lia|]. unfold CountInv. cbn [trace].
  destruct (counts_emit_generation 0 b (calculatePopulationStatistics pop)
              (hasOnGenerationComplete p) []) as [H1 H2].
  change (countGenerationCalls []) with 0%nat in H1.
  change (countCompleteCalls []) with 0%nat in H2. split; lia.
Qed.

(** The fuel given by [run] to its main loop is never used up. *)
Lemma generationStep_outcome g st r :
  generationStep rnd p g st = inr r -> r = Threw \/ r = NeverReturns.
Proof.
  unfold generationStep. intros H.
  destruct (createNewGeneration rnd p (population st) (world st)) as [[newPop w]| |];
    try (inversion H; auto).
  destruct (evaluatePopulation p w newPop) as [pop| |]; try (inversion H; auto).
  destruct (findBestIndividual pop) as [b|]; inversion H; auto.
Qed.

Lemma chunkLoop_outcome n :
  forall g st tr r, chunkLoop rnd p n g st = inr (tr, r) -> r = Threw \/ r = NeverReturns.
Proof.
  induction n as [|n IH]; intros g st tr r; cbn [chunkLoop]; [discriminate|].
  destruct (generationStep rnd p g st) as [[st' stop]|r'] eqn:E.
  - destruct stop; [discriminate|apply IH].
  - intros H. inversion H; subst. eapply generationStep_outcome; eauto.
Qed.

Lemma mainLoop_fuel fuel :
  forall generation st,
    maxGenerations p - generation <= Z.of_nat fuel ->
    snd (mainLoop rnd p fuel generation st) <> OutOfFuel.
Proof.
  induction fuel as [|fuel IH]; intros generation st Hf; cbn [mainLoop];
    destruct (Z.ltb_spec generation (maxGenerations p)); try lia; try discriminate.
  pose proof processingChunkSize_pos as Hpos.
  destruct (chunkLoop rnd p _ generation st) as [st'|[tr r]] eqn:E.
  - apply IH. lia.
  - apply chunkLoop_outcome in E as [->| ->]; discriminate.
Qed.

Lemma run_fuel : snd (run rnd p) <> OutOfFuel.
Proof.
  unfold run.
  destruct (initializePopulation rnd p emptyWorld) as [[pop0 w]| |]; try discriminate.
  destruct (evaluatePopulation p w (map Some pop0)) as [pop| |]; try discriminate.
  destruct (findBestIndividual pop) as [b|]; try discriminate.
  apply mainLoop_fuel. lia.
Qed.

End Facts.

(** *** The store *)

Lemma bind_step {A B} (m : M A) (k : A -> M B) w a w1 :
  m w = Ok (a, w1) -> bind m k w = k a w1.
Proof. unfold bind. now intros ->. Qed.
Arguments bind_step {A B} [m] k [w a w1] _.

Lemma replace_nth_same {A} (s : list A) r d :
  (r < length s)%nat -> firstn r s ++ nth r s d :: skipn (S r) s = s.
Proof.
  revert r. induction s as [|a s IH]; intros [|r] H; simpl in *; try lia; trivial.
  f_equal. apply IH. lia.
Qed.

Lemma replace_nth_length {A} (s : list A) r c :
  (r < length s)%nat -> length (firstn r s ++ c :: skipn (S r) s) = length s.
Proof.
  intros H. rewrite length_app, length_firstn. cbn [length]. rewrite length_skipn. lia.
Qed.

Lemma replace_nth_Forall {A} (Q : A -> Prop) (s : list A) r c :
  Forall Q s -> Q c -> Forall Q (firstn r s ++ c :: skipn (S r) s).
Proof.
  intros Hs Hc.
  assert (H1 : Forall Q (firstn r s) /\ Forall Q (skipn r s))
    by (apply Forall_app; now rewrite firstn_skipn).
  assert (H2 : Forall Q (firstn (S r) s) /\ Forall Q (skipn (S r) s))
    by (apply Forall_app; now rewrite firstn_skipn).
  apply Forall_app. split; [apply H1|]. constructor; [trivial|apply H2].
Qed.

Lemma replace_nth_nth {A} (s : list A) r c d :
  (r < length s)%nat -> nth r (firstn r s ++ c :: skipn (S r) s) d = c.
Proof.
  intros H. rewrite app_nth2; rewrite length_firstn; [|lia].
  replace (r - Init.Nat.min r (length s))%nat with O by lia. reflexivity.
Qed.

Section Runs.

Variable rnd : nat -> Q.
Variable p : Params.
Hypothesis rnd_range : forall k, (0 <= rnd k)%Q /\ (rnd k < 1)%Q.

(** An array that holds every input task exactly once. *)
Definition IsPerm (c : TaskArray) : Prop := Permutation (map Some (tasks p)) c.

Definition WF (w : World) : Prop := Forall IsPerm (store w).

Definition PopOK (w : World) (pop : list Individual) : Prop :=
  Forall (fun ind => (chromosome ind < length (store w))%nat) pop.

Lemma IsPerm_tasks c : IsPerm c -> exists P, c = map Some P /\ Permutation (tasks p) P.
Proof.
  intros H. apply Permutation_sym, Permutation_map_inv in H as (P & -> & H). eauto.
Qed.

Lemma WF_nth w r : WF w -> (r < length (store w))%nat -> IsPerm (nth r (store w) []).
Proof. intros H Hr. unfold WF in H. rewrite Forall_forall in H. apply H, nth_In, Hr. Qed.

Lemma PopOK_grow w w' pop :
  (length (store w) <= length (store w'))%nat -> PopOK w pop -> PopOK w' pop.
Proof. intros Hl. apply Forall_impl. intros; lia. Qed.

Lemma randomIndex_spec k w :
  0 <= k ->
  exists i, randomIndex rnd k w = Ok (i, {| store := store w; draws := S (draws w) |}) /\
            0 <= i /\ (0 < k -> i < k) /\ (k = 0 -> i = 0).
Proof.
  intros Hk. unfold randomIndex, bind, random, ret. eexists. split; [reflexivity|].
  apply floor_random_range; trivial; apply rnd_range.
Qed.

Lemma random_step w :
  random rnd w = Ok (rnd (draws w), {| store := store w; draws := S (draws w) |}).
Proof. reflexivity. Qed.

Lemma readArray_step r w : readArray r w = Ok (nth r (store w) [], w).
Proof. reflexivity. Qed.

Lemma insertRandomly_spec t sorted :
  forall w, exists res w',
    insertRandomly rnd t sorted w = Ok (res, w') /\ store w' = store w /\
    Permutation (t :: sorted) res.
Proof.
  induction sorted as [|u rest IH]; intros w; cbn [insertRandomly].
  - exists [t], w. repeat split; auto.
  - unfold bind at 1, random.
    destruct (Qltb (rnd (draws w)) (1 # 2)).
    + eexists _, _. split; [reflexivity|]. split; auto.
    + destruct (IH {| store := store w; draws := S (draws w) |}) as (res & w' & E & Hs & Hp).
      rewrite (bind_step _ E). eexists _, _. split; [reflexivity|]. split; trivial.
      rewrite perm_swap. now constructor.
Qed.

Lemma shuffle_spec l :
  forall w, exists res w',
    shuffle rnd l w = Ok (res, w') /\ store w' = store w /\ Permutation l res.
Proof.
  induction l as [|t l IH]; intros w; cbn [shuffle].
  - exists [], w. repeat split; auto.
  - destruct (IH w) as (sorted & w1 & E & Hs & Hp).
    rewrite (bind_step _ E).
    destruct (insertRandomly_spec t sorted w1) as (res & w' & E' & Hs' & Hp').
    exists res, w'. repeat split; trivial; [congruence|].
    rewrite <- Hp'. now constructor.
Qed.

Lemma createRandomChromosome_spec w :
  exists c w',
    createRandomChromosome rnd p w = Ok (length (store w), w') /\
    store w' = store w ++ [c] /\ IsPerm c.
Proof.
  unfold createRandomChromosome.
  destruct (shuffle_spec (tasks p) w) as (res & w1 & E & Hs & Hp).
  rewrite (bind_step _ E). unfold allocArray. rewrite Hs.
  eexists _, _. split; [reflexivity|]. split; [reflexivity|].
  rewrite groupAndFlatten_id. now apply Permutation_map.
Qed.

Lemma WF_store w w' : store w' = store w -> WF w -> WF w'.
Proof. unfold WF. now intros ->. Qed.

Lemma PopOK_store w w' pop : store w' = store w -> PopOK w pop -> PopOK w' pop.
Proof. unfold PopOK. now intros ->. Qed.

Lemma initializeLoop_spec n :
  forall pop w,
    WF w -> PopOK w pop ->
    exists res w',
      initializeLoop rnd p n pop w = Ok (res, w') /\ WF w' /\ PopOK w' res /\
      length res = (length pop + n)%nat.
Proof.
  induction n as [|n IH]; intros pop w Hw Hp; cbn [initializeLoop].
  - exists pop, w. repeat split; trivial; lia.
  - destruct (createRandomChromosome_spec w) as (c & w1 & E & Hs & Hc).
    rewrite (bind_step _ E).
    destruct (IH (pop ++ [freshIndividual (length (store w))]) w1) as (res & w' & E' & Hw' & Hp' & Hl).
    + unfold WF. rewrite Hs. apply Forall_app. split; trivial. now constructor.
    + apply Forall_app. split.
      * apply PopOK_grow with w; trivial. rewrite Hs, length_app. simpl. lia.
      * constructor; [|constructor]. simpl. rewrite Hs, length_app. simpl. lia.
    + exists res, w'. repeat split; trivial. rewrite Hl, length_app. simpl. lia.
Qed.

Lemma calculateFitness_perm c :
  IsPerm c -> exists P, c = map Some P /\ calculateFitness c = Ok (FIFO.calculateMetrics P).
Proof.
  intros H. destruct (IsPerm_tasks H) as (P & -> & _). exists P. split; trivial.
  unfold calculateFitness, FIFO.calculateMetrics, FIFO.replay. now rewrite fitnessLoop_tasks.
Qed.

Lemma evaluatePopulation_spec w pop :
  WF w -> PopOK w pop ->
  exists pop',
    evaluatePopulation p w (map Some pop) = Ok pop' /\
    map chromosome pop' = map chromosome pop /\
    Forall (fun ind => exists P,
                nth (chromosome ind) (store w) [] = map Some P /\
                makespan ind = FIFO.makespan (FIFO.calculateMetrics P) /\
                idleDistance ind = FIFO.idleDistance (FIFO.calculateMetrics P) /\
                fitness ind = (makeSpanWeight p * makespan ind
                               + idleDistanceWeight p * idleDistance ind)%float) pop'.
Proof.
  intros Hw. induction pop as [|ind pop IH]; intros Hp; cbn [evaluatePopulation map].
  - exists []. repeat split; trivial.
  - apply Forall_cons_iff in Hp as [Hr Hp].
    destruct (calculateFitness_perm (WF_nth Hw Hr)) as (P & EP & E).
    unfold evaluateIndividual. rewrite E. simpl.
    destruct (IH Hp) as (pop' & E' & Hm & Hall). rewrite E'. simpl.
    eexists. split; [reflexivity|]. split; [simpl; now f_equal|].
    constructor; trivial. exists P. simpl. auto.
Qed.

Lemma findBestIndividual_In pop :
  forall b, findBestIndividual pop = Some b -> In b pop.
Proof.
  unfold findBestIndividual.
  assert (G : forall l best b,
             fold_left (fun best current =>
                          match best with
                          | None => Some current
                          | Some b0 => if (fitness current <? fitness b0)%float
                                       then Some current else Some b0
                          end) l best = Some b ->
             best = Some b \/ In b l).
  { induction l as [|x l IH]; intros best b H; simpl in *; auto.
    apply IH in H as [H|H]; auto.
    destruct best as [b0|]; [destruct (fitness x <? fitness b0)%float|];
      inversion H; subst; auto. }
  intros b H. apply G in H as [H|H]; [discriminate|trivial].
Qed.

Lemma findBestIndividual_some pop :
  pop <> [] -> exists b, findBestIndividual pop = Some b.
Proof.
  unfold findBestIndividual.
  assert (G : forall l b0, exists b,
             fold_left (fun best current =>
                          match best with
                          | None => Some current
                          | Some b0 => if (fitness current <? fitness b0)%float
                                       then Some current else Some b0
                          end) l (Some b0) = Some b).
  { induction l as [|x l IH]; intros b0; simpl; eauto.
    destruct (fitness x <? fitness b0)%float; apply IH. }
  destruct pop as [|x l]; [congruence|]. intros _. simpl. apply G.
Qed.

Hypothesis tasks_nonempty : tasks p <> [].
Hypothesis tasks_distinct : NoDup (map id (tasks p)).

Lemma IsPerm_length c : IsPerm c -> Z.of_nat (length c) = Z.of_nat (length (tasks p)) /\ 0 < Z.of_nat (length c).
Proof.
  intros H. apply Permutation_length in H. rewrite length_map in H.
  destruct (tasks p); [congruence|]. simpl in *. lia.
Qed.

Lemma cut_points_spec n w :
  0 < n ->
  exists point1 d w',
    randomIndex rnd (n - 1) w = Ok (point1, w') /\
    randomIndex rnd (n - point1) w' =
      Ok (d, {| store := store w; draws := S (S (draws w)) |}) /\
    0 <= point1 /\ point1 <= point1 + d /\ point1 + d < n.
Proof.
  intros Hn.
  destruct (@randomIndex_spec (n - 1) w) as (point1 & E1 & H0 & H1 & H2); [lia|].
  assert (point1 < n) by (destruct (Z.eq_dec (n - 1) 0); [rewrite H2 by trivial|]; lia).
  destruct (@randomIndex_spec (n - point1) {| store := store w; draws := S (draws w) |})
    as (d & E2 & G0 & G1 & _); [lia|].
  exists point1, d, {| store := store w; draws := S (draws w) |}.
  split; [exact E1|]. split; [exact E2|]. lia.
Qed.

Lemma crossover_spec parent1 parent2 w :
  IsPerm (nth (chromosome parent1) (store w) []) ->
  IsPerm (nth (chromosome parent2) (store w) []) ->
  exists o1 o2 w',
    crossover rnd parent1 parent2 w =
      Ok ((freshIndividual (length (store w)), freshIndividual (S (length (store w)))), w') /\
    store w' = store w ++ [o1; o2] /\ IsPerm o1 /\ IsPerm o2.
Proof.
  intros H1 H2. unfold crossover.
  unfold readArray at 1. unfold bind at 1. unfold readArray at 1. unfold bind at 1.
  destruct (IsPerm_tasks H1) as (P1 & E1 & Q1). destruct (IsPerm_tasks H2) as (P2 & E2 & Q2).
  destruct (IsPerm_length H1) as [L1 L1'].
  destruct (@cut_points_spec (Z.of_nat (length (nth (chromosome parent1) (store w) []))) w L1')
    as (point1 & d & w1 & R1 & R2 & B0 & B1 & B2).
  rewrite (bind_step _ R1). rewrite (bind_step _ R2).
  rewrite E1, E2.
  destruct (@pmx_perm (tasks p) P1 P2 point1 (point1 + d)) as (o1 & o2 & E & O1 & O2); trivial; [lia|].
  rewrite E. unfold lift, bind, allocArray, ret. simpl.
  exists o1, o2. eexists. split; [|split; [|split]]; trivial.
  - rewrite length_app. simpl. repeat f_equal; lia.
  - simpl. now rewrite <- app_assoc.
Qed.

Lemma mutate_spec individual w :
  (chromosome individual < length (store w))%nat ->
  IsPerm (nth (chromosome individual) (store w) []) ->
  exists c w',
    mutate rnd p individual w = Ok (tt, w') /\ IsPerm c /\
    store w' = firstn (chromosome individual) (store w) ++ c
                 :: skipn (S (chromosome individual)) (store w).
Proof.
  intros Hr Hc. unfold mutate.
  rewrite (bind_step _ (random_step w)).
  destruct (Qltb (mutationRate p) (rnd (draws w))).
  - eexists _, _. split; [reflexivity|]. split; [exact Hc|]. simpl.
    symmetry. now apply replace_nth_same.
  - set (w1 := {| store := store w; draws := S (draws w) |}).
    rewrite (bind_step _ (readArray_step (chromosome individual) w1)).
    cbv zeta. cbn [store w1].
    set (c := nth (chromosome individual) (store w) []) in *.
    destruct (IsPerm_length Hc) as [L L'].
    rewrite (bind_step _ (random_step w1)).
    set (w2 := {| store := store w1; draws := S (draws w1) |}).
    destruct (Qltb (rnd (draws w1)) (1 # 2)).
    + (* swap *)
      destruct (@randomIndex_spec (Z.of_nat (length c)) w2) as (i1 & E1 & A0 & A1 & _); [lia|].
      rewrite (bind_step _ E1).
      destruct (@randomIndex_spec (Z.of_nat (length c)) {| store := store w2; draws := S (draws w2) |})
        as (i2 & E2 & B0 & B1 & _); [lia|].
      rewrite (bind_step _ E2). unfold writeArray. simpl.
      eexists _, _. split; [reflexivity|]. split; [|reflexivity].
      eapply Permutation_trans; [exact Hc|]. apply swapMutation_perm; lia.
    + (* inversion *)
      destruct (@cut_points_spec (Z.of_nat (length c)) w2 L')
        as (point1 & d & w3 & R1 & R2 & B0 & B1 & B2).
      rewrite (bind_step _ R1). rewrite (bind_step _ R2). unfold writeArray. simpl.
      eexists _, _. split; [reflexivity|]. split; [|reflexivity].
      eapply Permutation_trans; [exact Hc|]. apply inversionMutation_perm; lia.
Qed.

Lemma mutate_WF individual w :
  WF w -> (chromosome individual < length (store w))%nat ->
  exists w', mutate rnd p individual w = Ok (tt, w') /\ WF w' /\
             length (store w') = length (store w).
Proof.
  intros Hw Hr.
  destruct (@mutate_spec individual w Hr (WF_nth Hw Hr)) as (c & w' & E & Hc & Hs).
  exists w'. split; trivial. unfold WF. rewrite Hs. split.
  - now apply replace_nth_Forall.
  - now apply replace_nth_length.
Qed.

Lemma tournamentLoop_spec pop n :
  pop <> [] ->
  forall best w,
    (forall b, best = Some b -> In b pop) ->
    exists res w',
      tournamentLoop rnd n pop best w = Ok (res, w') /\ store w' = store w /\
      (forall b, res = Some b -> In b pop) /\
      ((0 < n)%nat \/ best <> None -> res <> None).
Proof.
  intros Hne. induction n as [|n IH]; intros best w Hb; cbn [tournamentLoop].
  - exists best, w. repeat split; trivial. intros [?|?]; [lia|trivial].
  - destruct (@randomIndex_spec (Z.of_nat (length pop)) w) as (i & E & H0 & H1 & _); [lia|].
    rewrite (bind_step _ E).
    assert (Hlen : (0 < length pop)%nat) by (destruct pop; [congruence|simpl; lia]).
    destruct (nth_error pop (Z.to_nat i)) as [individual|] eqn:En;
      [|apply nth_error_None in En; lia].
    apply nth_error_In in En.
    destruct best as [b0|].
    + match goal with |- context [tournamentLoop rnd n pop ?b ?w1] =>
        destruct (IH b w1) as (res & w' & E' & Hs & Hin & Hsome) end.
      { intros b. destruct (fitness individual <? fitness b0)%float;
          intros Eb; inversion Eb; subst; auto. }
      exists res, w'. repeat split; trivial. intros _. apply Hsome. right.
      destruct (fitness individual <? fitness b0)%float; discriminate.
    + match goal with |- context [tournamentLoop rnd n pop ?b ?w1] =>
        destruct (IH b w1) as (res & w' & E' & Hs & Hin & Hsome) end.
      { intros b Eb. inversion Eb; subst; auto. }
      exists res, w'. repeat split; trivial. intros _. apply Hsome. right. discriminate.
Qed.

Lemma tournamentSelection_spec pop w :
  pop <> [] ->
  exists individual w',
    tournamentSelection rnd pop w = Ok (Some individual, w') /\ store w' = store w /\
    In individual pop.
Proof.
  intros Hne. unfold tournamentSelection.
  destruct (@tournamentLoop_spec pop 3 Hne None w) as (res & w' & E & Hs & Hin & Hsome);
    [discriminate|].
  rewrite E. destruct res as [b|]; [|exfalso; apply Hsome; auto; left; lia].
  exists b, w'. repeat split; auto.
Qed.

Lemma IsPerm_valid w r : IsPerm (nth r (store w) []) -> (r < length (store w))%nat.
Proof.
  intros H. destruct (Nat.lt_ge_cases r (length (store w))) as [|Hge]; trivial.
  rewrite nth_overflow in H by trivial.
  apply Permutation_sym, Permutation_nil in H.
  destruct (tasks p); [congruence|discriminate].
Qed.

Lemma createRandomChromosome_perm :
  forall w, exists r w',
    createRandomChromosome rnd p w = Ok (r, w') /\
    Permutation (map Some (tasks p)) (nth r (store w') []) /\
    length (nth r (store w') []) = length (tasks p).
Proof.
  intros w. destruct (createRandomChromosome_spec w) as (c & w' & E & Hs & Hc).
  exists (length (store w)), w'. split; trivial.
  rewrite Hs, app_nth2, Nat.sub_diag by lia. simpl. split; trivial.
  apply Permutation_length in Hc. now rewrite length_map in Hc.
Qed.

Lemma crossover_mutate_perm :
  (forall parent1 parent2 w,
      Permutation (map Some (tasks p)) (nth (chromosome parent1) (store w) []) ->
      Permutation (map Some (tasks p)) (nth (chromosome parent2) (store w) []) ->
      exists offspring1 offspring2 w',
        crossover rnd parent1 parent2 w = Ok ((offspring1, offspring2), w') /\
        Permutation (map Some (tasks p)) (nth (chromosome offspring1) (store w') []) /\
        Permutation (map Some (tasks p)) (nth (chromosome offspring2) (store w') [])) /\
  (forall individual w,
      Permutation (map Some (tasks p)) (nth (chromosome individual) (store w) []) ->
      exists w',
        mutate rnd p individual w = Ok (tt, w') /\
        Permutation (map Some (tasks p)) (nth (chromosome individual) (store w') [])).
Proof.
  split.
  - intros parent1 parent2 w H1 H2.
    destruct (crossover_spec parent1 parent2 w H1 H2) as (o1 & o2 & w' & E & Hs & Q1 & Q2).
    eexists _, _, w'. split; [exact E|]. simpl. rewrite Hs.
    split.
    + rewrite app_nth2, Nat.sub_diag by lia. exact Q1.
    + rewrite app_nth2 by lia. replace (S (length (store w)) - length (store w))%nat with 1%nat by lia.
      exact Q2.
  - intros individual w H.
    destruct (@mutate_spec individual w (IsPerm_valid _ _ H) H) as (c & w' & E & Hc & Hs).
    exists w'. split; trivial. rewrite Hs.
    rewrite replace_nth_nth; [exact Hc|]. now apply IsPerm_valid.
Qed.

Lemma fillLoop_spec bound :
  forall room pop newPopulation w,
    (room <= bound)%nat -> pop <> [] ->
    WF w -> PopOK w pop -> PopOK w newPopulation ->
    exists res w',
      fillLoop rnd p room pop (map Some newPopulation) w = Ok (map Some res, w') /\
      WF w' /\ PopOK w' res /\
      length res = (length newPopulation + room)%nat.
Proof.
  induction bound as [|bound IH]; intros room pop newPopulation w Hb Hne Hw Hp Hn.
  - assert (room = O) by lia. subst. exists newPopulation, w. simpl.
    repeat split; trivial; lia.
  - destruct room as [|room].
    { exists newPopulation, w. simpl. repeat split; trivial; lia. }
    cbn [fillLoop].
    destruct (@tournamentSelection_spec pop w Hne) as (parent1 & w1 & E1 & S1 & I1).
    rewrite (bind_step _ E1).
    destruct (@tournamentSelection_spec pop w1 Hne) as (parent2 & w2 & E2 & S2 & I2).
    rewrite (bind_step _ E2).
    rewrite (bind_step _ (random_step w2)).
    set (w3 := {| store := store w2; draws := S (draws w2) |}).
    assert (S3 : store w3 = store w) by (simpl; congruence).
    assert (W3 : WF w3) by (eapply WF_store; eauto).
    unfold PopOK in Hp. rewrite Forall_forall in Hp.
    assert (V1 : (chromosome parent1 < length (store w3))%nat) by (rewrite S3; auto).
    assert (V2 : (chromosome parent2 < length (store w3))%nat) by (rewrite S3; auto).
    assert (Hoff : exists o1 o2 w4,
               (if Qltb (rnd (draws w2)) (crossoverRate p)
                then crossoverParents rnd (Some parent1) (Some parent2)
                else ret (Some parent1, Some parent2)) w3
               = Ok ((Some o1, Some o2), w4) /\ WF w4 /\
               (length (store w) <= length (store w4))%nat /\
               (chromosome o1 < length (store w4))%nat /\
               (chromosome o2 < length (store w4))%nat).
    { destruct (Qltb (rnd (draws w2)) (crossoverRate p)).
      - destruct (crossover_spec parent1 parent2 w3 (WF_nth W3 V1) (WF_nth W3 V2))
          as (o1 & o2 & w4 & E & Hs & Q1 & Q2).
        eexists _, _, w4. split; [cbn [crossoverParents]; rewrite (bind_step _ E); reflexivity|].
        unfold WF. rewrite Hs, length_app, S3.
        simpl. repeat split; try lia.
        apply Forall_app. split; [now rewrite <- S3|]. repeat constructor; trivial.
      - exists parent1, parent2, w3. rewrite S3 in *. repeat split; trivial; lia. }
    destruct Hoff as (o1 & o2 & w4 & E4 & W4 & L4 & V41 & V42).
    rewrite (bind_step _ E4). cbv beta iota. cbn [mutateOffspring].
    destruct (@mutate_WF o1 w4 W4 V41) as (w5 & E5 & W5 & L5).
    rewrite (bind_step _ E5).
    destruct (@mutate_WF o2 w5 W5) as (w6 & E6 & W6 & L6); [lia|].
    rewrite (bind_step _ E6).
    assert (G : forall l, PopOK w l -> PopOK w6 l)
      by (intros l; apply PopOK_grow; lia).
    destruct room as [|room].
    + exists (newPopulation ++ [o1]), w6. split; [rewrite map_app; reflexivity|].
      split; trivial. split.
      * apply Forall_app. split; [now apply G|]. repeat constructor. lia.
      * rewrite length_app. simpl. lia.
    + destruct (IH room pop (newPopulation ++ [o1; o2]) w6) as (res & w' & E & W & Q & L);
        trivial; try lia.
      * apply G. now apply Forall_forall.
      * apply Forall_app. split; [now apply G|]. repeat constructor; lia.
      * exists res, w'. rewrite map_app in E. repeat split; trivial.
        rewrite L, length_app. simpl. lia.
Qed.

Hypothesis population_positive : 1 <= populationSize p.

Lemma eliteCount_bounds : 1 <= eliteCount p <= populationSize p.
Proof.
  unfold eliteCount.
  assert (populationSize p / 10 <= populationSize p)
    by (apply Z.div_le_upper_bound; lia).
  lia.
Qed.

Lemma createNewGeneration_spec pop w :
  WF w -> PopOK w pop -> Z.of_nat (length pop) = populationSize p ->
  exists res w',
    createNewGeneration rnd p pop w = Ok (map Some res, w') /\ WF w' /\ PopOK w' res /\
    Z.of_nat (length res) = populationSize p.
Proof.
  intros Hw Hp Hl. unfold createNewGeneration.
  pose proof eliteCount_bounds as Hb.
  pose proof (sortByFitness_perm pop) as Hs.
  assert (Hls : length (sortByFitness pop) = length pop)
    by (symmetry; now apply Permutation_length).
  rewrite map_nth_error_seq by lia.
  destruct (@fillLoop_spec (Z.to_nat (populationSize p - eliteCount p))
              (Z.to_nat (populationSize p - eliteCount p)) pop
              (firstn (Z.to_nat (eliteCount p)) (sortByFitness pop)) w)
    as (res & w' & E & W & Q & L); trivial.
  - destruct pop; [simpl in Hl; lia|discriminate].
  - unfold PopOK in *. rewrite Forall_forall in *. intros ind Hin. apply Hp.
    apply (Permutation_in _ (Permutation_sym Hs)).
    rewrite <- (firstn_skipn (Z.to_nat (eliteCount p)) (sortByFitness pop)).
    apply in_or_app. now left.
  - exists res, w'. repeat split; trivial.
    rewrite L, length_firstn. lia.
Qed.

(** What [run] maintains from one generation to the next. *)
Definition RunInv (g : Z) (st : RunState) : Prop :=
  WF (world st) /\ PopOK (world st) (population st) /\
  Z.of_nat (length (population st)) = populationSize p /\
  Z.of_nat (countGenerationCalls (trace st)) <= g + 1 /\
  countCompleteCalls (trace st) = 0%nat.

Lemma generationStep_ok g st :
  RunInv g st ->
  exists st' stop, generationStep rnd p g st = inl (st', stop) /\ RunInv (g + 1) st'.
Proof.
  intros (Hw & Hp & Hl & Hc & Hd). unfold generationStep.
  destruct (createNewGeneration_spec Hw Hp Hl) as (newPop & w & E & W & Q & L).
  rewrite E.
  destruct (evaluatePopulation_spec W Q) as (pop & E' & Hm & _). rewrite E'.
  assert (Hlen : length pop = length newPop)
    by (rewrite <- (length_map chromosome pop), Hm; apply length_map).
  destruct (@findBestIndividual_some pop) as (b & Eb).
  { destruct pop; [simpl in Hlen; lia|discriminate]. }
  rewrite Eb. eexists _, _. split; [reflexivity|].
  unfold RunInv; simpl. split; [exact W|]. split; [|split; [lia|]].
  - unfold PopOK in *. rewrite Forall_forall in *. intros ind Hin.
    apply (in_map chromosome) in Hin. rewrite Hm in Hin.
    apply in_map_iff in Hin as (ind' & <- & Hin'). auto.
  - unfold emit. destruct (hasOnGenerationComplete p); [|split; [lia|trivial]].
    rewrite countGenerationCalls_app, countCompleteCalls_app.
    change (countGenerationCalls [GenerationComplete (g + 1)
              (if (fitness b <? fitness (bestSolution st))%float then b else bestSolution st)
              (calculatePopulationStatistics pop)]) with 1%nat.
    change (countCompleteCalls [GenerationComplete (g + 1)
              (if (fitness b <? fitness (bestSolution st))%float then b else bestSolution st)
              (calculatePopulationStatistics pop)]) with 0%nat.
    split; lia.
Qed.

Lemma RunInv_weaken g g' st : g <= g' -> RunInv g st -> RunInv g' st.
Proof. intros Hg (H1 & H2 & H3 & H4 & H5). repeat split; trivial. lia. Qed.

Lemma chunkLoop_ok n :
  forall g st, RunInv g st ->
    exists st', chunkLoop rnd p n g st = inl st' /\ RunInv (g + Z.of_nat n) st'.
Proof.
  induction n as [|n IH]; intros g st Hinv; cbn [chunkLoop].
  - exists st. split; trivial. apply RunInv_weaken with g; [lia|trivial].
  - destruct (generationStep_ok Hinv) as (st1 & stop & E & Hinv1). rewrite E.
    destruct stop.
    + exists st1. split; trivial. apply RunInv_weaken with (g + 1); [lia|trivial].
    + destruct (IH (g + 1) st1 Hinv1) as (st' & E' & Hinv').
      exists st'. split; trivial. apply RunInv_weaken with (g + 1 + Z.of_nat n); [lia|trivial].
Qed.

Lemma mainLoop_ok fuel :
  forall generation st,
    0 <= generation <= maxGenerations p ->
    maxGenerations p - generation <= Z.of_nat fuel ->
    RunInv generation st ->
    exists tr,
      mainLoop rnd p fuel generation st = (emit Complete (hasOnComplete p) tr, Completed) /\
      Z.of_nat (countGenerationCalls tr) <= maxGenerations p + 1 /\
      countCompleteCalls tr = 0%nat.
Proof.
  induction fuel as [|fuel IH]; intros generation st Hg Hf Hinv;
    cbn [mainLoop]; destruct (Z.ltb_spec generation (maxGenerations p)); try lia.
  - exists (trace st). destruct Hinv as (_ & _ & _ & Hc & Hd). repeat split; trivial. lia.
  - pose proof (processingChunkSize_pos p) as Hpos.
    set (endChunk := Z.min (generation + processingChunkSize p) (maxGenerations p)).
    destruct (@chunkLoop_ok (Z.to_nat (endChunk - generation)) generation st Hinv)
      as (st' & E & Hinv').
    rewrite E.
    replace (generation + Z.of_nat (Z.to_nat (endChunk - generation))) with endChunk in Hinv'
      by (unfold endChunk; lia).
    apply IH; [unfold endChunk; lia|unfold endChunk; lia|].
    destruct Hinv' as (H1 & H2 & H3 & H4 & H5). unfold RunInv; simpl.
    rewrite countGenerationCalls_app, countCompleteCalls_app.
    change (countGenerationCalls [Yield]) with 0%nat.
    change (countCompleteCalls [Yield]) with 0%nat.
    repeat split; trivial; lia.
  - exists (trace st). destruct Hinv as (_ & _ & _ & Hc & Hd). repeat split; trivial. lia.
Qed.

Hypothesis generations_nonnegative : 0 <= maxGenerations p.
Hypothesis onComplete_given : hasOnComplete p = true.

Lemma run_completes :
  exists tr,
    run rnd p = (tr ++ [Complete], Completed) /\
    countCompleteCalls tr = 0%nat /\
    countCompleteCalls (tr ++ [Complete]) = 1%nat /\
    Z.of_nat (countGenerationCalls (tr ++ [Complete])) <= maxGenerations p + 1.
Proof.
  unfold run.
  destruct (@initializeLoop_spec (Z.to_nat (populationSize p)) [] emptyWorld)
    as (pop0 & w & E & W & Q & L); [constructor|constructor|].
  unfold initializePopulation. rewrite E.
  destruct (evaluatePopulation_spec W Q) as (pop & E' & Hm & _). rewrite E'.
  assert (Hlen : length pop = length pop0)
    by (rewrite <- (length_map chromosome pop), Hm; apply length_map).
  simpl in L.
  destruct (@findBestIndividual_some pop) as (b & Eb).
  { destruct pop; [simpl in Hlen; lia|discriminate]. }
  rewrite Eb.
  match goal with |- context [mainLoop rnd p ?f 0 ?st] =>
    destruct (@mainLoop_ok f 0 st) as (tr & Em & Hc & Hd) end.
  - lia.
  - lia.
  - unfold RunInv; simpl. split; [exact W|]. split; [|split; [lia|]].
    + unfold PopOK in *. rewrite Forall_forall in *. intros ind Hin.
      apply (in_map chromosome) in Hin. rewrite Hm in Hin.
      apply in_map_iff in Hin as (ind' & <- & Hin'). auto.
    + unfold emit. destruct (hasOnGenerationComplete p); simpl; split; trivial; lia.
  - rewrite Em. unfold emit. rewrite onComplete_given.
    exists tr. split; trivial. split; trivial.
    rewrite countGenerationCalls_app, countCompleteCalls_app, Hd.
    change (countGenerationCalls [Complete]) with 0%nat.
    change (countCompleteCalls [Complete]) with 1%nat.
    split; [reflexivity|lia].
Qed.

End Runs.

(** *** The claims about the genetic operators and about termination *)

(** C1 (as the code has it). For every input task list with pairwise distinct
    ids and every sequence of random numbers in [0,1): building a random
    chromosome always succeeds and stores an array that holds every input task
    exactly once; and, when the task list is not empty, PMX crossover of two
    parents whose arrays hold every input task exactly once always returns
    two offspring whose arrays hold every input task exactly once, and
    mutation (whether it does nothing, swaps or inverts) of an individual
    whose array holds every input task exactly once always returns and leaves
    such an array in its place. On arrays, a swap of two positions inside the
    array and the inversion of a range inside the array are rearrangements. *)
Theorem chromosomes_stay_permutations :
  forall (rnd : nat -> Q) (p : Params),
    (forall k, (0 <= rnd k)%Q /\ (rnd k < 1)%Q) ->
    NoDup (map id (tasks p)) ->
    (forall w, exists r w',
        createRandomChromosome rnd p w = Ok (r, w') /\
        Permutation (map Some (tasks p)) (nth r (store w') []) /\
        length (nth r (store w') []) = length (tasks p)) /\
    (tasks p <> [] ->
     (forall parent1 parent2 w,
         Permutation (map Some (tasks p)) (nth (chromosome parent1) (store w) []) ->
         Permutation (map Some (tasks p)) (nth (chromosome parent2) (store w) []) ->
         exists offspring1 offspring2 w',
           crossover rnd parent1 parent2 w = Ok ((offspring1, offspring2), w') /\
           Permutation (map Some (tasks p)) (nth (chromosome offspring1) (store w') []) /\
           Permutation (map Some (tasks p)) (nth (chromosome offspring2) (store w') [])) /\
     (forall individual w,
         Permutation (map Some (tasks p)) (nth (chromosome individual) (store w) []) ->
         exists w',
           mutate rnd p individual w = Ok (tt, w') /\
           Permutation (map Some (tasks p)) (nth (chromosome individual) (store w') []))) /\
    (forall c index1 index2,
        0 <= index1 < Z.of_nat (length c) -> 0 <= index2 < Z.of_nat (length c) ->
        Permutation c (swapMutation c index1 index2)) /\
    (forall c point1 point2,
        0 <= point1 -> point1 <= point2 -> point2 < Z.of_nat (length c) ->
        Permutation c (inversionMutation c point1 point2)).
Proof.
  intros rnd p Hrnd Hd. split; [|split; [|split]].
  - apply createRandomChromosome_perm.
  - intros Hne. now apply crossover_mutate_perm.
  - apply swapMutation_perm.
  - apply inversionMutation_perm.
Qed.

(** C7 (as the code has it). For every configuration with
    [maxGenerations >= 0] and every task list, [onGenerationComplete] is
    called at most [maxGenerations + 1] times (generation 0 included; early
    stopping only skips generations) and [onComplete] at most once: as the
    last thing a run that returns normally does, and not at all in a run that
    throws or never returns. For a population size of at least 1, a non-empty
    task list with pairwise distinct ids and random numbers in [0,1), [run]
    does return normally, so [onComplete] is called exactly once, after the
    last [onGenerationComplete] call. *)
Theorem run_callbacks_bounded :
  forall (rnd : nat -> Q) (p : Params),
    0 <= maxGenerations p ->
    (Z.of_nat (countGenerationCalls (fst (run rnd p))) <= maxGenerations p + 1 /\
     (snd (run rnd p) = Completed ->
      exists tr, fst (run rnd p) = emit Complete (hasOnComplete p) tr /\
                 countCompleteCalls tr = 0%nat) /\
     (snd (run rnd p) <> Completed -> countCompleteCalls (fst (run rnd p)) = 0%nat) /\
     snd (run rnd p) <> OutOfFuel) /\
    ((forall k, (0 <= rnd k)%Q /\ (rnd k < 1)%Q) ->
     tasks p <> [] -> NoDup (map id (tasks p)) -> 1 <= populationSize p ->
     hasOnComplete p = true ->
     exists tr,
       run rnd p = (tr ++ [Complete], Completed) /\
       countCompleteCalls tr = 0%nat /\
       countCompleteCalls (tr ++ [Complete]) = 1%nat /\
       Z.of_nat (countGenerationCalls (tr ++ [Complete])) <= maxGenerations p + 1).
Proof.
  intros rnd p Hmax. split.
  - destruct (run_count rnd p Hmax) as (H1 & H2 & H3).
    repeat split; trivial. apply run_fuel.
  - intros. now apply run_completes.
Qed.

(** *** Runs without validation *)

(** C6 (as the code has it). [run] validates nothing. With a non-positive
    population size the initial population is empty and [run] throws (a
    TypeError, on reading the fitness of the [null] best individual) before
    any callback is called. With an empty task list and a population size of
    at least 1, no error is raised at the start: the population is built and
    evaluated, its best individual has makespan 0, idle distance 0 and fitness
    [makeSpanWeight * 0 + idleDistanceWeight * 0], generation 0 is reported
    with it, and when [maxGenerations <= 0] the run completes normally right
    after. *)
Theorem run_performs_no_validation :
  forall (rnd : nat -> Q) (p : Params),
    (populationSize p <= 0 -> run rnd p = ([], Threw)) /\
    (tasks p = [] -> 1 <= populationSize p ->
     exists best stats rest outcome,
       run rnd p = (emit (GenerationComplete 0 best stats) (hasOnGenerationComplete p) []
                      ++ rest, outcome) /\
       makespan best = 0%float /\ idleDistance best = 0%float /\
       fitness best = (makeSpanWeight p * 0 + idleDistanceWeight p * 0)%float /\
       (maxGenerations p <= 0 ->
        rest = emit Complete (hasOnComplete p) [] /\ outcome = Completed)).
Proof.
  intros rnd p. split.
  - intros Hn. unfold run, initializePopulation.
    replace (Z.to_nat (populationSize p)) with O by lia. reflexivity.
  - intros Ht Hp. unfold run.
    destruct (@initializeLoop_spec rnd p (Z.to_nat (populationSize p)) [] emptyWorld)
      as (pop0 & w & E & W & Q & L); [constructor|constructor|].
    unfold initializePopulation. rewrite E.
    destruct (evaluatePopulation_spec W Q) as (pop & E' & Hm & Hall). rewrite E'.
    assert (Hlen : length pop = length pop0)
      by (rewrite <- (length_map chromosome pop), Hm; apply length_map).
    simpl in L.
    destruct (@findBestIndividual_some pop) as (b & Eb).
    { destruct pop; [simpl in Hlen; lia|discriminate]. }
    rewrite Eb.
    rewrite Forall_forall in Hall.
    destruct (Hall b (findBestIndividual_In _ Eb)) as (P & EP & Hmk & Hid & Hfit).
    assert (P = []).
    { assert (Hin : In (chromosome b) (map chromosome pop0))
        by (rewrite <- Hm; apply in_map, findBestIndividual_In, Eb).
      apply in_map_iff in Hin as (ind & Eind & Hin).
      unfold PopOK in Q. rewrite Forall_forall in Q. specialize (Q ind Hin).
      rewrite Eind in Q. pose proof (WF_nth W Q) as HP.
      unfold IsPerm in HP. rewrite Ht, EP in HP. simpl in HP.
      apply Permutation_nil in HP. now destruct P. }
    subst P. change (FIFO.makespan (FIFO.calculateMetrics [])) with 0%float in Hmk.
    change (FIFO.idleDistance (FIFO.calculateMetrics [])) with 0%float in Hid.
    rewrite Hmk, Hid in Hfit.
    match goal with |- context [mainLoop rnd p ?f 0 ?st] =>
      destruct (mainLoop_trace rnd p f 0 st) as (rest & Hrest);
      destruct (mainLoop rnd p f 0 st) as [tr outcome] eqn:Em end.
    simpl in Hrest. subst tr.
    exists b, (calculatePopulationStatistics pop), rest, outcome.
    split; [reflexivity|]. do 3 (split; [trivial|]).
    intros Hg. replace (Z.to_nat (maxGenerations p)) with O in Em by lia.
    cbn [mainLoop] in Em. destruct (Z.ltb_spec 0 (maxGenerations p)); [lia|].
    simpl in Em. rewrite emit_app in Em. inversion Em as [[E1 E2]].
    split; [|reflexivity]. now apply app_inv_head in E1.
Qed.

(** *** Sample runs *)

Definition sampleTasks : list Task :=
  [ {| id := 1; type := DELIVERY; position := {| x := 5; y := 5 |}; processingTime := 5 |};
    {| id := 2; type := PICKUP; position := {| x := 6; y := 5 |}; processingTime := 3 |};
    {| id := 3; type := DELIVERY; position := {| x := 7; y := 5 |}; processingTime := 4 |};
    {| id := 4; type := PICKUP_DELIVERY; position := {| x := 9; y := 3 |}; processingTime := 4 |} ].

Definition sampleRandom (k : nat) : Q := Z.of_nat ((k * 11 + 3) mod 16) # 16.

Definition sampleParams (ts : list Task) (size generations : Z) : Params :=
  {| tasks := ts;
     populationSize := size;
     maxGenerations := generations;
     crossoverRate := 5 # 10;
     mutationRate := 9 # 10;
     makeSpanWeight := 0.5;
     idleDistanceWeight := 0.5;
     hasOnGenerationComplete := true;
     hasOnComplete := true |}.

Lemma sampleRandom_range : forall k, (0 <= sampleRandom k)%Q /\ (sampleRandom k < 1)%Q.
Proof.
  intros k. unfold sampleRandom, Qle, Qlt. cbn [Qnum Qden].
  pose proof (Nat.mod_upper_bound (k * 11 + 3) 16). lia.
Defined.

Lemma sampleTasks_distinct : NoDup (map id sampleTasks).
Proof.
  simpl. repeat constructor; simpl; intuition discriminate.
Defined.

(** Fifteen individuals on two arrays; the individual of fitness [f] is the
    [f]-th best. *)
Definition twoTasks : list Task := firstn 2 sampleTasks.

Definition fifteenWorld : World :=
  {| store := [map Some twoTasks; map Some (rev twoTasks)]; draws := 0 |}.

Definition ranked (r : nat) (f : float) : Individual :=
  {| chromosome := r; fitness := f; makespan := f; idleDistance := 0 |}.

Definition fifteen : list Individual :=
  [ ranked 0 3; ranked 0 1; ranked 0 2; ranked 0 4; ranked 0 5; ranked 0 6; ranked 0 7;
    ranked 0 8; ranked 0 9; ranked 0 10; ranked 0 11; ranked 0 12; ranked 0 13;
    ranked 0 14; ranked 1 15 ].

Definition fifteenParams : Params :=
  {| tasks := twoTasks;
     populationSize := 15;
     maxGenerations := 10;
     crossoverRate := 0;
     mutationRate := 0;
     makeSpanWeight := 1;
     idleDistanceWeight := 0;
     hasOnGenerationComplete := true;
     hasOnComplete := true |}.

(** Every tournament draws the last individual. *)
Definition highRandom (k : nat) : Q := 14 # 15.

Definition fifteenNext : list Individual * World :=
  (ranked 0 1 :: repeat (ranked 1 15) 14, {| store := store fifteenWorld; draws := 63 |}).

(** *** Witnesses and counterexamples *)

Lemma chromosomes_stay_permutations_witness :
  (exists r w',
      createRandomChromosome sampleRandom (sampleParams sampleTasks 4 4) emptyWorld = Ok (r, w') /\
      Permutation (map Some sampleTasks) (nth r (store w') []) /\
      length (nth r (store w') []) = 4%nat) /\
  (exists w',
      mutate sampleRandom (sampleParams sampleTasks 4 4) (freshIndividual 0)
             {| store := [map Some sampleTasks]; draws := 0 |} = Ok (tt, w') /\
      Permutation (map Some sampleTasks) (nth 0 (store w') [])).
Proof.
  destruct (@chromosomes_stay_permutations sampleRandom (sampleParams sampleTasks 4 4))
    as (H1 & H2 & _).
  - exact sampleRandom_range.
  - exact sampleTasks_distinct.
  - split; [exact (H1 emptyWorld)|].
    destruct H2 as [_ H2]; [discriminate|].
    apply (H2 (freshIndividual 0) {| store := [map Some sampleTasks]; draws := 0 |}).
    apply Permutation_refl.
Defined.

(** With an empty task list, a swap turns the empty chromosome into an array
    of length 1 that holds [undefined]. *)
Lemma swap_extends_empty_chromosome :
  let p := sampleParams [] 1 1 in
  let rnd := fun _ : nat => 1 # 4 in
  let w := {| store := [[]]; draws := 0 |} in
  NoDup (map id (tasks p)) /\
  Permutation (map Some (tasks p)) (nth 0 (store w) []) /\
  exists w',
    mutate rnd p (freshIndividual 0) w = Ok (tt, w') /\
    nth 0 (store w') [] = [None] /\
    length (nth 0 (store w') []) <> length (tasks p) /\
    ~ Permutation (map Some (tasks p)) (nth 0 (store w') []).
Proof.
  cbv zeta. split; [constructor|]. split; [constructor|].
  eexists. split; [vm_compute; reflexivity|]. simpl.
  split; [reflexivity|]. split; [discriminate|].
  intros H. apply Permutation_length in H. discriminate.
Qed.

Lemma run_best_fitness_never_regresses_witness :
  noWorse 16.338309543664732 17.281484302351068 /\
  (is_nan 17.281484302351068 = false ->
   (16.338309543664732 <=? 17.281484302351068)%float = true).
Proof.
  destruct (@run_best_fitness_never_regresses sampleRandom (sampleParams sampleTasks 4 4))
    as (_ & _ & H).
  apply (H 0).
  - vm_compute. left. reflexivity.
  - vm_compute. right. left. reflexivity.
Defined.

Lemma createNewGeneration_keeps_elite_witness :
  let k := Z.to_nat (eliteCount fifteenParams) in
  eliteCount fifteenParams = Z.max 1 (Qfloor ((1 # 10) * inject_Z (populationSize fifteenParams))) /\
  firstn k (map Some (fst fifteenNext)) = map (nth_error (sortByFitness fifteen)) (seq 0 k) /\
  ((k <= length fifteen)%nat ->
   firstn k (map Some (fst fifteenNext)) = map Some (firstn k (sortByFitness fifteen))) /\
  Permutation fifteen (sortByFitness fifteen) /\
  AdjacentInOrder (sortByFitness fifteen) /\
  Z.of_nat (length (map Some (fst fifteenNext)))
  = Z.max (populationSize fifteenParams) (eliteCount fifteenParams).
Proof.
  apply (@createNewGeneration_keeps_elite highRandom fifteenParams fifteen fifteenWorld
           (map Some (fst fifteenNext)) (snd fifteenNext)).
  vm_compute. reflexivity.
Defined.

(** A population of 15: one individual is carried over, not two, and the
    second place of the new population goes to the worst individual. *)
Lemma elite_is_floor_of_a_tenth :
  Z.max 1 (Qceiling ((1 # 10) * inject_Z (populationSize fifteenParams))) = 2 /\
  eliteCount fifteenParams = 1 /\
  createNewGeneration highRandom fifteenParams fifteen fifteenWorld
    = Ok (map Some (fst fifteenNext), snd fifteenNext) /\
  nth_error (sortByFitness fifteen) 1 = Some (ranked 0 2) /\
  nth_error (fst fifteenNext) 1 = Some (ranked 1 15) /\
  chromosome (ranked 1 15) <> chromosome (ranked 0 2) /\
  firstn 2 (fst fifteenNext) <> firstn 2 (sortByFitness fifteen).
Proof.
  split; [reflexivity|]. split; [reflexivity|].
  split; [vm_compute; reflexivity|].
  split; [vm_compute; reflexivity|].
  split; [reflexivity|]. split; [discriminate|].
  intros H. apply (f_equal (map chromosome)) in H. vm_compute in H. discriminate.
Qed.

(** A population shorter than the elite count is not rejected either: with a
    population size of 20 the elite count is 2, and on a population of one
    individual the second place of the new population is an empty object;
    the step returns normally. *)
Lemma short_population_is_padded :
  let p := {| tasks := twoTasks; populationSize := 20; maxGenerations := 1;
              crossoverRate := 0; mutationRate := 0;
              makeSpanWeight := 1; idleDistanceWeight := 0;
              hasOnGenerationComplete := true; hasOnComplete := true |} in
  exists newPopulation w',
    createNewGeneration highRandom p [ranked 0 1] fifteenWorld = Ok (newPopulation, w') /\
    firstn 2 newPopulation = [Some (ranked 0 1); None] /\
    length newPopulation = 20%nat /\
    evaluatePopulation p w' newPopulation = TypeError.
Proof.
  cbv zeta. eexists _, _. split; [vm_compute; reflexivity|].
  repeat split; reflexivity.
Qed.

(** C5 (the code at a failing input). Two tasks and a population of two: A,
    of fitness 1, on the array [t1; t2], and B, of fitness 2, on [t2; t1];
    population size 2 (one individual is carried over, by the floor as by
    the ceiling of a tenth), crossover rate 0, mutation rate 1; every call of
    [Math.random()] returns 0.1, but for the eleventh, which returns 0.6. The
    step carries A over. Both tournaments select A; without crossover the
    two offspring are spread copies of A, which point to the array of A; the
    mutation of the first offspring swaps positions 0 and 1 of that array, in
    place. The step returns the population [A; A], and the array that the
    individual carried over points to now holds [t2; t1]: the best individual
    was not copied unchanged. *)
Theorem elite_array_is_shared :
  let p := {| tasks := twoTasks; populationSize := 2; maxGenerations := 1;
              crossoverRate := 0; mutationRate := 1;
              makeSpanWeight := 1; idleDistanceWeight := 0;
              hasOnGenerationComplete := true; hasOnComplete := true |} in
  let rnd := fun k : nat => if (k =? 10)%nat then 6 # 10 else 1 # 10 in
  let A := ranked 0 1 in
  let B := ranked 1 2 in
  eliteCount p = 1 /\
  Z.max 1 (Qceiling ((1 # 10) * inject_Z (populationSize p))) = 1 /\
  sortByFitness [A; B] = [A; B] /\
  exists newPopulation w',
    createNewGeneration rnd p [A; B] fifteenWorld = Ok (newPopulation, w') /\
    newPopulation = [Some A; Some A] /\
    nth (chromosome A) (store fifteenWorld) [] = map Some twoTasks /\
    nth (chromosome A) (store w') [] = map Some (rev twoTasks) /\
    nth (chromosome A) (store w') [] <> nth (chromosome A) (store fifteenWorld) [].
Proof.
  cbv zeta. split; [reflexivity|]. split; [reflexivity|]. split; [vm_compute; reflexivity|].
  eexists _, _. split; [vm_compute; reflexivity|].
  repeat split; try reflexivity. discriminate.
Qed.

(** An empty task list is not rejected: the run goes through three
    generations and completes. *)
Lemma empty_task_list_runs :
  let p := {| tasks := []; populationSize := 2; maxGenerations := 2;
              crossoverRate := 8 # 10; mutationRate := 0;
              makeSpanWeight := 0.5; idleDistanceWeight := 0.5;
              hasOnGenerationComplete := true; hasOnComplete := true |} in
  let rnd := fun _ : nat => 1 # 4 in
  snd (run rnd p) = Completed /\
  map fst (reports (fst (run rnd p))) = [0; 1; 2] /\
  countCompleteCalls (fst (run rnd p)) = 1%nat.
Proof. vm_compute. repeat split; reflexivity. Qed.

Lemma run_callbacks_bounded_witness :
  exists tr,
    run sampleRandom (sampleParams sampleTasks 4 4) = (tr ++ [Complete], Completed) /\
    countCompleteCalls tr = 0%nat /\
    countCompleteCalls (tr ++ [Complete]) = 1%nat /\
    Z.of_nat (countGenerationCalls (tr ++ [Complete])) <= 4 + 1.
Proof.
  destruct (@run_callbacks_bounded sampleRandom (sampleParams sampleTasks 4 4)) as [_ H].
  - simpl; lia.
  - apply H.
    + exact sampleRandom_range.
    + discriminate.
    + exact sampleTasks_distinct.
    + simpl; lia.
    + reflexivity.
Defined.

(** With a population size of 0 the run throws and [onComplete] is never
    called. *)
Lemma zero_population_never_completes :
  let p := sampleParams sampleTasks 0 4 in
  0 <= maxGenerations p /\ hasOnComplete p = true /\
  run sampleRandom p = ([], Threw) /\
  countCompleteCalls (fst (run sampleRandom p)) <> 1%nat.
Proof.
  cbv zeta. split; [simpl; lia|]. split; [reflexivity|].
  split; [reflexivity|]. vm_compute. discriminate.
Qed.

End GA.

(** ** The carrier: occupancy arithmetic and the advisory predicate *)

Module CarrierFacts.
Import Models.
Local Open Scope Z_scope.

Lemma available_plus_occupied slots :
  (length (filter (fun s => negb (isOccupied s)) slots) + occupiedCount slots)%nat = length slots.
Proof.
  unfold occupiedCount. induction slots as [|s rest IH]; simpl; trivial.
  destruct (isOccupied s); simpl; lia.
Qed.

Lemma occupyFirstEmpty_count slots t :
  occupiedCount (occupyFirstEmpty slots t) = Nat.min (S (occupiedCount slots)) (length slots).
Proof.
  induction slots as [|s rest IH]; simpl; trivial.
  pose proof (available_plus_occupied rest) as Hle.
  destruct (isOccupied s) eqn:E; simpl.
  - rewrite !occupiedCount_cons, E, IH. simpl. lia.
  - rewrite !occupiedCount_cons, E. simpl. lia.
Qed.

Lemma freeFirstOccupied_count slots :
  occupiedCount (fst (freeFirstOccupied slots)) = (occupiedCount slots - 1)%nat /\
  snd (freeFirstOccupied slots) = negb (occupiedCount slots =? 0)%nat.
Proof.
  induction slots as [|s rest IH]; simpl; [split; reflexivity|].
  destruct (isOccupied s) eqn:E; simpl.
  - rewrite !occupiedCount_cons, E. simpl. split; [lia|reflexivity].
  - destruct (freeFirstOccupied rest) as [rest' done]. simpl in *.
    rewrite !occupiedCount_cons, E. simpl. exact IH.
Qed.

Lemma executeTask_length a t :
  length (storageSlots (executeTask a t)) = length (storageSlots a).
Proof.
  unfold executeTask. destruct (type t); simpl.
  - apply occupyFirstEmpty_length.
  - apply freeFirstOccupied_length.
  - pose proof (freeFirstOccupied_length (storageSlots a)) as H.
    destruct (freeFirstOccupied (storageSlots a)) as [m [|]]; simpl in *;
      rewrite ?occupyFirstEmpty_length; exact H.
Qed.

Lemma executeTask_count a t :
  occupiedCount (storageSlots (executeTask a t)) =
  match type t with
  | DELIVERY => Nat.min (S (occupiedCount (storageSlots a))) (length (storageSlots a))
  | PICKUP => (occupiedCount (storageSlots a) - 1)%nat
  | PICKUP_DELIVERY => occupiedCount (storageSlots a)
  end.
Proof.
  unfold executeTask. destruct (type t); simpl.
  - apply occupyFirstEmpty_count.
  - apply freeFirstOccupied_count.
  - destruct (freeFirstOccupied_count (storageSlots a)) as [H1 H2].
    pose proof (freeFirstOccupied_length (storageSlots a)) as HL.
    pose proof (available_plus_occupied (storageSlots a)) as Hle.
    destruct (freeFirstOccupied (storageSlots a)) as [mid done]. simpl in *. subst done.
    destruct (Nat.eqb_spec (occupiedCount (storageSlots a)) 0); simpl; [lia|].
    rewrite occupyFirstEmpty_count. lia.
Qed.

(** X1. Whatever the carrier, a DELIVERY raises the number of occupied slots
    by one unless every slot is occupied already (then it is dropped), a
    PICKUP lowers it by one unless no slot is occupied, a PICKUP_DELIVERY
    keeps it; free and occupied slots always add up to the number of slots. *)
Theorem executeTask_occupancy :
  forall (a : AMR) (t : Task),
    let before := occupiedCount (storageSlots a) in
    let after := occupiedCount (storageSlots (executeTask a t)) in
    after = match type t with
            | DELIVERY => Nat.min (S before) (length (storageSlots a))
            | PICKUP => (before - 1)%nat
            | PICKUP_DELIVERY => before
            end /\
    (availableSlots a + before)%nat = length (storageSlots a) /\
    (availableSlots (executeTask a t) + after)%nat = length (storageSlots a).
Proof.
  intros a t. cbv zeta.
  split; [apply executeTask_count|]. unfold availableSlots. split.
  - apply available_plus_occupied.
  - rewrite available_plus_occupied. apply executeTask_length.
Qed.

(** X2. [canHandleTask] is advisory only, and on a carrier with four slots it
    disagrees with [executeTask] in three places: it refuses a PICKUP on a
    full carrier although [executeTask] frees a slot; it refuses a
    PICKUP_DELIVERY at three occupied slots although [executeTask] carries it
    out with the occupancy unchanged; and it accepts a PICKUP_DELIVERY on an
    empty carrier although [executeTask] then leaves the slots untouched. For
    a DELIVERY the two agree: it is accepted exactly when [executeTask]
    occupies one more slot, and a refused DELIVERY leaves the slots as they
    were. *)
Theorem canHandleTask_is_advisory :
  forall (a : AMR) (t : Task),
    length (storageSlots a) = 4%nat ->
    let before := occupiedCount (storageSlots a) in
    let after := occupiedCount (storageSlots (executeTask a t)) in
    (type t = DELIVERY ->
     (canHandleTask a t = true <-> after = S before) /\
     (canHandleTask a t = false -> storageSlots (executeTask a t) = storageSlots a)) /\
    (type t = PICKUP -> before = 4%nat -> canHandleTask a t = false /\ after = 3%nat) /\
    (type t = PICKUP_DELIVERY -> before = 3%nat ->
     canHandleTask a t = false /\ after = 3%nat) /\
    (type t = PICKUP_DELIVERY -> before = 0%nat ->
     canHandleTask a t = true /\ storageSlots (executeTask a t) = storageSlots a).
Proof.
  intros a t Hlen. cbv zeta.
  pose proof (executeTask_count a t) as Hocc.
  pose proof (available_plus_occupied (storageSlots a)) as Hav.
  unfold canHandleTask. split; [|split; [|split]].
  - intros Hk. rewrite Hk in *. rewrite Hocc, Hlen. split.
    + rewrite Nat.ltb_lt. lia.
    + intros Hfull. apply Nat.ltb_ge in Hfull.
      unfold executeTask. rewrite Hk. simpl. apply occupyFirstEmpty_full.
      intros s Hs. destruct (isOccupied s) eqn:E; trivial. exfalso.
      assert (Hin : In s (filter (fun s => negb (isOccupied s)) (storageSlots a)))
        by (apply filter_In; rewrite E; auto).
      destruct (filter (fun s => negb (isOccupied s)) (storageSlots a)); [contradiction|].
      simpl in Hav. lia.
  - intros Hk Hb. rewrite Hk in *. rewrite Hocc, Hb. split; reflexivity.
  - intros Hk Hb. rewrite Hk in *. rewrite Hocc, Hb. split; reflexivity.
  - intros Hk Hb. rewrite Hk in *. split; [rewrite Hb; reflexivity|].
    unfold executeTask. rewrite Hk.
    rewrite (freeFirstOccupied_none _ (occupiedCount_zero _ Hb)). reflexivity.
Qed.

Lemma canHandleTask_is_advisory_witness :
  length (storageSlots (newAMR None None)) = 4%nat /\
  canHandleTask (newAMR None None)
    {| id := 1; type := PICKUP_DELIVERY; position := home; processingTime := 5 |} = true /\
  storageSlots (executeTask (newAMR None None)
    {| id := 1; type := PICKUP_DELIVERY; position := home; processingTime := 5 |})
  = storageSlots (newAMR None None).
Proof.
  split; [reflexivity|].
  apply (canHandleTask_is_advisory (newAMR None None)
           {| id := 1; type := PICKUP_DELIVERY; position := home; processingTime := 5 |});
    reflexivity.
Defined.

End CarrierFacts.

(** ** The FIFO baseline: order, groups, and groups on the carrier *)

Module FIFOFacts.
Import Models FIFO.
Local Open Scope Z_scope.

(** Tasks other than PICKUP_DELIVERY: the ones the scan never skips. *)
Definition notPickupDelivery (t : Task) : bool :=
  negb (TaskType_eqb (type t) PICKUP_DELIVERY).

(** The carrier after a sequence of tasks. *)
Definition executeAll (a : AMR) (l : list Task) : AMR := fold_left executeTask l a.

Lemma scanGroup_order tasksCopy :
  forall slotsUsed,
    filter notPickupDelivery (fst (scanGroup tasksCopy slotsUsed)) ++
    filter notPickupDelivery (snd (scanGroup tasksCopy slotsUsed))
    = filter notPickupDelivery tasksCopy.
Proof.
  induction tasksCopy as [|task rest IH]; intros s; simpl; trivial.
  destruct (TaskType_eqb (type task) PICKUP_DELIVERY && (3 <=? s)) eqn:Eskip.
  - specialize (IH s). destruct (scanGroup rest s) as [group kept]; simpl in *.
    apply andb_true_iff in Eskip. destruct Eskip as [Epd _].
    assert (Ht : notPickupDelivery task = false) by (unfold notPickupDelivery; now rewrite Epd).
    rewrite Ht. exact IH.
  - destruct (4 <=? s); simpl; trivial.
    specialize (IH (updateSlots s task)).
    destruct (scanGroup rest (updateSlots s task)) as [group kept]; simpl in *.
    destruct (notPickupDelivery task); simpl; congruence.
Qed.

Lemma scanGroup_length tasksCopy slotsUsed :
  (length (fst (scanGroup tasksCopy slotsUsed)) + length (snd (scanGroup tasksCopy slotsUsed)))%nat
  = length tasksCopy.
Proof.
  revert slotsUsed. induction tasksCopy as [|task rest IH]; intros s; simpl; trivial.
  destruct (TaskType_eqb (type task) PICKUP_DELIVERY && (3 <=? s)).
  - specialize (IH s). destruct (scanGroup rest s); simpl in *. lia.
  - destruct (4 <=? s); simpl; trivial.
    specialize (IH (updateSlots s task)).
    destruct (scanGroup rest (updateSlots s task)); simpl in *. lia.
Qed.

Lemma scheduleLoop_order fuel :
  forall tasksCopy result groups,
    (length tasksCopy <= fuel)%nat ->
    Forall (fun g => g <> []) groups ->
    exists tail groups',
      scheduleLoop fuel tasksCopy result groups = Some (result ++ tail, groups') /\
      filter notPickupDelivery tail = filter notPickupDelivery tasksCopy /\
      hd_error tail = hd_error tasksCopy /\
      length tail = length tasksCopy /\
      Forall (fun g => g <> []) groups' /\
      concat groups' = concat groups ++ tail.
Proof.
  induction fuel as [|fuel IH]; intros tasksCopy result groups Hlen Hne.
  - destruct tasksCopy; simpl in Hlen; [|lia].
    exists [], groups. simpl. rewrite !app_nil_r. repeat split; auto.
  - destruct tasksCopy as [|task rest].
    + exists [], groups. simpl. rewrite !app_nil_r. repeat split; auto.
    + cbn [scheduleLoop].
      pose proof (scanGroup_order (task :: rest) 0) as Ho.
      pose proof (scanGroup_length (task :: rest) 0) as Hl.
      destruct (scanGroup_progress task rest) as (group' & Hg).
      destruct (scanGroup (task :: rest) 0) as [group kept].
      cbn [fst snd] in Ho, Hl, Hg. subst group.
      destruct (IH kept (result ++ task :: group') (groups ++ [task :: group']))
        as (tail & gs & H1 & H2 & H3 & H4 & H5 & H6).
      * cbn [length] in Hl, Hlen. lia.
      * apply Forall_app. split; trivial. constructor; [discriminate|constructor].
      * exists ((task :: group') ++ tail), gs. rewrite app_assoc.
        split; [exact H1|]. rewrite filter_app, H2, Ho.
        split; [reflexivity|]. split; [reflexivity|].
        split; [rewrite length_app, H4; exact Hl|]. split; [exact H5|].
        rewrite H6, concat_app. cbn [concat]. rewrite app_nil_r, <- app_assoc. reflexivity.
Qed.

Lemma filter_all (A : Type) (f : A -> bool) (l : list A) :
  Forall (fun a => f a = true) l -> filter f l = l.
Proof.
  induction 1 as [|a l Ha _ IH]; simpl; trivial. rewrite Ha, IH. reflexivity.
Qed.

Lemma filter_full (A : Type) (f : A -> bool) (l : list A) :
  length (filter f l) = length l -> filter f l = l.
Proof.
  induction l as [|a l IH]; simpl; trivial.
  pose proof (filter_length_le f l) as Hle.
  destruct (f a); cbn [length]; intros H; [f_equal; apply IH; lia | lia].
Qed.

(** X3. The schedule keeps every task that is not a PICKUP_DELIVERY in its
    input order: deleting the PICKUP_DELIVERY tasks from the input and from
    the result leaves the same list. A list without PICKUP_DELIVERY tasks is
    returned unchanged, however many DELIVERY tasks it holds. *)
Theorem schedule_keeps_order_of_plain_tasks :
  forall tasks : list Task,
    exists result,
      schedule tasks = Some result /\
      filter notPickupDelivery result = filter notPickupDelivery tasks /\
      (Forall (fun t => type t <> PICKUP_DELIVERY) tasks -> result = tasks).
Proof.
  intros tasks. unfold schedule, scheduleWithGroups.
  destruct (@scheduleLoop_order (length tasks) tasks [] []) as (tail & gs & H1 & H2 & H3 & H4 & _);
    auto.
  exists tail. rewrite H1. simpl. repeat split; trivial.
  intros Hall.
  assert (Ht : Forall (fun t => notPickupDelivery t = true) tasks).
  { eapply Forall_impl; [|exact Hall]. intros t Ht. unfold notPickupDelivery.
    destruct (TaskType_eqb (type t) PICKUP_DELIVERY) eqn:E; trivial.
    apply TaskType_eqb_eq in E. contradiction. }
  rewrite (filter_all _ Ht) in H2.
  assert (Hlen : (length (filter notPickupDelivery tail) = length tail)%nat)
    by (rewrite H2; symmetry; exact H4).
  rewrite <- H2. symmetry. apply filter_full. exact Hlen.
Qed.

(** X4. Every group the loop builds holds at least one task (it always takes
    the first task still waiting), so the [if (group.length === 0) break]
    guard never fires; there are at most as many groups as tasks, and the
    result starts with the first task of the input. *)
Theorem schedule_groups_are_nonempty :
  forall tasks : list Task,
    exists result groups,
      scheduleWithGroups tasks = Some (result, groups) /\
      Forall (fun g => g <> []) groups /\
      (length groups <= length tasks)%nat /\
      hd_error result = hd_error tasks.
Proof.
  intros tasks. unfold scheduleWithGroups.
  destruct (@scheduleLoop_order (length tasks) tasks [] [])
    as (tail & gs & H1 & H2 & H3 & H4 & H5 & H6); auto.
  exists tail, gs. repeat split; trivial.
  simpl in H6. rewrite <- H4, <- H6. clear - H5.
  induction H5 as [|g gs Hg _ IH]; simpl; trivial.
  rewrite length_app. destruct g; [contradiction|]. simpl. lia.
Qed.

(** *** A group on the carrier *)

Definition delivery (n : Z) : Task :=
  {| id := n; type := DELIVERY; position := home; processingTime := 5 |}.

Lemma executeAll_length l : forall a,
  length (storageSlots (executeAll a l)) = length (storageSlots a).
Proof.
  unfold executeAll. induction l as [|t l IH]; intros a; simpl; trivial.
  rewrite IH. apply CarrierFacts.executeTask_length.
Qed.

Lemma group_occupancy group :
  forall (a : AMR) (slotsUsed : Z),
    length (storageSlots a) = 4%nat ->
    Z.of_nat (occupiedCount (storageSlots a)) = slotsUsed ->
    capacityRespected slotsUsed group = true ->
    Z.of_nat (occupiedCount (storageSlots (executeAll a group)))
    = fold_left updateSlots group slotsUsed.
Proof.
  unfold executeAll. induction group as [|t group IH]; intros a s Hlen Hs Hc; simpl; trivial.
  simpl in Hc. apply andb_true_iff in Hc. destruct Hc as [Hc Hrest].
  apply andb_true_iff in Hc. destruct Hc as [Hc Hu].
  apply andb_true_iff in Hc. destruct Hc as [_ Hs4].
  apply Z.leb_le in Hu, Hs4.
  apply IH; trivial.
  - rewrite CarrierFacts.executeTask_length. exact Hlen.
  - rewrite CarrierFacts.executeTask_count. unfold updateSlots in *.
    destruct (type t); rewrite ?Hlen; lia.
Qed.

(** X5. A group that respects the capacity rule from [slotsUsed], executed on
    a four-slot carrier with that many slots occupied, leaves the carrier with
    exactly the occupancy the scheduler computed: no DELIVERY of the group is
    dropped. In particular this holds for every group of a schedule when the
    carrier is empty at the start of the group. It does not extend to the
    schedule as a whole, which is executed without emptying the carrier
    between groups: of five deliveries, scheduled as they come, the fifth
    finds all four slots occupied and is dropped. *)
Theorem schedule_groups_fit_the_carrier :
  (forall (a : AMR) (slotsUsed : Z) (group : list Task),
     length (storageSlots a) = 4%nat ->
     Z.of_nat (occupiedCount (storageSlots a)) = slotsUsed ->
     capacityRespected slotsUsed group = true ->
     Z.of_nat (occupiedCount (storageSlots (executeAll a group)))
     = fold_left updateSlots group slotsUsed) /\
  (forall tasks : list Task,
     exists result groups,
       scheduleWithGroups tasks = Some (result, groups) /\
       Forall (fun g =>
                 Z.of_nat (occupiedCount (storageSlots (executeAll (newAMR None None) g)))
                 = fold_left updateSlots g 0) groups) /\
  (let five := map delivery [1; 2; 3; 4; 5] in
   scheduleWithGroups five = Some (five, [map delivery [1; 2; 3; 4]; [delivery 5]]) /\
   storageSlots (executeAll (newAMR None None) five)
   = map slotFor (map delivery [1; 2; 3; 4])).
Proof.
  split; [|split; [|split; reflexivity]].
  - intros a s g. apply group_occupancy.
  - intros tasks. unfold scheduleWithGroups.
    destruct (@scheduleLoop_spec (length tasks) tasks [] []) as (r & gs & H1 & _ & _ & H4); auto.
    exists r, gs. split; trivial.
    eapply Forall_impl; [|exact H4]. intros g Hg.
    apply group_occupancy; trivial.
Qed.

End FIFOFacts.

(** ** task-generator.ts: [generateRandomTasks] *)

Module Generator.
Import Models.
Local Open Scope Z_scope.

(** A small non-negative integer as a [number]. *)
Definition number (z : Z) : float := of_uint63 (Uint63.of_Z z).

(** The callback of [tasks.some(...)]. *)
Definition tooClose (pos : Position) (task : Task) : bool :=
  (abs (x (position task) - x pos) <? 2)%float &&
  (abs (y (position task) - y pos) <? 2)%float.

(** The binary64 literal [0.8], as the rational it denotes. *)
Definition literal08 : Q := 3602879701896397 # 4503599627370496.

Definition typeFor (rand : Q) : TaskType :=
  if GA.Qltb rand (1 # 2) then DELIVERY
  else if GA.Qltb rand literal08 then PICKUP
  else PICKUP_DELIVERY.

Section Generate.

(** [rnd k] is the value of the [k]-th call of [Math.random()]. *)
Variable rnd : nat -> Q.

(** The [for (let i = 0; i < count; i++)] loop; [draws] counts the calls of
    [Math.random()] so far. A rejected position leaves [i] as it is
    ([i--; continue] followed by [i++]). One unit of fuel is one pass through
    the body; [None] only when the fuel is used up. *)
Fixpoint generateLoop (fuel : nat) (count i : Z) (tasks : list Task) (draws : nat)
  : option (list Task) :=
  if i <? count then
    match fuel with
    | O => None
    | S fuel' =>
        let position :=
          {| x := number (3 + Qfloor (rnd draws * inject_Z 12));
             y := number (3 + Qfloor (rnd (S draws) * inject_Z 8)) |} in
        if existsb (tooClose position) tasks then
          generateLoop fuel' count i tasks (S (S draws))
        else
          let type := typeFor (rnd (S (S draws))) in
          let processingTime := number (3 + Qfloor (rnd (S (S (S draws))) * inject_Z 8)) in
          generateLoop fuel' count (i + 1)
            (tasks ++ [newTask {| p_id := i + 1;
                                  p_type := type;
                                  p_position := position;
                                  p_processingTime := Some processingTime |}])
            (S (S (S (S draws))))
    end
  else Some tasks.

(** [generateRandomTasks] *)
Definition generateRandomTasks (fuel : nat) (count : Z) : option (list Task) :=
  generateLoop fuel count 0 [] 0%nat.

(** The tasks the page's [generateTasks] handler asks for:
    [generateRandomTasks(Math.min(count, 30))]. *)
Definition generateTasks (fuel : nat) (count : Z) : option (list Task) :=
  generateRandomTasks fuel (Z.min count 30).

End Generate.

(** What every generated task looks like. *)
Definition Generated (t : Task) : Prop :=
  exists a b k,
    3 <= a <= 14 /\ 3 <= b <= 10 /\ 3 <= k <= 10 /\
    position t = {| x := number a; y := number b |} /\
    processingTime t = number k.

(** *** Numbers that are small integers *)

Definition range (lo hi : Z) : list Z :=
  map (fun k => lo + Z.of_nat k) (seq 0 (Z.to_nat (hi - lo + 1))).

Lemma In_range lo hi a : lo <= a <= hi -> In a (range lo hi).
Proof.
  intros H. unfold range. apply in_map_iff. exists (Z.to_nat (a - lo)).
  split; [lia|]. apply in_seq. lia.
Qed.

Lemma abs_difference a c :
  3 <= a <= 14 -> 3 <= c <= 14 ->
  (abs (number c - number a) <? 2)%float = (Z.abs (c - a) <? 2).
Proof.
  intros Ha Hc.
  assert (H : forallb (fun a => forallb (fun c =>
                Bool.eqb (abs (number c - number a) <? 2)%float (Z.abs (c - a) <? 2))
                (range 3 14)) (range 3 14) = true) by (vm_compute; reflexivity).
  rewrite forallb_forall in H. specialize (H a (In_range Ha)).
  rewrite forallb_forall in H. specialize (H c (In_range Hc)).
  apply eqb_prop in H. exact H.
Qed.

Lemma processingTime_truthy k : 3 <= k <= 10 -> or_default (Some (number k)) 5 = number k.
Proof.
  intros Hk.
  assert (H : forallb (fun k => truthy (number k)) (range 3 10) = true)
    by (vm_compute; reflexivity).
  rewrite forallb_forall in H. specialize (H k (In_range Hk)).
  unfold or_default. rewrite H. reflexivity.
Qed.

(** *** Cells of the grid *)

Definition posOf (c : Z * Z) : Position := {| x := number (fst c); y := number (snd c) |}.

Definition inGrid (c : Z * Z) : Prop := 3 <= fst c <= 14 /\ 3 <= snd c <= 10.

Definition far (c d : Z * Z) : Prop := 2 <= Z.abs (fst c - fst d) \/ 2 <= Z.abs (snd c - snd d).

(** The grid splits into 6 x 4 blocks of 2 x 2 cells. *)
Definition block (c : Z * Z) : Z := ((fst c - 3) / 2) * 4 + (snd c - 3) / 2.

Lemma block_range c : inGrid c -> 0 <= block c < 24.
Proof.
  intros [Hx Hy]. unfold block. Z.div_mod_to_equations. lia.
Qed.

Lemma block_far c d : inGrid c -> inGrid d -> far c d -> block c <> block d.
Proof.
  intros [Hx Hy] [Hx' Hy'] Hf E. unfold block, far in *.
  Z.div_mod_to_equations. lia.
Qed.

Lemma tooClose_cells c d (t : Task) :
  inGrid c -> inGrid d -> position t = posOf d ->
  tooClose (posOf c) t = (Z.abs (fst d - fst c) <? 2) && (Z.abs (snd d - snd c) <? 2).
Proof.
  intros [Hx Hy] [Hx' Hy'] Hp. unfold tooClose. rewrite Hp. simpl.
  rewrite !abs_difference by lia. reflexivity.
Qed.

(** The invariant of the loop: [i] tasks, numbered from 1, on pairwise distant
    cells of the grid. *)
Record Inv (i : Z) (tasks : list Task) (cells : list (Z * Z)) : Prop := {
  inv_nonneg : 0 <= i;
  inv_length : length tasks = Z.to_nat i;
  inv_cells : map position tasks = map posOf cells;
  inv_grid : Forall inGrid cells;
  inv_far : ForallOrdPairs far cells;
  inv_ids : map id tasks = map Z.of_nat (seq 1 (Z.to_nat i));
  inv_generated : Forall Generated tasks;
  inv_spaced : ForallOrdPairs (fun t u => tooClose (position u) t = false) tasks
}.

Lemma ForallOrdPairs_snoc (A : Type) (R : A -> A -> Prop) (l : list A) (a : A) :
  ForallOrdPairs R l -> Forall (fun b => R b a) l -> ForallOrdPairs R (l ++ [a]).
Proof.
  induction 1 as [|b l Hb _ IH]; intros Hall; simpl.
  - constructor; constructor.
  - inversion Hall; subst. constructor; [|apply IH; trivial].
    apply Forall_app. split; trivial. constructor; trivial.
Qed.

Lemma far_blocks cells :
  Forall inGrid cells -> ForallOrdPairs far cells -> NoDup (map block cells).
Proof.
  intros Hg Hf. induction Hf as [|c cells Hc _ IH]; simpl; [constructor|].
  inversion Hg; subst. constructor; [|apply IH; trivial].
  intros Hin. apply in_map_iff in Hin. destruct Hin as (d & E & Hd).
  rewrite Forall_forall in Hc, H2.
  apply (@block_far c d); auto.
Qed.

Lemma cells_bound cells :
  Forall inGrid cells -> ForallOrdPairs far cells -> (length cells <= 24)%nat.
Proof.
  intros Hg Hf. rewrite <- (length_map block cells).
  change 24%nat with (length (range 0 23)).
  apply NoDup_incl_length; [apply far_blocks; trivial|].
  intros b Hb. apply in_map_iff in Hb. destruct Hb as (c & <- & Hc).
  rewrite Forall_forall in Hg. apply In_range. pose proof (block_range (Hg c Hc)). lia.
Qed.

(** With 24 pairwise distant cells every block is taken. *)
Lemma cells_full cells c :
  Forall inGrid cells -> ForallOrdPairs far cells -> length cells = 24%nat ->
  inGrid c -> exists d, In d cells /\ ~ far d c.
Proof.
  intros Hg Hf Hlen Hc.
  assert (Hincl : incl (range 0 23) (map block cells)).
  { apply NoDup_length_incl.
    - apply far_blocks; trivial.
    - rewrite length_map, Hlen. reflexivity.
    - intros b Hb. apply in_map_iff in Hb. destruct Hb as (d & <- & Hd).
      rewrite Forall_forall in Hg. apply In_range. pose proof (block_range (Hg d Hd)). lia. }
  assert (Hb : In (block c) (map block cells)).
  { apply Hincl, In_range. pose proof (block_range Hc). lia. }
  apply in_map_iff in Hb. destruct Hb as (d & E & Hd). exists d. split; trivial.
  intros Hfar. rewrite Forall_forall in Hg. exact (block_far (Hg d Hd) Hc Hfar E).
Qed.

Lemma existsb_tooClose tasks cells c :
  map position tasks = map posOf cells -> Forall inGrid cells -> inGrid c ->
  (existsb (tooClose (posOf c)) tasks = false <-> Forall (fun d => far d c) cells).
Proof.
  revert cells. induction tasks as [|t tasks IH]; intros [|d cells] Hm Hg Hc;
    try discriminate; simpl.
  - split; auto.
  - injection Hm as Hp Hm. apply Forall_cons_iff in Hg. destruct Hg as [Hd Hg].
    rewrite orb_false_iff, (IH cells), (@tooClose_cells c d t) by trivial.
    rewrite Forall_cons_iff. unfold far at 2.
    rewrite andb_false_iff, !Z.ltb_ge. tauto.
Qed.

Section GenerateFacts.

Variable rnd : nat -> Q.
Hypothesis rnd_range : forall k, (0 <= rnd k)%Q /\ (rnd k < 1)%Q.

Lemma candidate_inGrid k k' :
  inGrid (3 + Qfloor (rnd k * inject_Z 12), 3 + Qfloor (rnd k' * inject_Z 8)).
Proof.
  destruct (rnd_range k) as [H0 H1]. destruct (rnd_range k') as [H0' H1'].
  destruct (@GA.floor_random_range (rnd k) 12) as (A1 & A2 & _); trivial; try lia.
  destruct (@GA.floor_random_range (rnd k') 8) as (B1 & B2 & _); trivial; try lia.
  unfold inGrid. cbn [fst snd]. lia.
Qed.

Lemma processingTime_range k : 3 <= 3 + Qfloor (rnd k * inject_Z 8) <= 10.
Proof.
  destruct (rnd_range k) as [H0 H1].
  destruct (@GA.floor_random_range (rnd k) 8) as (B1 & B2 & _); trivial; try lia.
Qed.

Lemma push_Inv i tasks cells c ty k :
  Inv i tasks cells -> inGrid c -> 3 <= k <= 10 ->
  existsb (tooClose (posOf c)) tasks = false ->
  Inv (i + 1)
      (tasks ++ [newTask {| p_id := i + 1; p_type := ty; p_position := posOf c;
                            p_processingTime := Some (number k) |}])
      (cells ++ [c]).
Proof.
  intros [H1 H2 H3 H4 H5 H6 H7 H8] Hc Hk Hfar.
  assert (Hfar' := Hfar). rewrite (@existsb_tooClose tasks cells c H3 H4 Hc) in Hfar'.
  constructor.
  - lia.
  - rewrite length_app, H2. simpl. lia.
  - rewrite !map_app, H3. reflexivity.
  - apply Forall_app. split; trivial. constructor; trivial.
  - apply ForallOrdPairs_snoc; trivial.
  - rewrite map_app, H6. replace (Z.to_nat (i + 1)) with (Z.to_nat i + 1)%nat by lia.
    rewrite seq_app, map_app. simpl. do 2 f_equal. lia.
  - apply Forall_app. split; trivial. constructor; [|constructor].
    exists (fst c), (snd c), k. destruct Hc as [Hx Hy].
    split; [exact Hx|]. split; [exact Hy|]. split; [exact Hk|]. split; [reflexivity|].
    apply processingTime_truthy. exact Hk.
  - apply ForallOrdPairs_snoc; trivial. simpl.
    clear - Hfar. induction tasks as [|t tasks IH]; simpl in *; constructor.
    + apply orb_false_iff in Hfar. apply Hfar.
    + apply IH. apply orb_false_iff in Hfar. apply Hfar.
Qed.

Lemma Inv_bound i tasks cells : Inv i tasks cells -> i <= 24.
Proof.
  intros H. pose proof (cells_bound (inv_grid H) (inv_far H)) as Hb.
  pose proof (f_equal (@length _) (inv_cells H)) as Hl. rewrite !length_map in Hl.
  pose proof (inv_length H). pose proof (inv_nonneg H). lia.
Qed.

Lemma generateLoop_Inv fuel count :
  forall i tasks cells draws result,
    Inv i tasks cells -> i <= Z.max 0 count ->
    generateLoop rnd fuel count i tasks draws = Some result ->
    exists cells', Inv (Z.max 0 count) result cells'.
Proof.
  induction fuel as [|fuel IH]; intros i tasks cells draws result HI Hi.
  - simpl. destruct (Z.ltb_spec i count); [discriminate|].
    intros E. inversion E; subst. exists cells.
    pose proof (inv_nonneg HI). replace (Z.max 0 count) with i by lia. exact HI.
  - cbn [generateLoop]. destruct (Z.ltb_spec i count).
    + cbv zeta. pose proof (candidate_inGrid draws (S draws)) as Hc.
      set (c := (3 + Qfloor (rnd draws * inject_Z 12),
                 3 + Qfloor (rnd (S draws) * inject_Z 8))) in *.
      change {| x := number (3 + Qfloor (rnd draws * inject_Z 12));
                y := number (3 + Qfloor (rnd (S draws) * inject_Z 8)) |} with (posOf c).
      destruct (existsb (tooClose (posOf c)) tasks) eqn:E.
      * apply (IH i tasks cells); trivial.
      * apply (IH (i + 1) _ (cells ++ [c])); [|lia].
        apply push_Inv; trivial. apply processingTime_range.
    + intros E. inversion E; subst. exists cells.
      pose proof (inv_nonneg HI). replace (Z.max 0 count) with i by lia. exact HI.
Qed.

Lemma generateLoop_stuck fuel count :
  forall i tasks cells draws,
    Inv i tasks cells -> 25 <= count ->
    generateLoop rnd fuel count i tasks draws = None.
Proof.
  induction fuel as [|fuel IH]; intros i tasks cells draws HI Hcount;
    pose proof (Inv_bound HI) as Hb.
  - simpl. destruct (Z.ltb_spec i count); [reflexivity|lia].
  - cbn [generateLoop]. destruct (Z.ltb_spec i count); [|lia].
    cbv zeta. pose proof (candidate_inGrid draws (S draws)) as Hc.
    set (c := (3 + Qfloor (rnd draws * inject_Z 12),
               3 + Qfloor (rnd (S draws) * inject_Z 8))) in *.
    change {| x := number (3 + Qfloor (rnd draws * inject_Z 12));
              y := number (3 + Qfloor (rnd (S draws) * inject_Z 8)) |} with (posOf c).
    destruct (existsb (tooClose (posOf c)) tasks) eqn:E.
    + apply (IH i tasks cells); trivial.
    + apply (IH (i + 1) _ (cells ++ [c])); trivial.
      apply push_Inv; trivial. apply processingTime_range.
Qed.

Lemma Inv_start : Inv 0 [] [].
Proof. constructor; simpl; try constructor; lia. Qed.

End GenerateFacts.

(** X6. Whenever [generateRandomTasks] returns, it returns [max(0, count)]
    tasks with the ids 1, 2, ..., in that order; every task sits on an integer
    position with x in 3..14 and y in 3..10 and has an integer processing time
    in 3..10 (so the constructor's default of 5 is never used); no two tasks
    are within less than 2 of each other on both axes; and there are at most
    24 of them. *)
Theorem generateRandomTasks_shape :
  forall (rnd : nat -> Q) (fuel : nat) (count : Z) (tasks : list Task),
    (forall k, (0 <= rnd k)%Q /\ (rnd k < 1)%Q) ->
    generateRandomTasks rnd fuel count = Some tasks ->
    length tasks = Z.to_nat count /\
    map id tasks = map Z.of_nat (seq 1 (Z.to_nat count)) /\
    Forall Generated tasks /\
    ForallOrdPairs (fun t u => tooClose (position u) t = false) tasks /\
    count <= 24.
Proof.
  intros rnd fuel count tasks Hr E.
  destruct (@generateLoop_Inv rnd Hr fuel count 0 [] [] 0%nat tasks) as (cells & HI);
    [apply Inv_start|lia|exact E|].
  pose proof (Inv_bound HI) as Hb.
  destruct HI as [H1 H2 H3 H4 H5 H6 H7 H8].
  replace (Z.to_nat (Z.max 0 count)) with (Z.to_nat count) in * by lia.
  repeat split; trivial. lia.
Qed.

Lemma generateRandomTasks_shape_witness :
  exists tasks,
    generateRandomTasks GA.sampleRandom 10 3 = Some tasks /\
    length tasks = 3%nat /\ map id tasks = [1; 2; 3].
Proof.
  eexists. split; [vm_compute; reflexivity|].
  match goal with |- length ?t = _ /\ _ =>
    destruct (@generateRandomTasks_shape GA.sampleRandom 10 3 t GA.sampleRandom_range)
      as (H1 & H2 & _) end.
  - vm_compute. reflexivity.
  - split; [exact H1|exact H2].
Defined.

(** X7. The grid has room for 24 tasks only (x in 3..14 and y in 3..10 make
    6 x 4 blocks of 2 x 2 cells, and two positions in one block are too
    close). So for a count of 25 or more the loop keeps rejecting positions
    once it cannot place another task: whatever [Math.random()] returns and
    however long it runs, [generateRandomTasks] does not return. The page
    passes counts up to 30 through ([Math.min(count, 30)]), so its
    [generateTasks] handler does not return either for a count of 25 or more. *)
Theorem generateRandomTasks_never_returns_above_24 :
  forall (rnd : nat -> Q) (fuel : nat) (count : Z),
    (forall k, (0 <= rnd k)%Q /\ (rnd k < 1)%Q) ->
    25 <= count ->
    generateRandomTasks rnd fuel count = None /\
    generateTasks rnd fuel count = None.
Proof.
  intros rnd fuel count Hr Hc. unfold generateTasks, generateRandomTasks. split.
  - apply (@generateLoop_stuck rnd Hr fuel count 0 [] []); [apply Inv_start|trivial].
  - apply (@generateLoop_stuck rnd Hr fuel (Z.min count 30) 0 [] []); [apply Inv_start|lia].
Qed.

Lemma generateRandomTasks_never_returns_above_24_witness :
  generateRandomTasks GA.sampleRandom 1000 25 = None /\
  generateTasks GA.sampleRandom 1000 25 = None.
Proof.
  apply generateRandomTasks_never_returns_above_24; [exact GA.sampleRandom_range|lia].
Defined.

End Generator.

(** ** The simulator page: running the scheduler on generated tasks *)

Module Page.
Import Models.
Local Open Scope Z_scope.

(** The [algorithmParams] state of the page. *)
Record AlgorithmParams := {
  ap_populationSize : Z;
  ap_maxGenerations : Z;
  ap_crossoverRate : Q;
  ap_mutationRate : Q;
  ap_makeSpanWeight : float;
  ap_idleDistanceWeight : float
}.

(** The argument of [new GeneticAlgorithm(...)] in [runAlgorithm]: with more
    than 20 tasks the population is capped at 30 and the generations at 50;
    both callbacks are given. *)
Definition adjustedParams (tasks : list Task) (a : AlgorithmParams) : GA.Params :=
  let many := (20 <? length tasks)%nat in
  {| GA.tasks := tasks;
     GA.populationSize := if many then Z.min (ap_populationSize a) 30 else ap_populationSize a;
     GA.maxGenerations := if many then Z.min (ap_maxGenerations a) 50 else ap_maxGenerations a;
     GA.crossoverRate := ap_crossoverRate a;
     GA.mutationRate := ap_mutationRate a;
     GA.makeSpanWeight := ap_makeSpanWeight a;
     GA.idleDistanceWeight := ap_idleDistanceWeight a;
     GA.hasOnGenerationComplete := true;
     GA.hasOnComplete := true |}.

(** [runAlgorithm]: the callbacks the run makes and how it ends; [None] when
    the handler returns at once because there are no tasks. *)
Definition runAlgorithm (rnd : nat -> Q) (tasks : list Task) (a : AlgorithmParams)
  : option (list GA.Event * GA.Outcome) :=
  if (length tasks =? 0)%nat then None
  else Some (GA.run rnd (adjustedParams tasks a)).

Lemma seq_ids_NoDup n : NoDup (map Z.of_nat (seq 1 n)).
Proof.
  apply Finite.Injective_map_NoDup; [|apply seq_NoDup].
  intros a b H. lia.
Qed.

(** X8. Tasks that [generateRandomTasks] returned for a count of at least 1
    meet what the genetic scheduler needs (a non-empty list with pairwise
    distinct ids): whatever the random numbers, [runAlgorithm] on them with a
    population of at least 1 and a non-negative number of generations runs to
    completion, calls [onComplete] exactly once, as the last callback, and
    reports at most one more generation than the (possibly capped) maximum. *)
Theorem generated_tasks_run_to_completion :
  forall (rnd rnd' : nat -> Q) (fuel : nat) (count : Z) (tasks : list Task)
         (a : AlgorithmParams),
    (forall k, (0 <= rnd k)%Q /\ (rnd k < 1)%Q) ->
    (forall k, (0 <= rnd' k)%Q /\ (rnd' k < 1)%Q) ->
    Generator.generateRandomTasks rnd fuel count = Some tasks ->
    1 <= count ->
    1 <= ap_populationSize a ->
    0 <= ap_maxGenerations a ->
    exists tr,
      runAlgorithm rnd' tasks a = Some (tr ++ [GA.Complete], GA.Completed) /\
      GA.countCompleteCalls tr = 0%nat /\
      Z.of_nat (GA.countGenerationCalls (tr ++ [GA.Complete]))
      <= (if 20 <? count then Z.min (ap_maxGenerations a) 50 else ap_maxGenerations a) + 1.
Proof.
  intros rnd rnd' fuel count tasks a Hr Hr' E Hc Hp Hg.
  destruct (@Generator.generateLoop_Inv rnd Hr fuel count 0 [] [] 0%nat tasks) as (cells & HI);
    [apply Generator.Inv_start|lia|exact E|].
  pose proof (Generator.inv_length HI) as Hlen.
  pose proof (Generator.inv_ids HI) as Hids.
  replace (Z.to_nat (Z.max 0 count)) with (Z.to_nat count) in * by lia.
  assert (Hmany : (20 <? length tasks)%nat = (20 <? count)).
  { rewrite Hlen. destruct (Z.ltb_spec 20 count), (Nat.ltb_spec 20 (Z.to_nat count)); trivial; lia. }
  destruct (@GA.run_completes rnd' (adjustedParams tasks a)) as (tr & H1 & H2 & _ & H4); trivial.
  - simpl. intros ->. simpl in Hlen. lia.
  - simpl. rewrite Hids. apply seq_ids_NoDup.
  - simpl. destruct (20 <? length tasks)%nat; lia.
  - simpl. destruct (20 <? length tasks)%nat; lia.
  - exists tr. unfold runAlgorithm.
    destruct (Nat.eqb_spec (length tasks) 0) as [E0|_]; [lia|].
    rewrite H1. split; [reflexivity|]. split; [exact H2|].
    simpl in H4. rewrite Hmany in H4. exact H4.
Qed.

(** The initial [algorithmParams] of the page; the rates are the binary64
    literals [0.8] and [0.01]. *)
Definition defaultParams : AlgorithmParams :=
  {| ap_populationSize := 50;
     ap_maxGenerations := 100;
     ap_crossoverRate := Generator.literal08;
     ap_mutationRate := 5764607523034235 # 576460752303423488;
     ap_makeSpanWeight := 1;
     ap_idleDistanceWeight := 1 |}.

Lemma generated_tasks_run_to_completion_witness :
  exists tasks tr,
    Generator.generateRandomTasks GA.sampleRandom 10 3 = Some tasks /\
    runAlgorithm GA.sampleRandom tasks defaultParams = Some (tr ++ [GA.Complete], GA.Completed).
Proof.
  destruct (Generator.generateRandomTasks GA.sampleRandom 10 3) as [tasks|] eqn:E;
    [|vm_compute in E; discriminate].
  destruct (@generated_tasks_run_to_completion GA.sampleRandom GA.sampleRandom 10 3 tasks
              defaultParams GA.sampleRandom_range GA.sampleRandom_range E)
    as (tr & H & _); [lia|simpl; lia|simpl; lia|].
  exists tasks, tr. split; [reflexivity|exact H].
Defined.

(** *** Stepping through a solution *)

(** The carrier object in the [amr] state. Its [storageSlots] array is shared
    by every copy made with [new AMR({ ...amr })], so the arrays live in a
    heap and the object holds an address. *)
Record Carrier := { carrierPosition : Position; carrierSlots : nat }.

Definition Heap := list (list StorageSlot).

(** [amr.executeTask(task)] on an object whose slots are at [carrierSlots]:
    the position is replaced, the array is updated in place. *)
Definition executeTaskAt (h : Heap) (amr : Carrier) (task : Task) : Heap * Carrier :=
  let a := executeTask {| amr_position := carrierPosition amr;
                          storageSlots := nth (carrierSlots amr) h [] |} task in
  (firstn (carrierSlots amr) h ++ storageSlots a :: skipn (S (carrierSlots amr)) h,
   {| carrierPosition := amr_position a; carrierSlots := carrierSlots amr |}).

(** What [logTaskExecution] stores (without the times, the method and the
    session id); the two slot lists are copied when the record is made. *)
Record TaskExecutionRecord := {
  rec_taskId : Z;
  rec_taskType : TaskType;
  rec_taskPosition : Position;
  rec_processingTime : float;
  executionOrder : Z;
  amrPositionBefore : Position;
  amrPositionAfter : Position;
  storageSlotsBeforeExecution : list StorageSlot;
  storageSlotsAfterExecution : list StorageSlot;
  distanceTraveled : float;
  waitTime : float;
  isSuccessful : bool
}.

(** The timer callback of the stepping effect; [None] when the effect returns
    without setting a timer ([simulationStep >= activeSolution.length]). *)
Definition stepCallback (h : Heap) (amr : Carrier) (activeSolution : list Task)
  (simulationStep : nat) : option (Heap * Carrier * TaskExecutionRecord) :=
  match nth_error activeSolution simulationStep with
  | None => None
  | Some currentTask =>
      let previousAmr := {| carrierPosition := carrierPosition amr;
                            carrierSlots := carrierSlots amr |} in
      let updatedAmr0 := {| carrierPosition := carrierPosition amr;
                            carrierSlots := carrierSlots amr |} in
      let (h', updatedAmr) := executeTaskAt h updatedAmr0 currentTask in
      let distance := euclid (carrierPosition updatedAmr) (carrierPosition previousAmr) in
      Some (h', updatedAmr,
            {| rec_taskId := id currentTask;
               rec_taskType := type currentTask;
               rec_taskPosition := position currentTask;
               rec_processingTime := processingTime currentTask;
               executionOrder := Z.of_nat simulationStep + 1;
               amrPositionBefore := carrierPosition previousAmr;
               amrPositionAfter := carrierPosition updatedAmr;
               storageSlotsBeforeExecution := nth (carrierSlots previousAmr) h' [];
               storageSlotsAfterExecution := nth (carrierSlots updatedAmr) h' [];
               distanceTraveled := distance;
               waitTime := 0;
               isSuccessful := true |})
  end.

(** The effect runs again after every step, as long as nobody stops the
    simulation; [n] bounds the number of steps. *)
Fixpoint stepping (n : nat) (h : Heap) (amr : Carrier) (activeSolution : list Task)
  (simulationStep : nat) (records : list TaskExecutionRecord)
  : Heap * Carrier * list TaskExecutionRecord :=
  match n with
  | O => (h, amr, records)
  | S n' =>
      match stepCallback h amr activeSolution simulationStep with
      | None => (h, amr, records)
      | Some (h', amr', r) =>
          stepping n' h' amr' activeSolution (S simulationStep) (records ++ [r])
      end
  end.

(** [simulateSolution] followed by the steps: the carrier is a [new AMR()]. *)
Definition simulateSolution (h : Heap) (activeSolution : list Task)
  : Heap * Carrier * list TaskExecutionRecord :=
  stepping (length activeSolution)
           (h ++ [storageSlots (newAMR None None)])
           {| carrierPosition := amr_position (newAMR None None); carrierSlots := length h |}
           activeSolution 0 [].

(** The carrier before step [k], as [executeTask] leaves it. *)
Definition carrierBefore (solution : list Task) (k : nat) : AMR :=
  FIFOFacts.executeAll (newAMR None None) (firstn k solution).

(** What the record of step [k] holds. *)
Definition Recorded (solution : list Task) (k : nat) (r : TaskExecutionRecord) : Prop :=
  exists task,
    nth_error solution k = Some task /\
    rec_taskId r = id task /\
    executionOrder r = Z.of_nat k + 1 /\
    amrPositionBefore r = amr_position (carrierBefore solution k) /\
    amrPositionAfter r = position task /\
    storageSlotsBeforeExecution r = storageSlots (executeTask (carrierBefore solution k) task) /\
    storageSlotsAfterExecution r = storageSlots (executeTask (carrierBefore solution k) task) /\
    distanceTraveled r
    = euclid (position task) (FIFO.currentPosition (FIFO.replay (firstn k solution))) /\
    isSuccessful r = true.

Lemma executeAll_snoc a l t :
  FIFOFacts.executeAll a (l ++ [t]) = executeTask (FIFOFacts.executeAll a l) t.
Proof. unfold FIFOFacts.executeAll. now rewrite fold_left_app. Qed.

Lemma firstn_snoc (A : Type) (l : list A) k t :
  nth_error l k = Some t -> firstn (S k) l = firstn k l ++ [t].
Proof.
  revert k. induction l as [|a l IH]; intros [|k] H; simpl in *; try discriminate.
  - now inversion H.
  - f_equal. now apply IH.
Qed.

Lemma executeTask_position a t : amr_position (executeTask a t) = position t.
Proof. unfold executeTask. destruct (type t); try reflexivity.
  destruct (freeFirstOccupied (storageSlots a)) as [m [|]]; reflexivity. Qed.

Lemma executeAll_position l :
  amr_position (FIFOFacts.executeAll (newAMR None None) l)
  = FIFO.currentPosition (FIFO.replay l).
Proof.
  induction l as [|t l _] using rev_ind; [reflexivity|].
  rewrite executeAll_snoc, GA.replay_snoc, executeTask_position. reflexivity.
Qed.

Lemma stepping_records n solution :
  forall h amr k records,
    (carrierSlots amr < length h)%nat ->
    nth (carrierSlots amr) h [] = storageSlots (carrierBefore solution k) ->
    carrierPosition amr = amr_position (carrierBefore solution k) ->
    length records = k ->
    (forall j r, nth_error records j = Some r -> Recorded solution j r) ->
    (k + n = length solution)%nat ->
    let records' := snd (stepping n h amr solution k records) in
    length records' = length solution /\
    (forall j r, nth_error records' j = Some r -> Recorded solution j r).
Proof.
  induction n as [|n IH]; intros h amr k records Ha Hs Hp Hl Hr Hn; cbv zeta.
  - simpl. split; [lia|exact Hr].
  - cbn [stepping]. unfold stepCallback.
    destruct (nth_error solution k) as [task|] eqn:Et.
    2:{ apply nth_error_None in Et. lia. }
    unfold executeTaskAt. cbn [carrierPosition carrierSlots].
    set (a := executeTask {| amr_position := carrierPosition amr;
                             storageSlots := nth (carrierSlots amr) h [] |} task).
    assert (Ea : a = executeTask (carrierBefore solution k) task).
    { unfold a. f_equal. rewrite Hs, Hp. destruct (carrierBefore solution k). reflexivity. }
    assert (Enext : carrierBefore solution (S k) = a).
    { unfold carrierBefore. rewrite (@firstn_snoc _ solution k task Et), executeAll_snoc. symmetry. exact Ea. }
    apply IH.
    + cbn [carrierSlots]. rewrite GA.replace_nth_length; trivial.
    + cbn [carrierSlots]. rewrite GA.replace_nth_nth by trivial. now rewrite Enext.
    + cbn [carrierPosition]. now rewrite Enext.
    + rewrite length_app. simpl. lia.
    + intros j r Hj.
      destruct (Nat.lt_ge_cases j (length records)) as [Hlt|Hge].
      * rewrite nth_error_app1 in Hj by trivial. apply Hr, Hj.
      * rewrite nth_error_app2 in Hj by trivial.
        destruct (j - length records)%nat as [|d] eqn:Ed; [|destruct d; discriminate].
        assert (j = k) by lia. subst j. cbn [nth_error] in Hj. inversion Hj; subst r; clear Hj.
        exists task.
        cbn [rec_taskId executionOrder amrPositionBefore amrPositionAfter
             storageSlotsBeforeExecution storageSlotsAfterExecution distanceTraveled
             isSuccessful carrierPosition carrierSlots].
        change (match h with [] => [] | _ :: l => skipn (carrierSlots amr) l end)
          with (skipn (S (carrierSlots amr)) h).
        rewrite !GA.replace_nth_nth by trivial. rewrite <- Ea.
        assert (Epos : amr_position a = position task)
          by (unfold a; apply executeTask_position).
        rewrite Epos, Hp.
        repeat split; trivial.
        unfold carrierBefore. rewrite executeAll_position. reflexivity.
    + lia.
Qed.

(** X9. The record of a simulated step is made after the task has been
    executed, from two objects that share the carrier's slots array: for
    every step of every solution the slots logged as "before execution" are
    the slots after execution, equal to the ones logged as "after". The
    positions are the carrier's before the step and the task's, the logged
    distance is the leg the evaluator charges for that task, every task is
    logged as successful (also a DELIVERY dropped for want of a free slot),
    and an uninterrupted simulation makes one record per task. When the
    solution starts with a DELIVERY, its record shows the first slot occupied
    by that task already "before execution". *)
Theorem simulation_records_slots_after_execution :
  forall (h : Heap) (solution : list Task),
    let records := snd (simulateSolution h solution) in
    length records = length solution /\
    (forall k r, nth_error records k = Some r -> Recorded solution k r) /\
    Forall (fun r => storageSlotsBeforeExecution r = storageSlotsAfterExecution r) records /\
    (forall task rest r,
       solution = task :: rest -> type task = DELIVERY ->
       nth_error records 0 = Some r ->
       storageSlotsBeforeExecution r = [slotFor task; emptySlot; emptySlot; emptySlot]).
Proof.
  intros h solution. cbv zeta. unfold simulateSolution.
  destruct (@stepping_records (length solution) solution
              (h ++ [storageSlots (newAMR None None)])
              {| carrierPosition := amr_position (newAMR None None); carrierSlots := length h |}
              0%nat []) as [H1 H2]; trivial.
  - rewrite length_app. simpl. lia.
  - cbn [carrierSlots]. rewrite app_nth2, Nat.sub_diag by lia. reflexivity.
  - intros [|j] r Hj; discriminate.
  - split; [exact H1|]. split; [exact H2|]. split.
    + apply Forall_forall. intros r Hin. apply In_nth_error in Hin. destruct Hin as (k & Hk).
      destruct (H2 k r Hk) as (task & _ & _ & _ & _ & _ & E1 & E2 & _). congruence.
    + intros task rest r -> Ht Hr.
      destruct (H2 0%nat r Hr) as (task' & Et & _ & _ & _ & _ & E1 & _).
      simpl in Et. inversion Et; subst task'. rewrite E1.
      unfold carrierBefore, executeTask. simpl. rewrite Ht. reflexivity.
Qed.

End Page.

(** ** The genetic scheduler: chunks, early termination, best and worst *)

Module GAFacts.
Import Models GA.
Local Open Scope Z_scope.

(** The number of times [run] gave control back to the event loop. *)
Definition countYields (tr : list Event) : nat :=
  length (filter (fun e => match e with Yield => true | _ => false end) tr).

(** The number of chunks still to run from [generation]: the quotient of
    [maxGenerations - generation] by [processingChunkSize], rounded up. *)
Definition chunksFrom (p : Params) (generation : Z) : Z :=
  (maxGenerations p - generation + processingChunkSize p - 1) / processingChunkSize p.

Lemma countYields_app tr1 tr2 : countYields (tr1 ++ tr2) = (countYields tr1 + countYields tr2)%nat.
Proof. unfold countYields. now rewrite filter_app, length_app. Qed.

Lemma countYields_emit e enabled :
  match e with Yield => False | _ => True end -> countYields (emit e enabled []) = 0%nat.
Proof. unfold emit. destruct enabled, e; simpl; trivial; contradiction. Qed.

Section Chunks.

Variable rnd : nat -> Q.
Variable p : Params.

Lemma generationStep_emits g st st' stop :
  generationStep rnd p g st = inl (st', stop) ->
  exists best stats,
    trace st' = trace st ++ emit (GenerationComplete (g + 1) best stats)
                                 (hasOnGenerationComplete p) [].
Proof.
  unfold generationStep. intros H.
  destruct (createNewGeneration rnd p (population st) (world st)) as [[newPop w]| |];
    try discriminate.
  destruct (evaluatePopulation p w newPop) as [pop| |]; try discriminate.
  destruct (findBestIndividual pop) as [b|]; try discriminate.
  inversion H; subst; clear H. cbn [trace]. rewrite emit_app. eauto.
Qed.

Lemma chunkLoop_events n :
  forall g st st',
    chunkLoop rnd p n g st = inl st' ->
    exists rest,
      trace st' = trace st ++ rest /\
      countYields rest = 0%nat /\
      (n <> 0%nat -> hasOnGenerationComplete p = true -> In (g + 1) (map fst (reports rest))).
Proof.
  induction n as [|n IH]; intros g st st'; cbn [chunkLoop].
  - intros H. inversion H; subst. exists []. rewrite app_nil_r. repeat split; trivial.
    intros Hn. contradiction.
  - destruct (generationStep rnd p g st) as [[st1 stop]|r] eqn:E; [|discriminate].
    apply generationStep_emits in E as (best & stats & E).
    assert (Hin : hasOnGenerationComplete p = true ->
                  In (g + 1) (map fst (reports (emit (GenerationComplete (g + 1) best stats)
                                                    (hasOnGenerationComplete p) [])))).
    { intros ->. simpl. auto. }
    destruct stop.
    + intros H. inversion H; subst st1.
      eexists. split; [exact E|]. split; [now apply countYields_emit|]. intros _. exact Hin.
    + intros H. apply IH in H as (rest & H1 & H2 & _).
      eexists. split; [rewrite H1, E, <- app_assoc; reflexivity|]. split.
      * rewrite countYields_app, H2, countYields_emit; trivial.
      * intros _ Hc. rewrite reports_app, map_app. apply in_or_app. left. now apply Hin.
Qed.

Lemma chunk_cases :
  processingChunkSize p = 3 \/ processingChunkSize p = 4 \/ processingChunkSize p = 5.
Proof.
  unfold processingChunkSize.
  destruct (20 <? Z.of_nat (length (tasks p))); auto.
  destruct (15 <? Z.of_nat (length (tasks p))); auto.
Qed.

Lemma mainLoop_events fuel :
  forall generation st tr,
    mainLoop rnd p fuel generation st = (tr, Completed) ->
    exists rest,
      tr = trace st ++ rest /\
      countYields rest = Z.to_nat (chunksFrom p generation) /\
      (hasOnGenerationComplete p = true ->
       forall j, 0 <= j -> generation + j * processingChunkSize p < maxGenerations p ->
                 In (generation + j * processingChunkSize p + 1) (map fst (reports rest))).
Proof.
  unfold chunksFrom.
  induction fuel as [|fuel IH]; intros g st tr; cbn [mainLoop];
    destruct (Z.ltb_spec g (maxGenerations p)) as [Hlt|Hge]; try discriminate.
  - intros H. inversion H; subst. rewrite emit_app. eexists. split; [reflexivity|].
    split.
    + rewrite countYields_emit by trivial.
      destruct chunk_cases as [E|[E|E]]; rewrite E; Z.div_mod_to_equations; lia.
    + intros _ j Hj Hlt. destruct chunk_cases as [E|[E|E]]; rewrite E in Hlt; lia.
  - set (endChunk := Z.min (g + processingChunkSize p) (maxGenerations p)).
    destruct (chunkLoop rnd p (Z.to_nat (endChunk - g)) g st) as [st'|[tr' r]] eqn:E.
    + intros H. apply IH in H as (rest2 & H1 & H2 & H3). cbn [trace] in H1.
      apply chunkLoop_events in E as (rest1 & E1 & E2 & E3).
      exists (rest1 ++ [Yield] ++ rest2). split; [rewrite H1, E1, <- !app_assoc; reflexivity|].
      split.
      * rewrite !countYields_app, E2, H2. change (countYields [Yield]) with 1%nat.
        unfold endChunk.
        destruct chunk_cases as [Ec|[Ec|Ec]]; rewrite Ec; Z.div_mod_to_equations; lia.
      * intros Hc j Hj Hjl. rewrite !reports_app, !map_app.
        destruct (Z.eq_dec j 0) as [->|Hj0].
        -- apply in_or_app. left. replace (g + 0 * processingChunkSize p + 1) with (g + 1) by lia.
           apply E3; trivial. unfold endChunk.
           destruct chunk_cases as [Ec|[Ec|Ec]]; rewrite Ec; lia.
        -- apply in_or_app. right. apply in_or_app. right.
           assert (Hend : endChunk = g + processingChunkSize p).
           { unfold endChunk. destruct chunk_cases as [Ec|[Ec|Ec]]; rewrite Ec in *; lia. }
           replace (g + j * processingChunkSize p + 1)
             with (endChunk + (j - 1) * processingChunkSize p + 1) by (rewrite Hend; lia).
           apply H3; trivial; [lia|]. rewrite Hend. lia.
    + intros H. inversion H; subst.
      apply chunkLoop_outcome in E. destruct E; discriminate.
  - intros H. inversion H; subst. rewrite emit_app. eexists. split; [reflexivity|].
    split.
    + rewrite countYields_emit by trivial.
      destruct chunk_cases as [E|[E|E]]; rewrite E; Z.div_mod_to_equations; lia.
    + intros _ j Hj Hlt. destruct chunk_cases as [E|[E|E]]; rewrite E in Hlt; lia.
Qed.

End Chunks.

(** X10. Early termination does not end a run. A run that completes has
    given control back to the event loop once per chunk, that is
    [ceil(maxGenerations / processingChunkSize)] times, whether or not the
    early-termination test fired; and, when the callback is given, it has
    reported generation 0 and the first generation of every chunk
    (1, chunk + 1, 2 * chunk + 1, ... as long as the chunk starts below
    [maxGenerations]). The test only skips the rest of the chunk in which it
    fires. *)
Theorem early_termination_only_skips_the_chunk :
  forall (rnd : nat -> Q) (p : Params) (tr : list Event),
    run rnd p = (tr, Completed) ->
    countYields tr = Z.to_nat (chunksFrom p 0) /\
    (hasOnGenerationComplete p = true ->
     In 0 (map fst (reports tr)) /\
     forall j, 0 <= j -> j * processingChunkSize p < maxGenerations p ->
               In (j * processingChunkSize p + 1) (map fst (reports tr))).
Proof.
  intros rnd p tr. unfold run.
  destruct (initializePopulation rnd p emptyWorld) as [[pop0 w]| |];
    try (destruct (outcomeOf _); discriminate); try discriminate.
  destruct (evaluatePopulation p w (map Some pop0)) as [pop| |]; try discriminate.
  destruct (findBestIndividual pop) as [b|]; try discriminate.
  intros H. apply mainLoop_events in H as (rest & H1 & H2 & H3). cbn [trace] in H1.
  subst tr. split.
  - rewrite countYields_app, H2, countYields_emit; trivial.
  - intros Hc. rewrite reports_app, map_app. split.
    + apply in_or_app. left. rewrite Hc. simpl. auto.
    + intros j Hj Hlt. apply in_or_app. right.
      replace (j * processingChunkSize p + 1) with (0 + j * processingChunkSize p + 1) by lia.
      apply H3; trivial.
Qed.

Lemma early_termination_only_skips_the_chunk_witness :
  countYields (fst (run sampleRandom (sampleParams sampleTasks 4 12))) = 3%nat.
Proof.
  assert (E : run sampleRandom (sampleParams sampleTasks 4 12)
              = (fst (run sampleRandom (sampleParams sampleTasks 4 12)), Completed))
    by (vm_compute; reflexivity).
  destruct (early_termination_only_skips_the_chunk _ _ E) as [H _].
  rewrite H. reflexivity.
Defined.

(** *** Best and worst of a population *)

Lemma fold_best pop :
  forall b0 b,
    fold_left (fun best current =>
                 match best with
                 | None => Some current
                 | Some b' => if (fitness current <? fitness b')%float
                              then Some current else Some b'
                 end) pop (Some b0) = Some b ->
    noWorse (fitness b) (fitness b0) /\
    forall c, In c pop -> (fitness c <? fitness b)%float = false.
Proof.
  induction pop as [|x l IH]; intros b0 b H; simpl in H.
  - inversion H; subst. split; [right; reflexivity|]. intros c [].
  - destruct (fitness x <? fitness b0)%float eqn:E; apply IH in H as [H1 H2].
    + split; [eapply noWorse_trans; [exact H1|left; exact E]|].
      intros c [Ex|Hc]; [subst x|auto].
      destruct H1 as [H1|H1]; [|rewrite H1; apply ltb_irrefl].
      destruct (fitness c <? fitness b)%float eqn:Ec; trivial.
      pose proof (ltb_trans Ec H1) as Hcc. rewrite ltb_irrefl in Hcc. discriminate.
    + split; [exact H1|].
      intros c [Ex|Hc]; [subst x|auto].
      destruct H1 as [H1|H1]; [|rewrite H1; exact E].
      destruct (fitness c <? fitness b)%float eqn:Ec; trivial.
      pose proof (ltb_trans Ec H1) as Hcc. congruence.
Qed.

Lemma fold_worst pop :
  forall worst0,
    let worst := fold_left (fun worst current =>
                              if (worst <? fitness current)%float then fitness current else worst)
                           pop worst0 in
    (worst = worst0 \/ (worst0 <? worst)%float = true) /\
    forall c, In c pop -> (worst <? fitness c)%float = false.
Proof.
  induction pop as [|x l IH]; intros w0; cbv zeta; simpl.
  - split; [left; reflexivity|]. intros c [].
  - destruct (w0 <? fitness x)%float eqn:E.
    + destruct (IH (fitness x)) as [H1 H2]. cbv zeta in H1, H2. split.
      * right. destruct H1 as [->|H1]; [exact E|eapply ltb_trans; eauto].
      * intros c [Ex|Hc]; [subst x|auto].
        destruct H1 as [->|H1]; [apply ltb_irrefl|].
        match goal with |- ?t = false => destruct t eqn:Ec; trivial end.
        pose proof (ltb_trans H1 Ec) as Hcc. rewrite ltb_irrefl in Hcc. discriminate.
    + destruct (IH w0) as [H1 H2]. cbv zeta in H1, H2. split; [exact H1|].
      intros c [Ex|Hc]; [subst x|auto].
      destruct H1 as [->|H1]; [exact E|].
      match goal with |- ?t = false => destruct t eqn:Ec; trivial end.
      pose proof (ltb_trans H1 Ec) as Hcc. congruence.
Qed.

(** X12. [findBestIndividual] returns [null] exactly on the empty
    population; otherwise it returns a member of the population that no
    member beats: no individual has a fitness strictly below the one
    returned. Likewise no individual has a fitness strictly above the
    [worstFitness] of the statistics. Both hold whatever the fitness values
    are, NaN included. *)
Theorem best_and_worst_bracket_the_population :
  forall pop : list Individual,
    (findBestIndividual pop = None <-> pop = []) /\
    (forall b, findBestIndividual pop = Some b ->
               In b pop /\
               forall c, In c pop -> (fitness c <? fitness b)%float = false) /\
    (forall c, In c pop ->
               (worstFitness (calculatePopulationStatistics pop) <? fitness c)%float = false).
Proof.
  intros pop. split; [|split].
  - split; [|intros ->; reflexivity].
    destruct pop as [|x l]; trivial. intros H. exfalso.
    unfold findBestIndividual in H. simpl in H.
    assert (G : forall l b0,
               fold_left (fun best current =>
                            match best with
                            | None => Some current
                            | Some b' => if (fitness current <? fitness b')%float
                                         then Some current else Some b'
                            end) l (Some b0) <> None).
    { clear. induction l as [|y l IH]; intros b0; simpl; [discriminate|].
      destruct (fitness y <? fitness b0)%float; apply IH. }
    exact (G l x H).
  - intros b H. split; [now apply findBestIndividual_In|].
    destruct pop as [|x l]; [discriminate|].
    unfold findBestIndividual in H. simpl in H. apply fold_best in H as [H1 H2].
    intros c [Ex|Hc]; [subst x|auto].
    destruct H1 as [H1|H1]; [|rewrite H1; apply ltb_irrefl].
    destruct (fitness c <? fitness b)%float eqn:Ec; trivial.
    pose proof (ltb_trans Ec H1) as Hcc. rewrite ltb_irrefl in Hcc. discriminate.
  - intros c Hc. unfold calculatePopulationStatistics. cbn [worstFitness].
    match goal with |- (fold_left _ pop ?w0 <? _)%float = false =>
      destruct (fold_worst pop w0) as [_ H] end.
    cbv zeta in H. apply H, Hc.
Qed.

End GAFacts.

(** ** The genetic scheduler: repeated ids, and the grouping of a fresh chromosome *)

Module ChromosomeFacts.
Import Models GA.
Local Open Scope Z_scope.

Lemma setAdd_NoDup x used : NoDup used -> NoDup (setAdd x used).
Proof.
  intros H. unfold setAdd. destruct (setHas x used) eqn:E; trivial.
  apply NoDup_app; trivial.
  - repeat constructor. intros [].
  - intros y Hy [<-|[]]. apply setHas_In in Hy. congruence.
Qed.

Lemma forCount_keeps (S : Type) (Q : S -> Prop) (body : Z -> S -> S) n :
  (forall i s, Q s -> Q (body i s)) ->
  forall lo st, Q st -> Q (forCount n lo body st).
Proof.
  intros Hb. induction n as [|n IH]; intros lo st H; cbn [forCount]; auto.
Qed.

Lemma segmentIds_NoDup offspring point1 point2 :
  NoDup (segmentIds offspring point1 point2).
Proof.
  unfold segmentIds, forFromTo. apply forCount_keeps; [|constructor].
  intros i s Hs. destruct (js_get offspring i); trivial. now apply setAdd_NoDup.
Qed.

(** The positions of [i, i + k) outside the segment. *)
Fixpoint outside (point1 point2 : Z) (k : nat) (i : Z) : nat :=
  match k with
  | O => O
  | S k' => Nat.add (if (i <? point1) || (point2 <? i) then 1%nat else 0%nat)
                     (outside point1 point2 k' (i + 1))
  end.

Lemma outside_count point1 point2 k :
  point1 <= point2 ->
  forall i, 0 <= i ->
    Z.of_nat (outside point1 point2 k i)
    = Z.max 0 (Z.min (i + Z.of_nat k) point1 - i)
      + Z.max 0 (i + Z.of_nat k - Z.max i (point2 + 1)).
Proof.
  intros Hp. induction k as [|k IH]; intros i Hi; cbn [outside].
  - lia.
  - rewrite Nat2Z.inj_add, IH by lia. rewrite Nat2Z.inj_succ.
    destruct (Z.ltb_spec i point1), (Z.ltb_spec point2 i); cbn [orb];
      change (Z.of_nat 1) with 1; change (Z.of_nat 0) with 0; lia.
Qed.

Section Fill.

Variable P : list Task.
Variables point1 point2 : Z.

Let parent : TaskArray := map Some P.
Let N : Z := Z.of_nat (length P).

Lemma parent_at j :
  0 <= j < N -> exists t, js_get parent j = Some t /\ In t P.
Proof.
  intros Hj. unfold N in Hj.
  destruct (nth_error P (Z.to_nat j)) as [t|] eqn:E.
  - exists t. split; [|eapply nth_error_In; eauto].
    assert (G : nth_error parent (Z.to_nat j) = Some (Some t))
      by (unfold parent; rewrite nth_error_map, E; reflexivity).
    rewrite js_get_inside in G by (unfold parent; rewrite length_map; lia).
    now inversion G.
  - apply nth_error_None in E. lia.
Qed.

Lemma probe_result used more :
  forall j, 0 <= j < N ->
    probe more parent used j = Diverges \/
    exists j' t, probe more parent used j = Ok j' /\
                 js_get parent j' = Some t /\ In t P /\ setHas (id t) used = false.
Proof.
  induction more as [|more IH]; intros j Hj; cbn [probe];
    destruct (parent_at Hj) as (t & Ht & Hin); rewrite Ht;
    destruct (setHas (id t) used) eqn:E.
  - left. reflexivity.
  - right. exists j, t. auto.
  - apply IH. unfold parent. rewrite length_map. fold N. apply Z.mod_pos_bound. lia.
  - right. exists j, t. auto.
Qed.

Lemma fillStep_result i offspring used :
  0 <= i < N -> NoDup used -> incl used (map id P) ->
  fillStep parent point1 point2 i (offspring, used) = Diverges \/
  exists offspring' used',
    fillStep parent point1 point2 i (offspring, used) = Ok (offspring', used') /\
    NoDup used' /\ incl used' (map id P) /\
    length used' = Nat.add (length used)
                           (if (i <? point1) || (point2 <? i) then 1%nat else 0%nat).
Proof.
  intros Hi Hn Hincl. unfold fillStep.
  destruct ((i <? point1) || (point2 <? i)).
  - destruct (@probe_result used (length parent - 1) i Hi)
      as [Ed|(j & t & Ep & Hg & Hin & Hu)].
    + rewrite Ed. left. reflexivity.
    + rewrite Ep. cbn [rbind]. rewrite Hg. right.
      assert (Eadd : setAdd (id t) used = used ++ [id t]) by (unfold setAdd; now rewrite Hu).
      eexists _, _. split; [reflexivity|]. split; [now apply setAdd_NoDup|]. split.
      * rewrite Eadd. apply incl_app; trivial. intros z [<-|[]]. now apply in_map.
      * rewrite Eadd, length_app. reflexivity.
  - right. exists offspring, used. repeat split; trivial; lia.
Qed.

Lemma fill_loop k :
  forall i offspring used,
    0 <= i -> i + Z.of_nat k <= N ->
    NoDup used -> incl used (map id P) ->
    forCountR k i (fillStep parent point1 point2) (offspring, used) = Diverges \/
    exists offspring' used',
      forCountR k i (fillStep parent point1 point2) (offspring, used) = Ok (offspring', used') /\
      NoDup used' /\ incl used' (map id P) /\
      length used' = (length used + outside point1 point2 k i)%nat.
Proof.
  induction k as [|k IH]; intros i offspring used Hi Hk Hn Hincl; cbn [forCountR outside].
  - right. exists offspring, used. repeat split; trivial; lia.
  - destruct (@fillStep_result i offspring used) as [Ed|(o1 & u1 & E1 & H1 & H2 & H3)];
      trivial; [lia| rewrite Ed; left; reflexivity|].
    rewrite E1. cbn [rbind].
    destruct (IH (i + 1) o1 u1) as [Ed|(o' & u' & E & G1 & G2 & G3)]; trivial; try lia.
    + left. exact Ed.
    + right. exists o', u'. repeat split; trivial. rewrite G3, H3. lia.
Qed.

End Fill.

Lemma segment_index (A : Type) (l : list A) (a m : nat) (t : A) :
  In t (firstn m (skipn a l)) ->
  exists k, (a <= k < a + m)%nat /\ nth_error l k = Some t.
Proof.
  intros H. apply In_nth_error in H as (d & Hd).
  assert (Hdm : (d < m)%nat).
  { assert (Hlt : (d < length (firstn m (skipn a l)))%nat)
      by (apply nth_error_Some; congruence).
    rewrite length_firstn in Hlt. lia. }
  rewrite nth_error_firstn in Hd.
  destruct (Nat.ltb_spec d m); [|lia].
  rewrite nth_error_skipn in Hd. exists (a + d)%nat. split; [lia|exact Hd].
Qed.

(** X13. When two tasks share an id, PMX does not return: if the two parents
    are arrangements of a task list in which an id occurs twice, and the ids
    in the segment taken from the second parent are pairwise distinct (as
    they are for a segment of one task), the filling loop of the first
    offspring uses up every id of its parent before every position is
    filled, and the search for an unused id then runs for ever. *)
Theorem pmx_never_returns_on_duplicate_ids :
  forall (T P1 P2 : list Task) (point1 point2 : Z),
    Permutation T P1 -> Permutation T P2 ->
    ~ NoDup (map id T) ->
    0 <= point1 -> point1 <= point2 -> point2 < Z.of_nat (length T) ->
    NoDup (map id (firstn (Z.to_nat (point2 - point1 + 1)) (skipn (Z.to_nat point1) P2))) ->
    pmx (map Some P1) (map Some P2) point1 point2 = Diverges.
Proof.
  intros T P1 P2 point1 point2 HP1 HP2 Hdup H0 H12 H2n Hseg.
  pose proof (Permutation_length HP1) as L1.
  pose proof (Permutation_length HP2) as L2.
  unfold pmx. rewrite copySegment_split.
  set (blank := repeat (@None Task) (length (map Some P1))).
  set (o1 := forFromTo point1 point2 (fun i o => js_set o i (js_get (map Some P2) i)) blank).
  assert (Lb : length blank = length P1)
    by (unfold blank; rewrite repeat_length; apply length_map).
  destruct (@forCount_js_set (fun i => js_get (map Some P2) i)
              (Z.to_nat (point2 - point1 + 1)) point1 blank) as [Lo K]; [lia|lia|].
  fold (forFromTo point1 point2 (fun i o => js_set o i (js_get (map Some P2) i)) blank) in Lo, K.
  fold o1 in Lo, K.
  (* every task of the segment is in the first offspring, at its position *)
  assert (Kseg : forall k t, point1 <= Z.of_nat k <= point2 -> nth_error P2 k = Some t ->
                             js_get o1 (Z.of_nat k) = Some t).
  { intros k t Hk Ht.
    assert (G : nth_error o1 k = Some (js_get (map Some P2) (Z.of_nat k))).
    { rewrite K.
      destruct (Z.leb_spec point1 (Z.of_nat k)),
               (Z.ltb_spec (Z.of_nat k) (point1 + Z.of_nat (Z.to_nat (point2 - point1 + 1))));
        simpl; trivial; lia. }
    assert (G1 : nth_error o1 (Z.to_nat (Z.of_nat k)) = Some (js_get o1 (Z.of_nat k)))
      by (apply js_get_inside; lia).
    rewrite Nat2Z.id, G in G1.
    assert (G2 : js_get o1 (Z.of_nat k) = js_get (map Some P2) (Z.of_nat k)) by congruence.
    rewrite G2.
    assert (G3 : nth_error (map Some P2) (Z.to_nat (Z.of_nat k)) = Some (js_get (map Some P2) (Z.of_nat k)))
      by (apply js_get_inside; rewrite length_map; lia).
    rewrite Nat2Z.id, nth_error_map, Ht in G3. simpl in G3. now inversion G3. }
  (* the ids in use when the filling starts *)
  set (used0 := segmentIds o1 point1 point2).
  assert (Hnd0 : NoDup used0) by apply segmentIds_NoDup.
  assert (Hincl0 : incl used0 (map id P1)).
  { intros z Hz. apply segmentIds_In in Hz as (k & t & Hk & Hg & <-).
    assert (Hkn : 0 <= k < Z.of_nat (length P2)) by lia.
    destruct (nth_error P2 (Z.to_nat k)) as [t'|] eqn:Et;
      [|apply nth_error_None in Et; lia].
    rewrite <- (Z2Nat.id k) in Hg by lia.
    rewrite (Kseg (Z.to_nat k) t') in Hg by (trivial; lia).
    inversion Hg; subst t'.
    apply in_map. apply (Permutation_in _ (Permutation_trans (Permutation_sym HP2) HP1)).
    eapply nth_error_In; eauto. }
  assert (Hlen0 : (Z.to_nat (point2 - point1 + 1) <= length used0)%nat).
  { set (seg := firstn (Z.to_nat (point2 - point1 + 1)) (skipn (Z.to_nat point1) P2)) in *.
    assert (Hl : length (map id seg) = Z.to_nat (point2 - point1 + 1)).
    { unfold seg. rewrite length_map, length_firstn, length_skipn. lia. }
    rewrite <- Hl. apply NoDup_incl_length; trivial.
    intros z Hz. apply in_map_iff in Hz as (t & <- & Ht).
    apply segment_index in Ht as (k & Hk & Ek).
    apply segmentIds_In. exists (Z.of_nat k), t. split; [lia|]. split; trivial.
    apply Kseg; trivial. lia. }
  unfold fillRemainingPositions at 1. fold used0.
  destruct (@fill_loop P1 point1 point2 (length (map Some P1)) 0 o1 used0)
    as [Ed|(o' & u' & E & G1 & G2 & G3)]; trivial; try lia.
  { rewrite length_map. lia. }
  - rewrite Ed. reflexivity.
  - exfalso. apply Hdup.
    assert (Hout : Z.of_nat (outside point1 point2 (length (map Some P1)) 0)
                   = Z.of_nat (length P1) - (point2 - point1 + 1)).
    { rewrite outside_count, length_map by lia. lia. }
    apply (Permutation_NoDup (Permutation_sym (Permutation_map id HP1))).
    apply (@NoDup_incl_NoDup _ u' (map id P1)); trivial.
    rewrite length_map, G3. lia.
Qed.

(** Two tasks with the same id. *)
Definition twin (row : float) : Task :=
  {| id := 1; type := DELIVERY; position := {| x := 3; y := row |}; processingTime := 5 |}.

Lemma pmx_never_returns_on_duplicate_ids_witness :
  pmx (map Some [twin 3; twin 5]) (map Some [twin 3; twin 5]) 0 0 = Diverges.
Proof.
  apply (@pmx_never_returns_on_duplicate_ids [twin 3; twin 5]); simpl; try lia;
    try apply Permutation_refl.
  - intros H. inversion H as [|? ? Hn _]; subst. apply Hn. simpl. auto.
  - repeat constructor. intros [].
Defined.

(** X14. The capacity grouping in [createRandomChromosome] changes nothing:
    cutting the shuffled list into groups and concatenating the groups gives
    the shuffled list back. A fresh chromosome is the shuffled task list, in
    the order the shuffle left it, whatever the task kinds. *)
Theorem createRandomChromosome_is_the_shuffle :
  (forall l : list Task, groupAndFlatten l = l) /\
  (forall (rnd : nat -> Q) (p : Params) (w : World),
     exists l w1,
       shuffle rnd (tasks p) w = Ok (l, w1) /\
       store w1 = store w /\
       createRandomChromosome rnd p w
       = Ok (length (store w), {| store := store w ++ [map Some l]; draws := draws w1 |})).
Proof.
  split; [apply groupAndFlatten_id|].
  intros rnd p w. destruct (shuffle_spec rnd (tasks p) w) as (l & w1 & E & Hs & _).
  exists l, w1. split; [exact E|]. split; [exact Hs|].
  unfold createRandomChromosome. rewrite (bind_step _ E).
  rewrite groupAndFlatten_id. unfold allocArray. rewrite Hs. reflexivity.
Qed.

End ChromosomeFacts.
